(** * LampDB: a shallow embedding of the key/value wire errors, the public
      KV endpoint, the SQL string encoder, the in-memory raft storage, the
      command line entry point, the command queue of a range and the
      multi-version operations, with the properties stated about them. *)

From Stdlib Require Import ZArith List Strings.String Strings.Ascii Strings.Byte
  Bool Lia Sorting.Sorted.
From stdpp Require Import base option gmap.
Import ListNotations.

Local Open Scope Z_scope.

(** ** Shared data of package [proto] *)

(** A key is a byte string; where Go passes a nil key, an optional key is
    used. *)
Definition Key := list byte.

(** [proto.Timestamp]: wall time in nanoseconds and a logical counter. *)
Record Timestamp := mkTimestamp { WallTime : Z; Logical : Z }.

Definition RangeID := Z.

Record Replica := mkReplica { NodeID : Z; StoreID : Z; ReplicaID : Z }.

Record RangeDescriptor := mkRangeDescriptor {
  desc_RangeID : RangeID;
  StartKey : Key;
  EndKey : Key;
  Replicas : list Replica;
  NextReplicaID : Z
}.

Record Lease := mkLease {
  lease_Start : Timestamp;
  lease_Expiration : Timestamp;
  lease_RaftNodeID : Z
}.

Record Transaction := mkTransaction {
  txn_ID : list byte;
  txn_Priority : Z;
  txn_Epoch : Z;
  txn_Timestamp : Timestamp;
  txn_OrigTimestamp : Timestamp
}.

Record Intent := mkIntent { intent_Key : Key; intent_Txn : Transaction }.

Record Value := mkValue { Bytes : list byte; Integer : option Z }.

(** ** Package [proto]: errors *)

Module proto.

(** Modelled from the spec: the declaration of the enumeration
    [TransactionRestart] is generated code that is not part of the source
    tree; section 6 gives its three values (none, backoff, immediate), the
    first being the zero value of the field. *)
Inductive TransactionRestart :=
| TransactionRestart_NONE
| TransactionRestart_BACKOFF
| TransactionRestart_IMMEDIATE.

(** The wire error [Error]. *)
Record Error := mkError {
  Message : string;
  Retryable : bool;
  TransactionRestart_ : TransactionRestart;
  Detail : bool
}.

(** Go's zero value [Error{}]. *)
Definition zeroError : Error :=
  {| Message := ""; Retryable := false;
     TransactionRestart_ := TransactionRestart_NONE; Detail := false |}.

(** The error values of the package, one constructor per error type; the
    last constructor is any Go error of another type, known by its text. *)
Inductive GoError :=
| WireError (e : Error)
| NodeUnavailableError
| NotLeaderError (replica leader : Replica)
| LeaseRejectedError (Requested Existing : Lease)
| RangeNotFoundError (rangeID : RangeID)
| RangeKeyMismatchError (RequestStartKey RequestEndKey : Key)
                        (Range : option RangeDescriptor)
| TransactionAbortedError (Txn : Transaction)
| TransactionPushError (Txn : option Transaction) (PusheeTxn : Transaction)
| TransactionRetryError (Txn : Transaction)
| TransactionStatusError (Txn : Transaction) (Msg : string)
| WriteIntentError (Intents : list Intent) (Resolved : bool)
| WriteTooOldError (Timestamp_ ExistingTimestamp : Timestamp)
| ReadWithinUncertaintyIntervalError (Timestamp_ ExistingTimestamp : Timestamp)
| OpRequiresTxnError
| ConditionFailedError (ActualValue : option Value)
| OtherError (msg : string).

Definition NewRangeNotFoundError (rangeID : RangeID) : GoError :=
  RangeNotFoundError rangeID.

Definition NewRangeKeyMismatchError (start end_ : Key)
    (desc : option RangeDescriptor) : GoError :=
  RangeKeyMismatchError start end_ desc.

Definition NewTransactionAbortedError (txn : Transaction) : GoError :=
  TransactionAbortedError txn.

Definition NewTransactionPushError (txn : option Transaction)
    (pusheeTxn : Transaction) : GoError :=
  TransactionPushError txn pusheeTxn.

Definition NewTransactionRetryError (txn : Transaction) : GoError :=
  TransactionRetryError txn.

(** The interface [retry.Retryable]: [CanRetry e] is [Some b] when the type
    of [e] has a method [CanRetry] and the method returns [b], and [None]
    when the type has no such method, so that the type assertion
    [err.(retry.Retryable)] fails. *)
Definition CanRetry (err : GoError) : option bool :=
  match err with
  | WireError e => Some (Retryable e)
  | LeaseRejectedError _ _ => Some false
  | RangeNotFoundError _ => Some true
  | RangeKeyMismatchError _ _ _ => Some true
  | _ => None
  end.

(** The interface [TransactionRestartError], in the same way. *)
Definition CanRestartTransaction (err : GoError) : option TransactionRestart :=
  match err with
  | WireError e => Some (TransactionRestart_ e)
  | TransactionAbortedError _ => Some TransactionRestart_BACKOFF
  | TransactionPushError _ _ => Some TransactionRestart_BACKOFF
  | TransactionRetryError _ => Some TransactionRestart_IMMEDIATE
  | ReadWithinUncertaintyIntervalError _ _ => Some TransactionRestart_IMMEDIATE
  | _ => None
  end.

Section WireError.

(** [fmt.Sprintf] on the payload of an error, and [ErrorDetail.SetValue]
    (whether the error type is a member of the detail union, declared in
    generated code): both are taken as they come. *)
Variable sprintf : GoError -> string.
Variable detail_SetValue : GoError -> bool.

(** The method [Error] of each error type: the texts that format no payload
    are literal, the others are built by [fmt.Sprintf]. *)
Definition ErrorText (err : GoError) : string :=
  match err with
  | WireError e => Message e
  | NodeUnavailableError => "node unavailable; try another peer"
  | OpRequiresTxnError => "the operation requires transactional context"
  | OtherError msg => msg
  | _ => sprintf err
  end.

(** [Error.SetResponseGoError]: sets the message, then the retryable flag
    when the error implements [retry.Retryable], then the restart policy
    when it implements [TransactionRestartError], then the detail. *)
Definition SetResponseGoError (e : Error) (err : GoError) : Error :=
  let e1 :=
    {| Message := ErrorText err; Retryable := Retryable e;
       TransactionRestart_ := TransactionRestart_ e; Detail := Detail e |} in
  let e2 :=
    match CanRetry err with
    | Some r => {| Message := Message e1; Retryable := r;
                   TransactionRestart_ := TransactionRestart_ e1;
                   Detail := Detail e1 |}
    | None => e1
    end in
  let e3 :=
    match CanRestartTransaction err with
    | Some r => {| Message := Message e2; Retryable := Retryable e2;
                   TransactionRestart_ := r; Detail := Detail e2 |}
    | None => e2
    end in
  if detail_SetValue err
  then {| Message := Message e3; Retryable := Retryable e3;
          TransactionRestart_ := TransactionRestart_ e3; Detail := true |}
  else e3.

(** What an error reports about itself on the wire: the fields of a fresh
    [Error] after [SetResponseGoError]. *)
Definition reports_retryable (err : GoError) : bool :=
  Retryable (SetResponseGoError zeroError err).

Definition reports_restart (err : GoError) : TransactionRestart :=
  TransactionRestart_ (SetResponseGoError zeroError err).

End WireError.

(** Modelled from the spec: section 7 classes these kinds of error as
    retryable at the sender (NotLeader, RangeNotFound, RangeKeyMismatch,
    NodeUnavailable, WriteIntent). *)
Definition spec_sender_retryable (err : GoError) : bool :=
  match err with
  | NotLeaderError _ _ | RangeNotFoundError _ | RangeKeyMismatchError _ _ _
  | NodeUnavailableError | WriteIntentError _ _ => true
  | _ => false
  end.

(** *** Properties *)

(** C2. The four errors that restart a transaction classify themselves:
    a retry error restarts immediately, an aborted transaction and a failed
    push restart with backoff, a read within the uncertainty interval
    restarts immediately; the wire error built from each carries the same
    policy. *)
Theorem CanRestartTransaction_classification :
  forall (sprintf : GoError -> string) (setValue : GoError -> bool)
         (txn pushee : Transaction) (otxn : option Transaction)
         (ts ets : Timestamp),
    CanRestartTransaction (TransactionRetryError txn)
      = Some TransactionRestart_IMMEDIATE /\
    CanRestartTransaction (TransactionAbortedError txn)
      = Some TransactionRestart_BACKOFF /\
    CanRestartTransaction (TransactionPushError otxn pushee)
      = Some TransactionRestart_BACKOFF /\
    CanRestartTransaction (ReadWithinUncertaintyIntervalError ts ets)
      = Some TransactionRestart_IMMEDIATE /\
    reports_restart sprintf setValue (TransactionRetryError txn)
      = TransactionRestart_IMMEDIATE /\
    reports_restart sprintf setValue (TransactionAbortedError txn)
      = TransactionRestart_BACKOFF /\
    reports_restart sprintf setValue (TransactionPushError otxn pushee)
      = TransactionRestart_BACKOFF /\
    reports_restart sprintf setValue (ReadWithinUncertaintyIntervalError ts ets)
      = TransactionRestart_IMMEDIATE.
Proof.
  intros; unfold reports_restart, SetResponseGoError; simpl.
  repeat split; intros; try reflexivity;
    match goal with |- context [setValue ?e] => destruct (setValue e) end;
    reflexivity.
Qed.

Definition replica0 : Replica := mkReplica 1 1 1.

(** C5, as stated, fails: a NotLeader error is classed as retryable at the
    sender, but its type has no method [CanRetry] and the wire error built
    from it is not marked retryable. *)
Lemma NotLeaderError_not_reported_retryable :
  spec_sender_retryable (NotLeaderError replica0 replica0) = true /\
  CanRetry (NotLeaderError replica0 replica0) = None /\
  reports_retryable (fun _ => EmptyString) (fun _ => true)
    (NotLeaderError replica0 replica0) = false.
Proof. repeat split; reflexivity. Qed.

(** C5, amended. [CanRetry] returns true for RangeNotFound and
    RangeKeyMismatch errors and false for a LeaseRejected error; of the
    errors classed as retryable at the sender, exactly those two have a
    method [CanRetry] and report themselves retryable, while NotLeader,
    NodeUnavailable and WriteIntent errors have none and leave the flag of
    the wire error unset. *)
Theorem CanRetry_sender_errors :
  forall (sprintf : GoError -> string) (setValue : GoError -> bool),
  let reports := reports_retryable sprintf setValue in
  (forall id, CanRetry (RangeNotFoundError id) = Some true) /\
  (forall s e d, CanRetry (RangeKeyMismatchError s e d) = Some true) /\
  (forall r x, CanRetry (LeaseRejectedError r x) = Some false) /\
  (forall id, reports (RangeNotFoundError id) = true) /\
  (forall s e d, reports (RangeKeyMismatchError s e d) = true) /\
  (forall r x, reports (LeaseRejectedError r x) = false) /\
  (forall r l, CanRetry (NotLeaderError r l) = None /\
               reports (NotLeaderError r l) = false) /\
  (CanRetry NodeUnavailableError = None /\
   reports NodeUnavailableError = false) /\
  (forall i r, CanRetry (WriteIntentError i r) = None /\
               reports (WriteIntentError i r) = false).
Proof.
  intros sprintf setValue reports; subst reports.
  unfold reports_retryable, SetResponseGoError; simpl.
  repeat split; intros; try reflexivity;
    match goal with |- context [setValue ?e] => destruct (setValue e) end;
    reflexivity.
Qed.

(** *** Further properties of [SetResponseGoError] *)

(** The error types of the package other than the wire error itself. *)
Definition is_wire (err : GoError) : bool :=
  match err with WireError _ => true | _ => false end.

(** X1. Setting a wire error from another wire error copies the message,
    the retryable flag and the restart policy of that error, whatever the
    receiver held before. *)
Theorem SetResponseGoError_wire :
  forall (sprintf : GoError -> string) (setValue : GoError -> bool)
         (e e0 : Error),
    let r := SetResponseGoError sprintf setValue e (WireError e0) in
    Message r = Message e0 /\
    Retryable r = Retryable e0 /\
    TransactionRestart_ r = TransactionRestart_ e0 /\
    CanRetry (WireError r) = CanRetry (WireError e0) /\
    CanRestartTransaction (WireError r) = CanRestartTransaction (WireError e0).
Proof.
  intros sprintf setValue e e0; unfold SetResponseGoError; simpl.
  destruct (setValue (WireError e0)); simpl; repeat split; reflexivity.
Qed.

(** X2. [SetResponseGoError] never clears a flag: for an error whose type
    has no method [CanRetry] the retryable flag of the receiver stays as it
    was, and for one without [CanRestartTransaction] the restart policy
    stays as it was; the message is always replaced by the text of the
    error. *)
Theorem SetResponseGoError_keeps_flags :
  forall (sprintf : GoError -> string) (setValue : GoError -> bool)
         (e : Error) (err : GoError),
    let r := SetResponseGoError sprintf setValue e err in
    Message r = ErrorText sprintf err /\
    (CanRetry err = None -> Retryable r = Retryable e) /\
    (CanRestartTransaction err = None ->
     TransactionRestart_ r = TransactionRestart_ e).
Proof.
  intros sprintf setValue e err; unfold SetResponseGoError.
  destruct (CanRetry err), (CanRestartTransaction err), (setValue err);
    simpl; repeat split; intros; try reflexivity; discriminate.
Qed.

(** A receiver that was marked retryable keeps the mark when it is set
    from a NotLeader error. *)
Lemma SetResponseGoError_keeps_flags_witness :
  Retryable (SetResponseGoError (fun _ => EmptyString) (fun _ => true)
               (mkError "" true TransactionRestart_NONE false)
               (NotLeaderError replica0 replica0)) = true.
Proof.
  exact (proj1 (proj2 (SetResponseGoError_keeps_flags
           (fun _ => EmptyString) (fun _ => true)
           (mkError "" true TransactionRestart_NONE false)
           (NotLeaderError replica0 replica0))) eq_refl).
Defined.

(** X3. Apart from the wire error, no error of the package is both
    retryable and a cause of a transaction restart: an error that reports
    itself retryable leaves the restart policy of a fresh wire error unset,
    and an error that sets a restart policy is not reported retryable. *)
Theorem retry_and_restart_disjoint :
  forall (sprintf : GoError -> string) (setValue : GoError -> bool)
         (err : GoError),
    is_wire err = false ->
    (reports_retryable sprintf setValue err = true ->
     reports_restart sprintf setValue err = TransactionRestart_NONE) /\
    (reports_restart sprintf setValue err <> TransactionRestart_NONE ->
     reports_retryable sprintf setValue err = false).
Proof.
  intros sprintf setValue err Hw.
  unfold reports_retryable, reports_restart, SetResponseGoError.
  destruct err; try discriminate Hw; simpl; destruct (setValue _); simpl;
    split; intros H; try reflexivity; try discriminate H;
    try (exfalso; apply H; reflexivity).
Qed.

Lemma retry_and_restart_disjoint_witness :
  reports_restart (fun _ => EmptyString) (fun _ => true)
                  (RangeNotFoundError 7) = TransactionRestart_NONE.
Proof.
  exact (proj1 (retry_and_restart_disjoint (fun _ => EmptyString)
                  (fun _ => true) (RangeNotFoundError 7) eq_refl) eq_refl).
Defined.

End proto.

(** ** Package [kv]: the HTTP endpoint of the key/value database *)

Module kv.

(** Modelled from the spec: the enumeration [proto.Method] and its method
    [String] are generated code that is not part of the source tree. The
    twelve public methods are those named in [allPublicMethods]; the
    internal ones are those section 6 lists for the internal RPC. *)
Inductive Method :=
| Get | Put | ConditionalPut | Increment | Delete | DeleteRange | Scan
| ReverseScan | EndTransaction | Batch | AdminSplit | AdminMerge
| InternalBatch | InternalPush | InternalHeartbeat | ResolveIntent
| Merge | Split | ChangeReplicas | InternalRangeLookup | TruncateLog
| LeaderLease.

Definition Method_String (m : Method) : string :=
  match m with
  | Get => "Get" | Put => "Put" | ConditionalPut => "ConditionalPut"
  | Increment => "Increment" | Delete => "Delete"
  | DeleteRange => "DeleteRange" | Scan => "Scan"
  | ReverseScan => "ReverseScan" | EndTransaction => "EndTransaction"
  | Batch => "Batch" | AdminSplit => "AdminSplit"
  | AdminMerge => "AdminMerge" | InternalBatch => "InternalBatch"
  | InternalPush => "InternalPush" | InternalHeartbeat => "InternalHeartbeat"
  | ResolveIntent => "ResolveIntent" | Merge => "Merge" | Split => "Split"
  | ChangeReplicas => "ChangeReplicas"
  | InternalRangeLookup => "InternalRangeLookup"
  | TruncateLog => "TruncateLog" | LeaderLease => "LeaderLease"
  end.

Record RequestHeader := mkRequestHeader {
  hdr_User : string;
  hdr_Key : Key;
  hdr_EndKey : Key;
  hdr_Txn : option Transaction
}.

Definition zeroHeader : RequestHeader :=
  {| hdr_User := ""; hdr_Key := []; hdr_EndKey := []; hdr_Txn := None |}.

(** The commit trigger of an EndTransaction request, kept as its bytes. *)
Definition InternalCommitTrigger := list byte.

#[local] Unset Elimination Schemes.

(** The values of the interface [proto.Request]: one constructor per public
    request type, and one for the request types of the internal methods.
    Each element of [BatchRequest.Requests] is taken to hold a request, as
    the type assertion in [verifyRequest] presumes. *)
Inductive Request :=
| GetRequest (h : RequestHeader)
| PutRequest (h : RequestHeader)
| ConditionalPutRequest (h : RequestHeader)
| IncrementRequest (h : RequestHeader)
| DeleteRequest (h : RequestHeader)
| DeleteRangeRequest (h : RequestHeader)
| ScanRequest (h : RequestHeader)
| ReverseScanRequest (h : RequestHeader)
| EndTransactionRequest (h : RequestHeader) (Commit : bool)
                        (trigger : option InternalCommitTrigger)
| BatchRequest (h : RequestHeader) (Requests : list Request)
| AdminSplitRequest (h : RequestHeader)
| AdminMergeRequest (h : RequestHeader)
| InternalBatchRequest (h : RequestHeader)
| InternalPushRequest (h : RequestHeader)
| InternalHeartbeatRequest (h : RequestHeader)
| ResolveIntentRequest (h : RequestHeader)
| MergeRequest (h : RequestHeader)
| SplitRequest (h : RequestHeader)
| ChangeReplicasRequest (h : RequestHeader)
| InternalRangeLookupRequest (h : RequestHeader)
| TruncateLogRequest (h : RequestHeader)
| LeaderLeaseRequest (h : RequestHeader).

#[local] Set Elimination Schemes.

(** The method [Method] of each request type. *)
Definition Request_Method (r : Request) : Method :=
  match r with
  | GetRequest _ => Get | PutRequest _ => Put
  | ConditionalPutRequest _ => ConditionalPut
  | IncrementRequest _ => Increment | DeleteRequest _ => Delete
  | DeleteRangeRequest _ => DeleteRange | ScanRequest _ => Scan
  | ReverseScanRequest _ => ReverseScan
  | EndTransactionRequest _ _ _ => EndTransaction
  | BatchRequest _ _ => Batch | AdminSplitRequest _ => AdminSplit
  | AdminMergeRequest _ => AdminMerge
  | InternalBatchRequest _ => InternalBatch
  | InternalPushRequest _ => InternalPush
  | InternalHeartbeatRequest _ => InternalHeartbeat
  | ResolveIntentRequest _ => ResolveIntent | MergeRequest _ => Merge
  | SplitRequest _ => Split | ChangeReplicasRequest _ => ChangeReplicas
  | InternalRangeLookupRequest _ => InternalRangeLookup
  | TruncateLogRequest _ => TruncateLog | LeaderLeaseRequest _ => LeaderLease
  end.

(** A response, by the method it answers and its marshalled content. *)
Record Response := mkResponse { resp_Method : Method; resp_Body : list byte }.

(** The map literal [allPublicMethods], keyed by method name. *)
Definition allPublicMethods : list (string * Method) :=
  [ (Method_String Get, Get);
    (Method_String Put, Put);
    (Method_String ConditionalPut, ConditionalPut);
    (Method_String Increment, Increment);
    (Method_String Delete, Delete);
    (Method_String DeleteRange, DeleteRange);
    (Method_String Scan, Scan);
    (Method_String ReverseScan, ReverseScan);
    (Method_String EndTransaction, EndTransaction);
    (Method_String Batch, Batch);
    (Method_String AdminSplit, AdminSplit);
    (Method_String AdminMerge, AdminMerge) ].

(** Go's map index [m[key]] with the comma-ok result. *)
Fixpoint map_index {V : Type} (m : list (string * V)) (key : string)
    : option V :=
  match m with
  | [] => None
  | (k, v) :: rest => if String.eqb k key then Some v else map_index rest key
  end.

(** The errors of [verifyRequest]. *)
Inductive verifyError :=
| ErrCommitTrigger (t : InternalCommitTrigger)
| ErrNonPublic (name : string).

(** The loop of [verifyRequest] over the requests of a batch. *)
Fixpoint verifyBatch (reqs : list Request) : option verifyError :=
  match reqs with
  | [] => None
  | r :: rest =>
      let method := Request_Method r in
      match map_index allPublicMethods (Method_String method) with
      | None => Some (ErrNonPublic (Method_String method))
      | Some _ => verifyBatch rest
      end
  end.

(** [verifyRequest]: [None] is Go's nil error. *)
Definition verifyRequest (args : Request) : option verifyError :=
  match args with
  | EndTransactionRequest _ _ (Some t) => Some (ErrCommitTrigger t)
  | BatchRequest _ reqs => verifyBatch reqs
  | _ => None
  end.

(** [createArgsAndReply]: the zero request and response of a public
    method, [None] for any other name. *)
Definition createArgsAndReply (method : string) : option (Request * Response) :=
  match map_index allPublicMethods method with
  | Some m =>
      match m with
      | Get => Some (GetRequest zeroHeader, mkResponse Get [])
      | Put => Some (PutRequest zeroHeader, mkResponse Put [])
      | ConditionalPut =>
          Some (ConditionalPutRequest zeroHeader, mkResponse ConditionalPut [])
      | Increment => Some (IncrementRequest zeroHeader, mkResponse Increment [])
      | Delete => Some (DeleteRequest zeroHeader, mkResponse Delete [])
      | DeleteRange =>
          Some (DeleteRangeRequest zeroHeader, mkResponse DeleteRange [])
      | Scan => Some (ScanRequest zeroHeader, mkResponse Scan [])
      | ReverseScan =>
          Some (ReverseScanRequest zeroHeader, mkResponse ReverseScan [])
      | EndTransaction =>
          Some (EndTransactionRequest zeroHeader false None,
                mkResponse EndTransaction [])
      | Batch => Some (BatchRequest zeroHeader [], mkResponse Batch [])
      | AdminSplit =>
          Some (AdminSplitRequest zeroHeader, mkResponse AdminSplit [])
      | AdminMerge =>
          Some (AdminMergeRequest zeroHeader, mkResponse AdminMerge [])
      | _ => None
      end
  | None => None
  end.

(** [strings.HasPrefix] and [strings.TrimPrefix]. *)
Fixpoint HasPrefix (s prefix : string) {struct prefix} : bool :=
  match prefix, s with
  | EmptyString, _ => true
  | String a p, String b t => Ascii.eqb a b && HasPrefix t p
  | String _ _, EmptyString => false
  end.

Fixpoint dropString (n : nat) (s : string) : string :=
  match n, s with
  | O, _ => s
  | S k, String _ t => dropString k t
  | S _, EmptyString => EmptyString
  end.

Definition TrimPrefix (s prefix : string) : string :=
  if HasPrefix s prefix then dropString (String.length prefix) s else s.

(** The status codes of [net/http] that the server uses. *)
Definition StatusOK : Z := 200.
Definition StatusBadRequest : Z := 400.
Definition StatusUnauthorized : Z := 401.
Definition StatusNotFound : Z := 404.
Definition StatusInternalServerError : Z := 500.

Inductive Body := Text (s : string) | Raw (b : list byte).

(** What the server wrote to the [http.ResponseWriter]. *)
Record Written := mkWritten {
  StatusCode : Z;
  ContentType : string;
  body : Body
}.

(** [http.Error]. *)
Definition http_Error (msg : string) (code : Z) : Written :=
  {| StatusCode := code; ContentType := "text/plain; charset=utf-8";
     body := Text msg |}.

(** [http.StatusText] on the one code it is called with. *)
Definition StatusText_NotFound : string := "Not Found".

Section DBServer.

(** The connection state of a request and the collaborators of the server,
    which live in packages outside the source tree: the security hook, the
    codecs of package [util], the endpoint prefix [client.KVDBEndpoint] and
    the sender. An error is known by its text. *)
Variable TLSState : Type.

Record HttpRequest := mkHttpRequest {
  URL_Path : string;
  TLS : option TLSState;
  ReadAll_Body : list byte + string;
  ContentTypeHeader : string;
  AcceptHeader : string
}.

Record DBServer := mkDBServer {
  Insecure : bool;
  AuthenticationHook :
    bool -> option TLSState -> (Request -> option string) + string;
  DBPrefix : string;
  UnmarshalRequest : HttpRequest -> list byte -> Request -> Request + string;
  Send : Request -> Response -> Response;
  MarshalResponse : HttpRequest -> Response -> (list byte * string) + string
}.

(** A call handed to the sender. *)
Record Call := mkCall { Args : Request; Reply : Response }.

(** The result of serving one request: what was written, and the calls
    that were sent. *)
Record Served := mkServed { written : Written; sent : list Call }.

Definition verifyError_text (e : verifyError) : string :=
  match e with
  | ErrCommitTrigger _ =>
      "EndTransaction request from public KV API contains commit trigger"
  | ErrNonPublic name => "Batch contains a non-public request " ++ name
  end.

(** [DBServer.ServeHTTP]. *)
Definition ServeHTTP (s : DBServer) (r : HttpRequest) : Served :=
  match AuthenticationHook s (Insecure s) (TLS r) with
  | inr err => mkServed (http_Error err StatusUnauthorized) []
  | inl authenticationHook =>
      let method := URL_Path r in
      if negb (HasPrefix method (DBPrefix s))
      then mkServed (http_Error StatusText_NotFound StatusNotFound) []
      else
        let method := TrimPrefix method (DBPrefix s) in
        match createArgsAndReply method with
        | None => mkServed (http_Error StatusText_NotFound StatusNotFound) []
        | Some (args, reply) =>
            match ReadAll_Body r with
            | inr err => mkServed (http_Error err StatusInternalServerError) []
            | inl reqBody =>
                match UnmarshalRequest s r reqBody args with
                | inr err => mkServed (http_Error err StatusBadRequest) []
                | inl args =>
                    match verifyRequest args with
                    | Some err =>
                        mkServed (http_Error (verifyError_text err)
                                             StatusBadRequest) []
                    | None =>
                        match authenticationHook args with
                        | Some err =>
                            mkServed (http_Error err StatusUnauthorized) []
                        | None =>
                            let reply := Send s args reply in
                            let call := mkCall args reply in
                            match MarshalResponse s r reply with
                            | inr err =>
                                mkServed
                                  (http_Error err StatusInternalServerError)
                                  [call]
                            | inl (body, contentType) =>
                                mkServed
                                  (mkWritten StatusOK contentType (Raw body))
                                  [call]
                            end
                        end
                    end
                end
            end
        end
  end.

End DBServer.

Arguments ServeHTTP {TLSState} s r.
Arguments mkHttpRequest {TLSState}.
Arguments mkDBServer {TLSState}.
Arguments URL_Path {TLSState}.
Arguments TLS {TLSState}.
Arguments ReadAll_Body {TLSState}.
Arguments Insecure {TLSState}.
Arguments AuthenticationHook {TLSState}.
Arguments DBPrefix {TLSState}.
Arguments UnmarshalRequest {TLSState}.
Arguments Send {TLSState}.
Arguments MarshalResponse {TLSState}.

(** The twelve public methods, in the order of [allPublicMethods]. *)
Definition publicMethods : list Method :=
  [Get; Put; ConditionalPut; Increment; Delete; DeleteRange; Scan;
   ReverseScan; EndTransaction; Batch; AdminSplit; AdminMerge].


(** *** Properties *)

Lemma append_String (a : ascii) (p t : string) :
  (String a p ++ t)%string = String a (p ++ t).
Proof. reflexivity. Qed.

Lemma append_Empty (t : string) : (EmptyString ++ t)%string = t.
Proof. reflexivity. Qed.

Lemma HasPrefix_app (p t : string) : HasPrefix (p ++ t) p = true.
Proof.
  induction p as [|a p IH]; [reflexivity|].
  rewrite append_String; simpl.
  rewrite Ascii.eqb_refl; exact IH.
Qed.

Lemma dropString_app (p t : string) : dropString (String.length p) (p ++ t) = t.
Proof.
  induction p as [|a p IH].
  - rewrite append_Empty; destruct t; reflexivity.
  - rewrite append_String; simpl; exact IH.
Qed.

Lemma TrimPrefix_app (p t : string) : TrimPrefix (p ++ t) p = t.
Proof. unfold TrimPrefix; rewrite HasPrefix_app; apply dropString_app. Qed.


Lemma map_index_public (m : Method) :
  map_index allPublicMethods (Method_String m) =
    if in_dec (fun a b : Method => ltac:(decide equality) : {a = b} + {a <> b})
              m publicMethods
    then Some m else None.
Proof. destruct m; reflexivity. Qed.

Lemma map_index_public_In (m : Method) :
  In m publicMethods -> map_index allPublicMethods (Method_String m) = Some m.
Proof.
  intros H; rewrite map_index_public.
  destruct (in_dec _ m publicMethods); [reflexivity | contradiction].
Qed.

Lemma map_index_public_notin (m : Method) :
  ~ In m publicMethods -> map_index allPublicMethods (Method_String m) = None.
Proof.
  intros H; rewrite map_index_public.
  destruct (in_dec _ m publicMethods); [contradiction | reflexivity].
Qed.

Lemma map_index_Some_name (name : string) (m : Method) :
  map_index allPublicMethods name = Some m ->
  In m publicMethods /\ name = Method_String m.
Proof.
  cbv [allPublicMethods map_index Method_String].
  repeat match goal with
  | |- context [String.eqb ?a name] =>
      destruct (String.eqb_spec a name) as [<-|_]
  end; intros H; inversion H; subst; cbv [publicMethods In]; auto 20.
Qed.

Lemma createArgsAndReply_public (m : Method) :
  In m publicMethods ->
  exists args reply,
    createArgsAndReply (Method_String m) = Some (args, reply) /\
    Request_Method args = m /\ verifyRequest args = None.
Proof.
  intros H; unfold createArgsAndReply; rewrite (map_index_public_In m H).
  simpl in H.
  repeat (destruct H as [<-|H]; [do 2 eexists; repeat split|]);
    contradiction.
Qed.


(** Up to request verification: when the connection is authenticated, the
    path names a public method, the body is read and unmarshalled into
    [args], the answer is decided by [verifyRequest], the user check, the
    sender and the response codec. *)
Lemma ServeHTTP_unmarshalled {TLSState : Type}
    (s : DBServer TLSState) (r : HttpRequest TLSState)
    (hook : Request -> option string) (m : Method)
    (args0 args : Request) (reply0 : Response) (reqBody : list byte) :
  AuthenticationHook s (Insecure s) (TLS r) = inl hook ->
  URL_Path r = (DBPrefix s ++ Method_String m)%string ->
  createArgsAndReply (Method_String m) = Some (args0, reply0) ->
  ReadAll_Body r = inl reqBody ->
  UnmarshalRequest s r reqBody args0 = inl args ->
  ServeHTTP s r =
    match verifyRequest args with
    | Some err =>
        mkServed (http_Error (verifyError_text err) StatusBadRequest) []
    | None =>
        match hook args with
        | Some err => mkServed (http_Error err StatusUnauthorized) []
        | None =>
            let reply := Send s args reply0 in
            match MarshalResponse s r reply with
            | inr err =>
                mkServed (http_Error err StatusInternalServerError)
                         [mkCall args reply]
            | inl (body, contentType) =>
                mkServed (mkWritten StatusOK contentType (Raw body))
                         [mkCall args reply]
            end
        end
    end.
Proof.
  intros Hauth Hpath Hcreate Hread Hunm.
  unfold ServeHTTP.
  rewrite Hauth, Hpath, HasPrefix_app, TrimPrefix_app; simpl negb; cbv iota.
  rewrite Hcreate, Hread, Hunm.
  reflexivity.
Qed.


(** A server whose connection check passes, whose codec reads the body as
    a batch holding one internal request, and whose user check passes. *)
Definition sample_server : DBServer unit :=
  mkDBServer true
    (fun insecure _ =>
       if insecure then inl (fun _ => None) else inr "no certificate"%string)
    "/kv/db/"%string
    (fun _ body args =>
       match args with
       | BatchRequest h _ =>
           inl (BatchRequest h [GetRequest zeroHeader;
                                InternalPushRequest zeroHeader])
       | EndTransactionRequest h c _ =>
           inl (EndTransactionRequest h c (Some body))
       | _ => inl args
       end)
    (fun _ reply => reply)
    (fun _ reply => inl (resp_Body reply, "application/json"%string)).


Definition sample_request (path : string) : HttpRequest unit :=
  mkHttpRequest path None (inl []) "application/json"%string
                "application/json"%string.


(** Membership of the twelve public methods, as the claim words it, agrees
    with the lookup by name that the code performs. *)
Lemma verifyBatch_non_public (reqs : list Request) (r : Request) :
  In r reqs -> ~ In (Request_Method r) publicMethods ->
  verifyBatch reqs <> None.
Proof.
  induction reqs as [|q reqs IH]; intros Hin Hnp; [contradiction|].
  cbn [verifyBatch].
  destruct (map_index allPublicMethods (Method_String (Request_Method q)))
    eqn:E; [|intros Habs; discriminate Habs].
  destruct Hin as [->|Hin]; [|exact (IH Hin Hnp)].
  rewrite (map_index_public_notin _ Hnp) in E; discriminate.
Qed.

(** C8. [verifyRequest] returns an error for every batch that holds a
    request whose method is not among the twelve public ones and for every
    EndTransaction request that carries a commit trigger; when such a
    request is what the body of an authenticated call to a public method
    unmarshals to, the server answers 400 and sends nothing. *)
Theorem verifyRequest_rejects_internal :
  forall (args : Request),
    ((exists h reqs r,
         args = BatchRequest h reqs /\ In r reqs /\
         ~ In (Request_Method r) publicMethods) \/
     (exists h c t, args = EndTransactionRequest h c (Some t))) ->
    verifyRequest args <> None /\
    forall (TLSState : Type) (s : DBServer TLSState) (r : HttpRequest TLSState)
           (hook : Request -> option string) (m : Method)
           (args0 : Request) (reply0 : Response) (reqBody : list byte),
      AuthenticationHook s (Insecure s) (TLS r) = inl hook ->
      URL_Path r = (DBPrefix s ++ Method_String m)%string ->
      createArgsAndReply (Method_String m) = Some (args0, reply0) ->
      ReadAll_Body r = inl reqBody ->
      UnmarshalRequest s r reqBody args0 = inl args ->
      StatusCode (written (ServeHTTP s r)) = 400 /\ sent (ServeHTTP s r) = [].
Proof.
  intros args Hargs.
  assert (Hv : verifyRequest args <> None).
  { destruct Hargs as [(h & reqs & r & -> & Hin & Hnp) | (h & c & t & ->)].
    - simpl; exact (verifyBatch_non_public reqs r Hin Hnp).
    - simpl; intros Habs; discriminate Habs. }
  split; [exact Hv|].
  intros TLSState s r hook m args0 reply0 reqBody Hauth Hpath Hc Hread Hunm.
  rewrite (ServeHTTP_unmarshalled s r hook m args0 args reply0 reqBody
             Hauth Hpath Hc Hread Hunm).
  destruct (verifyRequest args); [split; reflexivity | congruence].
Qed.

Definition sample_batch : Request :=
  BatchRequest zeroHeader [GetRequest zeroHeader;
                           InternalPushRequest zeroHeader].

Lemma verifyRequest_rejects_internal_witness :
  verifyRequest sample_batch <> None /\
  StatusCode (written (ServeHTTP sample_server
                                 (sample_request "/kv/db/Batch"))) = 400 /\
  sent (ServeHTTP sample_server (sample_request "/kv/db/Batch")) = [].
Proof.
  assert (H : (exists h reqs r,
                  sample_batch = BatchRequest h reqs /\ In r reqs /\
                  ~ In (Request_Method r) publicMethods) \/
              (exists h c t,
                  sample_batch = EndTransactionRequest h c (Some t))).
  { left; exists zeroHeader,
      [GetRequest zeroHeader; InternalPushRequest zeroHeader],
      (InternalPushRequest zeroHeader).
    split; [reflexivity|]; split; [right; left; reflexivity|].
    simpl; intros Hin;
      repeat (destruct Hin as [Hin|Hin]; [discriminate Hin|]); exact Hin. }
  split.
  - exact (proj1 (verifyRequest_rejects_internal sample_batch H)).
  - exact (proj2 (verifyRequest_rejects_internal sample_batch H)
             unit sample_server (sample_request "/kv/db/Batch")
             (fun _ => None) Batch (BatchRequest zeroHeader [])
             (mkResponse Batch []) [] eq_refl eq_refl eq_refl eq_refl eq_refl).
Defined.

(** *** The RPC endpoint *)

(** The requests that [RegisterRPC] registers, in its order. *)
Definition rpcRequests : list Request :=
  [ GetRequest zeroHeader; PutRequest zeroHeader;
    ConditionalPutRequest zeroHeader; IncrementRequest zeroHeader;
    DeleteRequest zeroHeader; DeleteRangeRequest zeroHeader;
    ScanRequest zeroHeader; ReverseScanRequest zeroHeader;
    EndTransactionRequest zeroHeader false None;
    BatchRequest zeroHeader [];
    AdminSplitRequest zeroHeader; AdminMergeRequest zeroHeader ].

Definition rpcName (r : Request) : string :=
  ("Server." ++ Method_String (Request_Method r))%string.

Section RegisterRPC.

(** The RPC server, which lives outside the source tree: its state, and
    [Register], which returns the state after and Go's error. *)
Variable Server : Type.
Variable Register : Server -> string -> Request -> Server * option string.

(** The loop of [RegisterRPC]: the server after, the names registered with
    success, and the error returned. *)
Fixpoint registerLoop (srv : Server) (requests : list Request)
    : Server * list string * option string :=
  match requests with
  | [] => (srv, [], None)
  | r :: rest =>
      match Register srv (rpcName r) r with
      | (srv', Some err) => (srv', [], Some err)
      | (srv', None) =>
          let '(srv'', names, err) := registerLoop srv' rest in
          (srv'', rpcName r :: names, err)
      end
  end.

(** [DBServer.RegisterRPC]. *)
Definition RegisterRPC (srv : Server) : Server * list string * option string :=
  registerLoop srv rpcRequests.

End RegisterRPC.

Arguments registerLoop {Server}.
Arguments RegisterRPC {Server}.

(** [DBServer.executeCmd]: the reply of the request type is created by
    [CreateReply], which is declared with the request types; the call goes
    to the sender as it is. The result is the reply, Go's error and the
    calls sent. *)
Definition executeCmd {TLSState : Type} (s : DBServer TLSState)
    (CreateReply : Request -> Response) (args : Request)
    : Response * option string * list (Call) :=
  let reply := CreateReply args in
  let reply := Send s args reply in
  (reply, None, [mkCall args reply]).

Lemma registerLoop_prefix {Server : Type}
    (Register : Server -> string -> Request -> Server * option string)
    (requests : list Request) (srv : Server) :
  let '(_, names, err) := registerLoop Register srv requests in
  names = firstn (length names) (map rpcName requests) /\
  (err = None <-> names = map rpcName requests).
Proof.
  revert srv; induction requests as [|r rest IH]; intros srv; simpl.
  - split; [reflexivity | split; reflexivity].
  - destruct (Register srv (rpcName r) r) as [srv' [e|]].
    + split; [reflexivity|]; split; intros H; discriminate H.
    + specialize (IH srv').
      destruct (registerLoop Register srv' rest) as [[srv'' names] err].
      destruct IH as [Hpre Hiff]; split.
      * simpl; f_equal; exact Hpre.
      * rewrite Hiff; split; [intros ->; reflexivity|].
        intros H; inversion H; reflexivity.
Qed.

(** X4. [createArgsAndReply] answers a name with the request and reply of
    the public method of that name, and the request it creates passes
    [verifyRequest]; it answers with nothing every name that is not the
    name of one of the twelve public methods, the name of every internal
    method among them. *)
Theorem createArgsAndReply_method :
  forall name : string,
    match createArgsAndReply name with
    | Some (args, reply) =>
        In (Request_Method args) publicMethods /\
        Method_String (Request_Method args) = name /\
        resp_Method reply = Request_Method args /\
        verifyRequest args = None
    | None =>
        (forall m, In m publicMethods -> Method_String m <> name) /\
        (forall m, ~ In m publicMethods ->
                   createArgsAndReply (Method_String m) = None)
    end.
Proof.
  intros name; unfold createArgsAndReply.
  destruct (map_index allPublicMethods name) as [m|] eqn:E.
  - apply map_index_Some_name in E as [Hin Hname].
    simpl in Hin.
    repeat (destruct Hin as [<-|Hin];
            [simpl; repeat split; solve [auto 20 | symmetry; exact Hname]|]).
    contradiction.
  - split.
    + intros m Hin Hname; subst name.
      rewrite (map_index_public_In m Hin) in E; discriminate E.
    + intros m Hnot; rewrite (map_index_public_notin m Hnot); reflexivity.
Qed.

(** No request is created for the name of an internal method. *)
Lemma createArgsAndReply_method_witness :
  createArgsAndReply (Method_String InternalPush) = None.
Proof.
  refine (proj2 (createArgsAndReply_method "NoSuchMethod") InternalPush _).
  simpl; intros H; repeat (destruct H as [H | H]; [discriminate H |]);
    exact H.
Defined.

Lemma verifyBatch_accepts (reqs : list Request) :
  verifyBatch reqs = None <->
  Forall (fun r => In (Request_Method r) publicMethods) reqs.
Proof.
  induction reqs as [|r reqs IH]; cbn [verifyBatch].
  - split; [constructor | reflexivity].
  - rewrite map_index_public.
    destruct (in_dec _ (Request_Method r) publicMethods) as [Hin|Hnot].
    + rewrite IH; split; [intros H; constructor; assumption|].
      intros H; inversion H; assumption.
    + split; [intros H; discriminate H|].
      intros H; inversion H; contradiction.
Qed.

Lemma verifyBatch_first (reqs : list Request) (err : verifyError) :
  verifyBatch reqs = Some err ->
  exists pre r post,
    reqs = pre ++ r :: post /\
    Forall (fun q => In (Request_Method q) publicMethods) pre /\
    ~ In (Request_Method r) publicMethods /\
    err = ErrNonPublic (Method_String (Request_Method r)).
Proof.
  induction reqs as [|r reqs IH]; cbn [verifyBatch]; [discriminate|].
  rewrite map_index_public.
  destruct (in_dec _ (Request_Method r) publicMethods) as [Hin|Hnot].
  - intros H; destruct (IH H) as (pre & q & post & -> & Hpre & Hq & ->).
    exists (r :: pre), q, post; repeat split; auto.
  - intros H; inversion H; subst err.
    exists [], r, reqs; repeat split; auto.
Qed.

(** X5. [verifyRequest] accepts a request exactly when it is not an
    EndTransaction request with a commit trigger and, if it is a batch,
    every request the batch holds has a public method; the error for a
    batch names the first request, in order, whose method is not public.
    The requests of a batch held by a batch are not looked at. *)
Theorem verifyRequest_accepts :
  forall args : Request,
    (verifyRequest args = None <->
     (forall h c t, args <> EndTransactionRequest h c (Some t)) /\
     (forall h reqs, args = BatchRequest h reqs ->
        Forall (fun r => In (Request_Method r) publicMethods) reqs)) /\
    (forall h reqs err,
        args = BatchRequest h reqs -> verifyRequest args = Some err ->
        exists pre r post,
          reqs = pre ++ r :: post /\
          Forall (fun q => In (Request_Method q) publicMethods) pre /\
          ~ In (Request_Method r) publicMethods /\
          err = ErrNonPublic (Method_String (Request_Method r))) /\
    (forall h h' inner,
        verifyRequest (BatchRequest h [BatchRequest h' inner]) = None).
Proof.
  intros args; split; [|split].
  - destruct args as [| | | | | | | |h c [t|]|h reqs| | | | | | | | | | | |];
      cbn [verifyRequest];
      try (split; [intros _; split; intros; discriminate | reflexivity]).
    + split; [intros H; discriminate H|].
      intros [H _]; exfalso; exact (H h c t eq_refl).
    + rewrite verifyBatch_accepts; split.
      * intros H; split; [intros; discriminate|].
        intros h0 reqs0 Heq; inversion Heq; subst; exact H.
      * intros [_ H]; exact (H h reqs eq_refl).
  - intros h reqs err -> H; exact (verifyBatch_first reqs err H).
  - intros h h' inner; reflexivity.
Qed.

(** A batch of a Get and a Put is accepted. *)
Lemma verifyRequest_accepts_witness :
  verifyRequest (BatchRequest zeroHeader
                   [GetRequest zeroHeader; PutRequest zeroHeader]) = None.
Proof.
  refine (proj2 (proj1 (verifyRequest_accepts
            (BatchRequest zeroHeader
               [GetRequest zeroHeader; PutRequest zeroHeader]))) _).
  split.
  - intros h c t H; discriminate H.
  - intros h reqs H; injection H as _ <-.
    constructor; [simpl; tauto |].
    constructor; [simpl; tauto | constructor].
Defined.

(** X6. [RegisterRPC] registers the names [Server.<Method>] of the twelve
    public methods of the HTTP endpoint, in the order of that table, and
    stops at the first error: the names registered are a prefix of the
    twelve, and they are all twelve exactly when no error is returned. *)
Theorem RegisterRPC_names :
  forall (Server : Type)
         (Register : Server -> string -> Request -> Server * option string)
         (srv : Server),
    let '(_, names, err) := RegisterRPC Register srv in
    let all := map (fun m => ("Server." ++ Method_String m)%string)
                   (map snd allPublicMethods) in
    names = firstn (length names) all /\
    (err = None <-> names = all) /\
    map Request_Method rpcRequests = publicMethods /\
    Forall (fun r => createArgsAndReply (Method_String (Request_Method r))
                       = Some (r, mkResponse (Request_Method r) []))
           rpcRequests.
Proof.
  intros Server Register srv; unfold RegisterRPC.
  pose proof (registerLoop_prefix Register rpcRequests srv) as H.
  destruct (registerLoop Register srv rpcRequests) as [[srv' names] err].
  destruct H as [Hpre Hiff].
  change (map rpcName rpcRequests)
    with (map (fun m => ("Server." ++ Method_String m)%string)
              (map snd allPublicMethods)) in *.
  split; [exact Hpre|]; split; [exact Hiff|]; split; [reflexivity|].
  repeat constructor.
Qed.

End kv.

(** ** Package [sql/parser]: encoding of SQL string literals *)

Module parser.

Local Open Scope nat_scope.

Definition dontEscape : byte := xff.

(** The bytes that the encoder writes itself. *)
Definition char_e : byte := x65.
Definition char_quote : byte := x27.
Definition char_backslash : byte := x5c.

(** The map literal [encodeRef] of [init]. *)
Definition encodeRef : list (byte * byte) :=
  [ (x00, x30);   (* NUL             -> 0 *)
    (x08, x62);   (* backspace       -> b *)
    (x0c, x66);   (* form feed       -> f *)
    (x0a, x6e);   (* newline         -> n *)
    (x0d, x72);   (* carriage return -> r *)
    (x09, x74);   (* tab             -> t *)
    (x5c, x5c);   (* backslash       -> backslash *)
    (x27, x27) ]. (* single quote    -> single quote *)

Fixpoint encodeRef_index (m : list (byte * byte)) (k : byte) : option byte :=
  match m with
  | [] => None
  | (k', v) :: rest => if Byte.eqb k' k then Some v else encodeRef_index rest k
  end.

(** Writing one cell of a 256-cell array. *)
Fixpoint array_set (a : list byte) (i : nat) (v : byte) : list byte :=
  match a, i with
  | [], _ => []
  | _ :: t, O => v :: t
  | h :: t, S j => h :: array_set t j v
  end.

Definition array_get (a : list byte) (i : nat) : byte := nth i a x00.

(** The byte [byte(i)] of an index below 256. *)
Definition byte_of_index (i : nat) : byte :=
  match Byte.of_nat i with Some b => b | None => x00 end.

(** [init]: both arrays are first filled with [dontEscape]; then every
    index that [encodeRef] maps gets its entry, and the reverse entry is
    written to [decodeMap]. *)
Definition init_maps : list byte * list byte :=
  let filled := repeat dontEscape 256 in
  fold_left
    (fun (maps : list byte * list byte) (i : nat) =>
       match encodeRef_index encodeRef (byte_of_index i) with
       | Some to =>
           (array_set (fst maps) (Byte.to_nat (byte_of_index i)) to,
            array_set (snd maps) (Byte.to_nat to) (byte_of_index i))
       | None => maps
       end)
    (seq 0 256) (filled, filled).

Definition encodeMap : list byte := Eval vm_compute in fst init_maps.
Definition decodeMap : list byte := Eval vm_compute in snd init_maps.

(** The slice [s[lo:hi]]. *)
Definition slice (s : list byte) (lo hi : nat) : list byte :=
  firstn (hi - lo) (skipn lo s).

(** The loop of [encodeSQLString] from index [i] on, [rest] being [in[i:]];
    the state is the buffer and [start]. *)
Fixpoint encodeLoop (in_ rest : list byte) (i : nat)
    (buf : list byte) (start : nat) : list byte * nat :=
  match rest with
  | [] => (buf, start)
  | ch :: rest' =>
      let encodedChar := array_get encodeMap (Byte.to_nat ch) in
      if negb (Byte.eqb encodedChar dontEscape) then
        let buf := if Nat.eqb start 0 then buf ++ [char_e; char_quote]
                   else buf in
        let buf := buf ++ slice in_ start i in
        let buf := buf ++ [char_backslash; encodedChar] in
        encodeLoop in_ rest' (S i) buf (S i)
      else encodeLoop in_ rest' (S i) buf start
  end.

(** What follows the loop. *)
Definition encodeFinish (in_ : list byte) (st : list byte * nat) : list byte :=
  let (buf, start) := st in
  let buf := if Nat.eqb start 0 then buf ++ [char_quote] else buf in
  let buf := buf ++ skipn start in_ in
  buf ++ [char_quote].

Definition encodeSQLString (buf in_ : list byte) : list byte :=
  encodeFinish in_ (encodeLoop in_ in_ 0 buf 0).

(** The statement of the encoding, byte by byte: the eight bytes that are
    escaped and the character each is written as. *)
Definition escapeChar (ch : byte) : option byte :=
  match ch with
  | x00 => Some x30
  | x08 => Some x62
  | x0c => Some x66
  | x0a => Some x6e
  | x0d => Some x72
  | x09 => Some x74
  | x5c => Some x5c
  | x27 => Some x27
  | _ => None
  end.

Definition isEscaped (ch : byte) : bool :=
  match escapeChar ch with Some _ => true | None => false end.

Definition escapeByte (ch : byte) : list byte :=
  match escapeChar ch with
  | Some c => [char_backslash; c]
  | None => [ch]
  end.

Definition literal (in_ : list byte) : list byte :=
  (if existsb isEscaped in_ then [char_e; char_quote] else [char_quote])
    ++ flat_map escapeByte in_ ++ [char_quote].

(** *** Properties *)

Lemma encodeMap_escapeChar (ch : byte) :
  array_get encodeMap (Byte.to_nat ch) =
    match escapeChar ch with Some c => c | None => dontEscape end.
Proof. destruct ch; reflexivity. Qed.

Lemma escapeChar_not_dontEscape (ch c : byte) :
  escapeChar ch = Some c -> Byte.eqb c dontEscape = false.
Proof. destruct ch; simpl; intros H; inversion H; reflexivity. Qed.

Lemma encodeMap_test (ch : byte) :
  negb (Byte.eqb (array_get encodeMap (Byte.to_nat ch)) dontEscape)
    = isEscaped ch.
Proof.
  rewrite encodeMap_escapeChar; unfold isEscaped.
  destruct (escapeChar ch) as [c|] eqn:E; [|reflexivity].
  rewrite (escapeChar_not_dontEscape ch c E); reflexivity.
Qed.

Lemma skipn_app_le (pre rest : list byte) (n : nat) :
  n <= length pre -> skipn n (pre ++ rest) = skipn n pre ++ rest.
Proof.
  revert n; induction pre as [|a pre IH]; intros [|n] H; simpl in *;
    try reflexivity; try lia.
  apply IH; lia.
Qed.

Lemma slice_prefix (pre rest : list byte) (start : nat) :
  start <= length pre ->
  slice (pre ++ rest) start (length pre) = skipn start pre.
Proof.
  intros H; unfold slice; rewrite skipn_app_le by exact H.
  rewrite firstn_app.
  replace (length pre - start - length (skipn start pre)) with 0
    by (rewrite length_skipn; lia).
  rewrite firstn_all2 by (rewrite length_skipn; lia).
  simpl; apply app_nil_r.
Qed.

Lemma escapeByte_escaped (ch : byte) :
  isEscaped ch = true ->
  escapeByte ch = [char_backslash; array_get encodeMap (Byte.to_nat ch)].
Proof.
  rewrite encodeMap_escapeChar; unfold isEscaped, escapeByte.
  destruct (escapeChar ch); [reflexivity | discriminate].
Qed.

Lemma escapeByte_plain (ch : byte) : isEscaped ch = false -> escapeByte ch = [ch].
Proof.
  unfold isEscaped, escapeByte.
  destruct (escapeChar ch); [discriminate | reflexivity].
Qed.

(** The state of the loop after the bytes [pre], with [rest] to come. *)
Lemma encodeLoop_spec (rest pre buf : list byte) (start : nat) :
  start <= length pre ->
  encodeFinish (pre ++ rest)
      (encodeLoop (pre ++ rest) rest (length pre) buf start) =
    buf
    ++ (if Nat.eqb start 0
        then if existsb isEscaped rest then [char_e; char_quote]
             else [char_quote]
        else [])
    ++ skipn start pre ++ flat_map escapeByte rest ++ [char_quote].
Proof.
  revert pre buf start; induction rest as [|ch rest IH];
    intros pre buf start Hle.
  - simpl; rewrite !app_nil_r.
    destruct (Nat.eqb start 0); simpl; rewrite <- ?app_assoc; reflexivity.
  - cbn [encodeLoop]; rewrite encodeMap_test.
    assert (Hin : pre ++ ch :: rest = (pre ++ [ch]) ++ rest)
      by (rewrite <- app_assoc; reflexivity).
    assert (Hlen : S (length pre) = length (pre ++ [ch]))
      by (rewrite length_app; simpl; lia).
    cbn [existsb flat_map].
    destruct (isEscaped ch) eqn:Hesc; cbn [negb orb].
    + rewrite (escapeByte_escaped ch Hesc).
      rewrite slice_prefix by exact Hle.
      rewrite Hin, Hlen, IH by lia.
      rewrite <- Hlen at 1.
      cbn [Nat.eqb]; rewrite skipn_all.
      destruct (Nat.eqb start 0); simpl; rewrite <- ?app_assoc; reflexivity.
    + rewrite (escapeByte_plain ch Hesc).
      rewrite Hin, Hlen, IH by (rewrite <- Hlen; lia).
      rewrite skipn_app_le by exact Hle.
      destruct (Nat.eqb start 0); simpl; rewrite <- ?app_assoc; reflexivity.
Qed.

Lemma flat_map_unescaped (in_ : list byte) :
  existsb isEscaped in_ = false -> flat_map escapeByte in_ = in_.
Proof.
  induction in_ as [|ch in_ IH]; simpl; [reflexivity|].
  intros H; apply orb_false_iff in H as [Hch Hrest].
  rewrite (IH Hrest), (escapeByte_plain ch Hch); reflexivity.
Qed.

(** C9. The encoder escapes exactly the eight bytes NUL, backspace, form
    feed, newline, carriage return, tab, backslash and single quote, each as
    a backslash followed by its mapped character; the literal it appends
    starts with e-quote exactly when some byte of the input is escaped, and
    is otherwise the input between two quotes. *)
Theorem encodeSQLString_literal :
  forall (buf in_ : list byte),
    (forall ch : byte,
        negb (Byte.eqb (array_get encodeMap (Byte.to_nat ch)) dontEscape)
          = existsb (Byte.eqb ch) [x00; x08; x0c; x0a; x0d; x09; x5c; x27]) /\
    (forall ch : byte,
        array_get encodeMap (Byte.to_nat ch) =
          match escapeChar ch with Some c => c | None => dontEscape end) /\
    encodeSQLString buf in_ = buf ++ literal in_ /\
    (if existsb isEscaped in_
     then exists body,
         encodeSQLString buf in_ =
           buf ++ [char_e; char_quote] ++ body ++ [char_quote]
     else encodeSQLString buf in_ = buf ++ [char_quote] ++ in_ ++ [char_quote]).
Proof.
  intros buf in_.
  assert (Hmain : encodeSQLString buf in_ = buf ++ literal in_).
  { pose proof (encodeLoop_spec in_ [] buf 0 (Nat.le_refl 0)) as H.
    cbn [app length skipn Nat.eqb] in H.
    unfold encodeSQLString, literal; exact H. }
  split; [intros ch; rewrite encodeMap_test; destruct ch; reflexivity|].
  split; [exact encodeMap_escapeChar|].
  split; [exact Hmain|].
  rewrite Hmain; unfold literal.
  destruct (existsb isEscaped in_) eqn:E.
  - exists (flat_map escapeByte in_); reflexivity.
  - rewrite (flat_map_unescaped in_ E); reflexivity.
Qed.

(** The literal of [a'b]: one quote to escape. *)
Example encodeSQLString_quote :
  encodeSQLString [] [x61; x27; x62]
    = [x65; x27; x61; x5c; x27; x62; x27].
Proof. reflexivity. Qed.

Example encodeSQLString_plain :
  encodeSQLString [] [x61; x62] = [x27; x61; x62; x27].
Proof. reflexivity. Qed.

(** *** Hexadecimal literals, identifiers and the scanner *)

(** [fmt.Sprintf("%02x", i)]: two lower-case hexadecimal digits. *)
Definition hexDigit (n : nat) : byte :=
  nth n [x30; x31; x32; x33; x34; x35; x36; x37; x38; x39;
         x61; x62; x63; x64; x65; x66] x30.

Definition sprintf_02x (i : nat) : list byte :=
  [hexDigit (i / 16); hexDigit (i mod 16)].

(** The array [hexMap] that [init] fills. *)
Definition hexMap : list (list byte) :=
  Eval vm_compute in map sprintf_02x (seq 0 256).

(** [encodeSQLBytes]. *)
Definition encodeSQLBytes (buf v : list byte) : list byte :=
  let buf := buf ++ [x78; char_quote] in
  let buf := fold_left (fun buf d => buf ++ nth (Byte.to_nat d) hexMap []) v buf in
  buf ++ [char_quote].

(** The int of a byte, and the end-of-input mark of the scanner. *)
Definition int (b : byte) : Z := Z.of_N (Byte.to_N b).
Definition eof : Z := (-1)%Z.

(** The byte [byte(t)] of an int. *)
Definition byte_of_int (t : Z) : byte :=
  match Byte.of_N (Z.to_N (t mod 256)) with Some b => b | None => x00 end.

Definition isDigit (ch : Z) : bool := ((48 <=? ch) && (ch <=? 57))%Z.

Definition isIdentStart (ch : Z) : bool :=
  ((65 <=? ch) && (ch <=? 90) || (97 <=? ch) && (ch <=? 122)
   || (128 <=? ch) && (ch <=? 255) || (ch =? 95))%Z.

Definition isIdentMiddle (ch : Z) : bool :=
  isIdentStart ch || isDigit ch || (ch =? 36)%Z.

(** [isIdent]: a first byte that starts an identifier, and then bytes that
    continue one. *)
Definition isIdent (s : list byte) : bool :=
  match s with
  | [] => false
  | c :: rest =>
      isIdentStart (int c) && forallb (fun b => isIdentMiddle (int b)) rest
  end.

Definition char_dquote : byte := x22.

Section Keywords.

(** The table [keywords] is generated with the grammar and is not part of
    the source tree: [keywordId s] is [keywords[strings.ToUpper(s)]], and
    [IDENT] and [ERROR] are the token numbers of the grammar. *)
Variable keywordId : list byte -> option Z.
Variable IDENT : Z.
Variable ERROR : Z.

(** The loop of [encodeSQLIdent] from index [i] on, [rest] being [s[i:]];
    the state is the buffer and [start]. *)
Fixpoint identLoop (s rest : list byte) (i : nat)
    (buf : list byte) (start : nat) : list byte * nat :=
  match rest with
  | [] => (buf, start)
  | ch :: rest' =>
      if Byte.eqb ch char_dquote then
        let buf := if negb (Nat.eqb start i) then buf ++ slice s start i
                   else buf in
        identLoop s rest' (S i) (buf ++ [ch; ch]) (S i)
      else identLoop s rest' (S i) buf start
  end.

(** [encodeSQLIdent], the buffer being the bytes written so far. *)
Definition encodeSQLIdent (buf s : list byte) : list byte :=
  match keywordId s with
  | Some _ => buf ++ [char_dquote] ++ s ++ [char_dquote]
  | None =>
      if isIdent s then buf ++ s
      else
        let (buf, start) := identLoop s s 0 (buf ++ [char_dquote]) 0 in
        let buf := if Nat.ltb start (length s) then buf ++ skipn start s
                   else buf in
        buf ++ [char_dquote]
  end.

(** [encIdent]. *)
Definition encIdent (s : list byte) : list byte := encodeSQLIdent [] s.

(** The part of a token value that the string scanner uses. *)
Record sqlSymType := mkSym {
  sym_id : Z;
  sym_pos : nat;
  sym_str : list byte
}.

(** The scanner: its input and its position. *)
Record scanner := mkScanner { sc_in : list byte; sc_pos : nat }.

Definition newScanner (s : list byte) : scanner := mkScanner s 0.

Definition errUnterminated : list byte :=
  list_byte_of_string "unterminated string".
Definition errUnsupportedEscape : list byte :=
  list_byte_of_string "octal, hex and unicode escape not supported".
Definition errUnterminatedComment : list byte :=
  list_byte_of_string "unterminated comment".

(** [scanner.peek] and [scanner.next]. *)
Definition peek (s : scanner) : Z :=
  match nth_error (sc_in s) (sc_pos s) with
  | Some b => int b
  | None => eof
  end.

Definition advance (s : scanner) : scanner :=
  mkScanner (sc_in s) (S (sc_pos s)).

Definition retreat (s : scanner) : scanner :=
  mkScanner (sc_in s) (sc_pos s - 1).

Definition next (s : scanner) : Z * scanner :=
  let ch := peek s in
  if negb (ch =? eof)%Z then (ch, advance s) else (ch, s).

(** The loops run on fuel; every turn of a loop of the scanner reads a
    byte or leaves the loop, so that one more than the length of the input
    is enough. [None] is fuel run out. *)
Definition scan_fuel (s : scanner) : nat := S (length (sc_in s)).

(** The loop of [scanComment] inside a block comment: [Some (true, _)] at
    the end of the comment, [Some (false, _)] at the end of the input. *)
Fixpoint blockComment (fuel : nat) (s : scanner) (depth : Z)
    : option (bool * scanner) :=
  match fuel with
  | O => None
  | S fuel =>
      let (c, s1) := next s in
      if (c =? 42)%Z then
        if (peek s1 =? 47)%Z then
          let s2 := advance s1 in
          let depth := (depth - 1)%Z in
          if (depth =? 0)%Z then Some (true, s2)
          else blockComment fuel s2 depth
        else blockComment fuel s1 depth
      else if (c =? 47)%Z then
        if (peek s1 =? 42)%Z then blockComment fuel (advance s1) (depth + 1)%Z
        else blockComment fuel s1 depth
      else if (c =? eof)%Z then Some (false, s1)
      else blockComment fuel s1 depth
  end.

(** The loop of [scanComment] inside a line comment. *)
Fixpoint lineComment (fuel : nat) (s : scanner) : option scanner :=
  match fuel with
  | O => None
  | S fuel =>
      let (c, s1) := next s in
      if (c =? eof)%Z || (c =? 10)%Z then Some s1
      else lineComment fuel s1
  end.

(** [scanner.scanComment]: the results [present] and [ok], the scanner and
    the token value after. *)
Definition scanComment (s : scanner) (lval : sqlSymType)
    : option (bool * bool * scanner * sqlSymType) :=
  let start := sc_pos s in
  let ch := peek s in
  if (ch =? 47)%Z then
    let s1 := advance s in
    if negb (peek s1 =? 42)%Z then Some (false, true, retreat s1, lval)
    else
      match blockComment (scan_fuel s) (advance s1) 1 with
      | None => None
      | Some (true, s2) => Some (true, true, s2, lval)
      | Some (false, s2) =>
          Some (false, false, s2, mkSym ERROR start errUnterminatedComment)
      end
  else if (ch =? 45)%Z then
    let s1 := advance s in
    if negb (peek s1 =? 45)%Z then Some (false, true, retreat s1, lval)
    else
      match lineComment (scan_fuel s) s1 with
      | None => None
      | Some s2 => Some (true, true, s2, lval)
      end
  else Some (false, true, s, lval).

(** The loop of [scanner.skipWhitespace]. *)
Fixpoint skipWhitespaceLoop (fuel : nat) (s : scanner) (lval : sqlSymType)
    (allowComments newline : bool)
    : option (bool * bool * scanner * sqlSymType) :=
  match fuel with
  | O => None
  | S fuel =>
      let ch := peek s in
      if (ch =? 10)%Z then
        skipWhitespaceLoop fuel (advance s) lval allowComments true
      else if (ch =? 32)%Z || (ch =? 9)%Z || (ch =? 13)%Z || (ch =? 12)%Z then
        skipWhitespaceLoop fuel (advance s) lval allowComments newline
      else if allowComments then
        match scanComment s lval with
        | None => None
        | Some (present, cok, s1, lval1) =>
            if negb cok then Some (false, false, s1, lval1)
            else if present then
              skipWhitespaceLoop fuel s1 lval1 allowComments newline
            else Some (newline, true, s1, lval1)
        end
      else Some (newline, true, s, lval)
  end.

(** [scanner.skipWhitespace]: the results [newline] and [ok]. *)
Definition skipWhitespace (s : scanner) (lval : sqlSymType)
    (allowComments : bool) : option (bool * bool * scanner * sqlSymType) :=
  skipWhitespaceLoop (scan_fuel s) s lval allowComments false.

Definition add_str (lval : sqlSymType) (bs : list byte) : sqlSymType :=
  mkSym (sym_id lval) (sym_pos lval) (sym_str lval ++ bs).

(** The escapes that the scanner decodes through [decodeMap], and those it
    refuses. *)
Definition decoded_escape (t : Z) : bool :=
  ((t =? 98) || (t =? 102) || (t =? 110) || (t =? 114) || (t =? 116)
   || (t =? 39))%Z.

Definition refused_escape (t : Z) : bool :=
  ((t =? 120) || (t =? 117) || (t =? 85)
   || (t =? 48) || (t =? 49) || (t =? 50) || (t =? 51) || (t =? 52)
   || (t =? 53) || (t =? 54) || (t =? 55))%Z.

(** The loop of [scanner.scanString]; the slices [s.in[start : s.pos-1]]
    are taken after [next] has read a byte, so that [s.pos-1] is not below
    [start]. *)
Fixpoint scanStringLoop (fuel : nat) (s : scanner) (lval : sqlSymType)
    (ch : Z) (allowEscapes : bool) (start : nat)
    : option (bool * scanner * sqlSymType) :=
  match fuel with
  | O => None
  | S fuel =>
      let (c, s1) := next s in
      if (c =? ch)%Z then
        let lval := add_str lval (slice (sc_in s1) start (sc_pos s1 - 1)) in
        if (peek s1 =? ch)%Z then
          scanStringLoop fuel (advance s1) lval ch allowEscapes (sc_pos s1)
        else
          match skipWhitespace s1 lval false with
          | None => None
          | Some (newline, ok, s2, lval2) =>
              if negb ok then Some (false, s2, lval2)
              else if negb newline then Some (true, s2, lval2)
              else if negb (peek s2 =? ch)%Z then Some (true, s2, lval2)
              else scanStringLoop fuel (advance s2) lval2 ch allowEscapes
                                  (S (sc_pos s2))
          end
      else if (c =? 92)%Z then
        let t := peek s1 in
        if allowEscapes then
          let lval := add_str lval (slice (sc_in s1) start (sc_pos s1 - 1)) in
          if (t =? ch)%Z || (t =? 92)%Z then
            scanStringLoop fuel (advance s1) lval ch allowEscapes (sc_pos s1)
          else if decoded_escape t then
            let lval :=
              add_str lval
                [array_get decodeMap (Byte.to_nat (byte_of_int t))] in
            scanStringLoop fuel (advance s1) lval ch allowEscapes
                           (S (sc_pos s1))
          else if refused_escape t then
            Some (false, s1,
                  mkSym ERROR (sym_pos lval) errUnsupportedEscape)
          else scanStringLoop fuel s1 lval ch allowEscapes (sc_pos s1)
        else scanStringLoop fuel s1 lval ch allowEscapes start
      else if (c =? eof)%Z then
        Some (false, s1, mkSym ERROR (sym_pos lval) errUnterminated)
      else scanStringLoop fuel s1 lval ch allowEscapes start
  end.

(** [scanner.scanString]: the result, the scanner and the token value. *)
Definition scanString (s : scanner) (lval : sqlSymType) (ch : Z)
    (allowEscapes : bool) : option (bool * scanner * sqlSymType) :=
  scanStringLoop (scan_fuel s) s (mkSym (sym_id lval) (sym_pos lval) [])
                 ch allowEscapes (sc_pos s).

(** The loop of [scanner.scanIdent]. *)
Fixpoint scanIdentLoop (fuel : nat) (s : scanner) : option scanner :=
  match fuel with
  | O => None
  | S fuel =>
      if isIdentMiddle (peek s) then scanIdentLoop fuel (advance s)
      else Some s
  end.

(** [scanner.scanIdent], called after the first byte of the identifier
    has been read. *)
Definition scanIdent (s : scanner) (lval : sqlSymType)
    : option (scanner * sqlSymType) :=
  let start := sc_pos s - 1 in
  match scanIdentLoop (scan_fuel s) s with
  | None => None
  | Some s1 =>
      let str := slice (sc_in s1) start (sc_pos s1) in
      match keywordId str with
      | Some id => Some (s1, mkSym id (sym_pos lval) str)
      | None => Some (s1, mkSym IDENT (sym_pos lval) str)
      end
  end.

End Keywords.

(** *** Properties of the tables, of the hexadecimal literal and of the
    identifier *)

(** X9. [decodeMap] is the reverse of [encodeMap]: the character a byte is
    escaped as decodes to that byte, and a character that decodes at all is
    the one its byte is escaped as. *)
Theorem decodeMap_reverse :
  forall ch : byte,
    (array_get encodeMap (Byte.to_nat ch) <> dontEscape ->
     array_get decodeMap
       (Byte.to_nat (array_get encodeMap (Byte.to_nat ch))) = ch) /\
    (array_get decodeMap (Byte.to_nat ch) <> dontEscape ->
     array_get encodeMap
       (Byte.to_nat (array_get decodeMap (Byte.to_nat ch))) = ch).
Proof.
  intros ch; destruct ch; split; intros H; try reflexivity;
    exfalso; apply H; reflexivity.
Qed.

Lemma decodeMap_reverse_witness :
  array_get decodeMap (Byte.to_nat (array_get encodeMap (Byte.to_nat x0a)))
    = x0a.
Proof.
  refine (proj1 (decodeMap_reverse x0a) _).
  intros H; discriminate H.
Defined.

Definition hexPair (d : byte) : list byte := nth (Byte.to_nat d) hexMap [].

(** The value of a hexadecimal digit, and of a pair of them. *)
Definition hexValue (c : byte) : nat :=
  match c with
  | x30 => 0 | x31 => 1 | x32 => 2 | x33 => 3 | x34 => 4
  | x35 => 5 | x36 => 6 | x37 => 7 | x38 => 8 | x39 => 9
  | x61 => 10 | x62 => 11 | x63 => 12 | x64 => 13 | x65 => 14 | x66 => 15
  | _ => 0
  end.

Definition isHexDigit (c : byte) : bool :=
  match c with
  | x30 | x31 | x32 | x33 | x34 | x35 | x36 | x37 | x38 | x39
  | x61 | x62 | x63 | x64 | x65 | x66 => true
  | _ => false
  end.

Fixpoint unhex (l : list byte) : list byte :=
  match l with
  | h :: l0 :: rest => byte_of_index (16 * hexValue h + hexValue l0) :: unhex rest
  | _ => []
  end.

Lemma hexPair_two (d : byte) :
  exists h l, hexPair d = [h; l] /\ isHexDigit h = true /\
              isHexDigit l = true /\
              byte_of_index (16 * hexValue h + hexValue l) = d.
Proof. destruct d; do 2 eexists; repeat split. Qed.

Lemma fold_left_append (f : byte -> list byte) (v buf : list byte) :
  fold_left (fun buf d => buf ++ f d) v buf = buf ++ flat_map f v.
Proof.
  revert buf; induction v as [|d v IH]; intros buf; simpl.
  - rewrite app_nil_r; reflexivity.
  - rewrite IH, <- app_assoc; reflexivity.
Qed.

Lemma unhex_hex (v : list byte) : unhex (flat_map hexPair v) = v.
Proof.
  induction v as [|d v IH]; [reflexivity|].
  destruct (hexPair_two d) as (h & l & Hd & _ & _ & Hb).
  cbn [flat_map]; rewrite Hd; cbn [app unhex]; rewrite Hb, IH; reflexivity.
Qed.

Lemma unhex_hex_quote (v : list byte) :
  unhex (flat_map hexPair v ++ [char_quote]) = v.
Proof.
  induction v as [|d v IH]; [reflexivity|].
  destruct (hexPair_two d) as (h & l & Hd & _ & _ & Hb).
  cbn [flat_map]; rewrite Hd; cbn [app unhex]; rewrite Hb, IH; reflexivity.
Qed.

Lemma length_flat_map_hex (v : list byte) :
  length (flat_map hexPair v) = 2 * length v.
Proof.
  induction v as [|d v IH]; [reflexivity|].
  destruct (hexPair_two d) as (h & l & Hd & _).
  cbn [flat_map]; rewrite Hd; cbn [app length]; rewrite IH; lia.
Qed.

(** X10. [encodeSQLBytes] appends x-quote, two lower-case hexadecimal
    digits for every byte, and a quote: the literal is three bytes longer
    than twice the input, all between the quotes are hexadecimal digits,
    reading the digits back pair by pair gives the input, and so two byte
    strings never share a literal. *)
Theorem encodeSQLBytes_hex :
  forall (buf v : list byte),
    encodeSQLBytes buf v
      = buf ++ [x78; char_quote] ++ flat_map hexPair v ++ [char_quote] /\
    length (encodeSQLBytes buf v) = length buf + 2 * length v + 3 /\
    forallb isHexDigit (flat_map hexPair v) = true /\
    unhex (flat_map hexPair v) = v /\
    (forall v', encodeSQLBytes buf v' = encodeSQLBytes buf v -> v' = v).
Proof.
  intros buf v.
  assert (Heq : forall w, encodeSQLBytes buf w
            = buf ++ [x78; char_quote] ++ flat_map hexPair w ++ [char_quote]).
  { intros w; unfold encodeSQLBytes.
    rewrite (fold_left_append hexPair), <- !app_assoc; reflexivity. }
  split; [apply Heq|]; split; [|split; [|split]].
  - rewrite Heq, !length_app, length_flat_map_hex; simpl; lia.
  - induction v as [|d v IH]; [reflexivity|].
    destruct (hexPair_two d) as (h & l & Hd & Hh & Hl & _).
    cbn [flat_map]; rewrite Hd; cbn [app forallb]; rewrite Hh, Hl, IH.
    reflexivity.
  - apply unhex_hex.
  - intros v' H; rewrite !Heq in H.
    apply app_inv_head in H.
    cbn [app] in H; inversion H as [H'].
    rewrite <- (unhex_hex_quote v'), <- (unhex_hex_quote v), H'.
    reflexivity.
Qed.

Lemma encodeSQLBytes_hex_witness : [x01; xff] = [x01; xff].
Proof.
  exact (proj2 (proj2 (proj2 (proj2 (encodeSQLBytes_hex [] [x01; xff]))))
           [x01; xff] eq_refl).
Defined.

(** The statement of the quoting of an identifier: every double quote is
    written twice. *)
Definition doubleQuote (ch : byte) : list byte :=
  if Byte.eqb ch char_dquote then [ch; ch] else [ch].

Definition identFinish (s : list byte) (st : list byte * nat) : list byte :=
  let (buf, start) := st in
  let buf := if Nat.ltb start (length s) then buf ++ skipn start s else buf in
  buf ++ [char_dquote].

Lemma identLoop_spec (rest pre buf : list byte) (start : nat) :
  start <= length pre ->
  identFinish (pre ++ rest)
      (identLoop (pre ++ rest) rest (length pre) buf start) =
    buf ++ skipn start pre ++ flat_map doubleQuote rest ++ [char_dquote].
Proof.
  revert pre buf start; induction rest as [|ch rest IH];
    intros pre buf start Hle.
  - cbn [identLoop identFinish flat_map app]; rewrite !app_nil_r.
    destruct (Nat.ltb_spec start (length pre)) as [Hlt|Hge].
    + rewrite <- app_assoc; reflexivity.
    + rewrite skipn_all2 by lia; reflexivity.
  - cbn [identLoop flat_map].
    assert (Hin : pre ++ ch :: rest = (pre ++ [ch]) ++ rest)
      by (rewrite <- app_assoc; reflexivity).
    assert (Hlen : S (length pre) = length (pre ++ [ch]))
      by (rewrite length_app; simpl; lia).
    unfold doubleQuote at 1.
    destruct (Byte.eqb ch char_dquote) eqn:Eq.
    + replace (if negb (Nat.eqb start (length pre))
               then buf ++ slice (pre ++ ch :: rest) start (length pre)
               else buf)
        with (buf ++ skipn start pre).
      * rewrite Hin, Hlen, IH by lia.
        rewrite skipn_all; cbn [app]; rewrite <- !app_assoc; reflexivity.
      * destruct (Nat.eqb_spec start (length pre)) as [->|Hne]; cbn [negb].
        { rewrite skipn_all, app_nil_r; reflexivity. }
        rewrite slice_prefix by exact Hle; reflexivity.
    + rewrite Hin, Hlen, IH by (rewrite <- Hlen; lia).
      rewrite skipn_app_le by exact Hle.
      rewrite <- !app_assoc; reflexivity.
Qed.

(** X11. [encodeSQLIdent] writes a keyword between double quotes, a string
    of identifier form as it is, and any other string between double quotes
    with every double quote in it written twice and every other byte
    copied. *)
Theorem encodeSQLIdent_quoted :
  forall (keywordId : list byte -> option Z) (buf s : list byte),
    encodeSQLIdent keywordId buf s =
      buf ++
      match keywordId s with
      | Some _ => [char_dquote] ++ s ++ [char_dquote]
      | None =>
          if isIdent s then s
          else [char_dquote] ++ flat_map doubleQuote s ++ [char_dquote]
      end.
Proof.
  intros keywordId buf s; unfold encodeSQLIdent.
  destruct (keywordId s); [reflexivity|].
  destruct (isIdent s); [reflexivity|].
  pose proof (identLoop_spec s [] (buf ++ [char_dquote]) 0 (Nat.le_refl 0))
    as H.
  cbn [app length skipn] in H; unfold identFinish in H.
  destruct (identLoop s s 0 (buf ++ [char_dquote]) 0) as [b st].
  rewrite H, <- !app_assoc; reflexivity.
Qed.

(** *** The scanner reads back what the encoders write *)

Lemma nth_error_at (pre tail : list byte) (x : byte) :
  nth_error (pre ++ x :: tail) (length pre) = Some x.
Proof. induction pre as [|a pre IH]; simpl; [reflexivity | exact IH]. Qed.

Lemma nth_error_end (l : list byte) : nth_error l (length l) = None.
Proof. induction l as [|a l IH]; simpl; [reflexivity | exact IH]. Qed.

Lemma int_not_eof (b : byte) : (int b =? eof)%Z = false.
Proof.
  apply Z.eqb_neq; unfold int, eof.
  pose proof (N2Z.is_nonneg (Byte.to_N b)); lia.
Qed.

Lemma int_inj (a b : byte) : int a = int b -> a = b.
Proof.
  unfold int; intros H; apply N2Z.inj in H.
  pose proof (Byte.of_to_N a) as Ha; pose proof (Byte.of_to_N b) as Hb.
  rewrite H in Ha; congruence.
Qed.

Lemma int_eqb (a b : byte) : (int a =? int b)%Z = Byte.eqb a b.
Proof.
  destruct (Byte.eqb a b) eqn:E.
  - apply Byte.byte_dec_bl in E; subst; apply Z.eqb_refl.
  - apply Z.eqb_neq; intros H; apply int_inj in H; subst.
    rewrite (Byte.byte_dec_lb (eq_refl b)) in E; discriminate.
Qed.

Lemma peek_at (pre tail : list byte) (x : byte) :
  peek (mkScanner (pre ++ x :: tail) (length pre)) = int x.
Proof. unfold peek; simpl; rewrite nth_error_at; reflexivity. Qed.

Lemma peek_end (l : list byte) : peek (mkScanner l (length l)) = eof.
Proof. unfold peek; simpl; rewrite nth_error_end; reflexivity. Qed.

Lemma next_at (pre tail : list byte) (x : byte) :
  next (mkScanner (pre ++ x :: tail) (length pre))
    = (int x, mkScanner (pre ++ x :: tail) (S (length pre))).
Proof. unfold next; rewrite peek_at, int_not_eof; reflexivity. Qed.

Lemma skipn_snoc (pre : list byte) (x : byte) (n : nat) :
  n <= length pre -> skipn n (pre ++ [x]) = skipn n pre ++ [x].
Proof. apply skipn_app_le. Qed.

Section ScannerFacts.

Variable ERROR : Z.

(** At the end of the input there is no whitespace to skip. *)
Lemma skipWhitespace_end (l : list byte) (lval : sqlSymType) :
  skipWhitespace ERROR (mkScanner l (length l)) lval false
    = Some (false, true, mkScanner l (length l), lval).
Proof.
  unfold skipWhitespace, scan_fuel; cbn [skipWhitespaceLoop].
  rewrite peek_end; reflexivity.
Qed.

(** The closing quote at the end of the input ends the string. *)
Lemma scanString_close (n : nat) (pre : list byte) (q : byte)
    (lval : sqlSymType) (ae : bool) (start : nat) :
  start <= length pre ->
  scanStringLoop ERROR (S n) (mkScanner (pre ++ [q]) (length pre)) lval
                 (int q) ae start
    = Some (true, mkScanner (pre ++ [q]) (length (pre ++ [q])),
            add_str lval (skipn start pre)).
Proof.
  intros Hle; cbn [scanStringLoop].
  rewrite next_at, Z.eqb_refl; cbn [sc_in sc_pos].
  rewrite Nat.sub_succ, Nat.sub_0_r, slice_prefix by exact Hle.
  replace (S (length pre)) with (length (pre ++ [q]))
    by (rewrite length_app; simpl; lia).
  rewrite peek_end.
  replace (eof =? int q)%Z with false
    by (symmetry; rewrite Z.eqb_sym; apply int_not_eof).
  rewrite skipWhitespace_end; reflexivity.
Qed.

(** A byte that is neither the quote nor a backslash is passed over. *)
Lemma scanString_plain_byte (n : nat) (pre tail : list byte) (x : byte)
    (lval : sqlSymType) (ch : Z) (ae : bool) (start : nat) :
  (int x =? ch)%Z = false ->
  ((int x =? 92)%Z = false \/ ae = false) ->
  scanStringLoop ERROR (S n) (mkScanner (pre ++ x :: tail) (length pre)) lval
                 ch ae start
    = scanStringLoop ERROR n (mkScanner (pre ++ x :: tail) (S (length pre)))
                     lval ch ae start.
Proof.
  intros Hq Hb; cbn [scanStringLoop].
  rewrite next_at, Hq, int_not_eof.
  destruct (int x =? 92)%Z; [|reflexivity].
  destruct Hb as [Hb| ->]; [discriminate Hb | reflexivity].
Qed.

(** A quote written twice is one quote of the string. *)
Lemma scanString_doubled (n : nat) (pre tail : list byte) (q : byte)
    (lval : sqlSymType) (ae : bool) (start : nat) :
  start <= length pre ->
  scanStringLoop ERROR (S n)
      (mkScanner (pre ++ q :: q :: tail) (length pre)) lval (int q) ae start
    = scanStringLoop ERROR n
        (mkScanner (pre ++ q :: q :: tail) (S (S (length pre))))
        (add_str lval (skipn start pre)) (int q) ae (S (length pre)).
Proof.
  intros Hle; cbn [scanStringLoop].
  rewrite next_at, Z.eqb_refl; cbn [sc_in sc_pos].
  rewrite Nat.sub_succ, Nat.sub_0_r, slice_prefix by exact Hle.
  assert (Hp : peek (mkScanner (pre ++ q :: q :: tail) (S (length pre)))
               = int q).
  { replace (pre ++ q :: q :: tail) with ((pre ++ [q]) ++ q :: tail)
      by (rewrite <- app_assoc; reflexivity).
    replace (S (length pre)) with (length (pre ++ [q]))
      by (rewrite length_app; simpl; lia).
    apply peek_at. }
  rewrite Hp, Z.eqb_refl; reflexivity.
Qed.

(** An escaped backslash or quote is that byte of the string. *)
Lemma scanString_escape_keep (n : nat) (pre tail : list byte) (c : byte)
    (lval : sqlSymType) (start : nat) :
  start <= length pre ->
  c = x5c \/ c = x27 ->
  scanStringLoop ERROR (S n)
      (mkScanner (pre ++ x5c :: c :: tail) (length pre)) lval 39%Z true start
    = scanStringLoop ERROR n
        (mkScanner (pre ++ x5c :: c :: tail) (S (S (length pre))))
        (add_str lval (skipn start pre)) 39%Z true (S (length pre)).
Proof.
  intros Hle Hc; cbn [scanStringLoop].
  rewrite next_at; change (int x5c) with 92%Z; cbn [Z.eqb Pos.eqb].
  cbn [sc_in sc_pos].
  rewrite Nat.sub_succ, Nat.sub_0_r, slice_prefix by exact Hle.
  assert (Hp : peek (mkScanner (pre ++ x5c :: c :: tail) (S (length pre)))
               = int c).
  { replace (pre ++ x5c :: c :: tail) with ((pre ++ [x5c]) ++ c :: tail)
      by (rewrite <- app_assoc; reflexivity).
    replace (S (length pre)) with (length (pre ++ [x5c]))
      by (rewrite length_app; simpl; lia).
    apply peek_at. }
  rewrite Hp; destruct Hc as [-> | ->]; reflexivity.
Qed.

(** An escape that [decodeMap] knows is the byte it decodes to. *)
Lemma scanString_escape_decode (n : nat) (pre tail : list byte) (c : byte)
    (lval : sqlSymType) (start : nat) :
  start <= length pre ->
  c = x62 \/ c = x66 \/ c = x6e \/ c = x72 \/ c = x74 ->
  scanStringLoop ERROR (S n)
      (mkScanner (pre ++ x5c :: c :: tail) (length pre)) lval 39%Z true start
    = scanStringLoop ERROR n
        (mkScanner (pre ++ x5c :: c :: tail) (S (S (length pre))))
        (add_str (add_str lval (skipn start pre))
                 [array_get decodeMap (Byte.to_nat c)])
        39%Z true (S (S (length pre))).
Proof.
  intros Hle Hc; cbn [scanStringLoop].
  rewrite next_at; change (int x5c) with 92%Z; cbn [Z.eqb Pos.eqb].
  cbn [sc_in sc_pos].
  rewrite Nat.sub_succ, Nat.sub_0_r, slice_prefix by exact Hle.
  assert (Hp : peek (mkScanner (pre ++ x5c :: c :: tail) (S (length pre)))
               = int c).
  { replace (pre ++ x5c :: c :: tail) with ((pre ++ [x5c]) ++ c :: tail)
      by (rewrite <- app_assoc; reflexivity).
    replace (S (length pre)) with (length (pre ++ [x5c]))
      by (rewrite length_app; simpl; lia).
    apply peek_at. }
  rewrite Hp; destruct Hc as [-> | [-> | [-> | [-> | ->]]]]; reflexivity.
Qed.

(** The escape of NUL is refused. *)
Lemma scanString_escape_nul (n : nat) (pre tail : list byte)
    (lval : sqlSymType) (start : nat) :
  scanStringLoop ERROR (S n)
      (mkScanner (pre ++ x5c :: x30 :: tail) (length pre)) lval 39%Z true start
    = Some (false, mkScanner (pre ++ x5c :: x30 :: tail) (S (length pre)),
            mkSym ERROR (sym_pos lval) errUnsupportedEscape).
Proof.
  cbn [scanStringLoop].
  rewrite next_at; change (int x5c) with 92%Z; cbn [Z.eqb Pos.eqb].
  assert (Hp : peek (mkScanner (pre ++ x5c :: x30 :: tail) (S (length pre)))
               = int x30).
  { replace (pre ++ x5c :: x30 :: tail) with ((pre ++ [x5c]) ++ x30 :: tail)
      by (rewrite <- app_assoc; reflexivity).
    replace (S (length pre)) with (length (pre ++ [x5c]))
      by (rewrite length_app; simpl; lia).
    apply peek_at. }
  rewrite Hp; reflexivity.
Qed.

End ScannerFacts.

(** A quote [q] written twice, any other byte once. *)
Definition doubled (q c : byte) : list byte :=
  if Byte.eqb c q then [c; c] else [c].

Lemma unescaped_int (ch : byte) :
  isEscaped ch = false ->
  (int ch =? 39)%Z = false /\ (int ch =? 92)%Z = false.
Proof. destruct ch; intros H; try discriminate H; split; reflexivity. Qed.

Lemma escaped_kinds (ch : byte) :
  isEscaped ch = true -> ch <> x00 ->
  (escapeByte ch = [x5c; ch] /\ (ch = x5c \/ ch = x27)) \/
  (exists c, escapeByte ch = [x5c; c] /\
             (c = x62 \/ c = x66 \/ c = x6e \/ c = x72 \/ c = x74) /\
             array_get decodeMap (Byte.to_nat c) = ch).
Proof.
  destruct ch; intros H Hn; try discriminate H;
    try (exfalso; apply Hn; reflexivity);
    first [ left; split; [reflexivity | solve [auto]]
          | right; eexists; split;
            [reflexivity | split; [solve [auto 6] | reflexivity]] ].
Qed.

Lemma unescaped_doubled (in_ : list byte) :
  existsb isEscaped in_ = false -> flat_map (doubled x27) in_ = in_.
Proof.
  induction in_ as [|c in_ IH]; simpl; [reflexivity|].
  intros H; apply orb_false_iff in H as [Hc Hrest].
  rewrite (IH Hrest); unfold doubled.
  destruct (Byte.eqb c x27) eqn:E; [|reflexivity].
  apply Byte.byte_dec_bl in E; subst c; discriminate Hc.
Qed.

Lemma no_quote_doubled (q : byte) (s : list byte) :
  ~ In q s -> flat_map (doubled q) s = s.
Proof.
  induction s as [|c s IH]; simpl; [reflexivity|].
  intros H; rewrite IH by tauto; unfold doubled.
  destruct (Byte.eqb c q) eqn:E; [|reflexivity].
  apply Byte.byte_dec_bl in E; subst c; exfalso; apply H; left; reflexivity.
Qed.

Lemma in_split_first (x : byte) (l : list byte) :
  In x l -> exists a b, l = a ++ x :: b /\ ~ In x a.
Proof.
  induction l as [|y l IH]; intros H; [contradiction|].
  destruct (Byte.byte_eq_dec y x) as [->|Hne].
  - exists [], l; split; [reflexivity | intros []].
  - destruct H as [H|H]; [contradiction|].
    destruct (IH H) as (a & b & -> & Hna).
    exists (y :: a), b; split; [reflexivity|].
    intros [Hy|Hy]; [contradiction | exact (Hna Hy)].
Qed.

Section ScannerRoundTrip.

Variable ERROR : Z.

(** Without escapes, the scanner passes over a text in which the quote is
    written twice: one turn of the loop for each byte of the string. *)
Lemma scan_doubled_prefix (q : byte) (rest pre tail : list byte)
    (lval : sqlSymType) (start n : nat) :
  start <= length pre ->
  exists lval' start',
    scanStringLoop ERROR (length rest + n)
        (mkScanner (pre ++ flat_map (doubled q) rest ++ tail) (length pre))
        lval (int q) false start
      = scanStringLoop ERROR n
          (mkScanner (pre ++ flat_map (doubled q) rest ++ tail)
                     (length (pre ++ flat_map (doubled q) rest)))
          lval' (int q) false start' /\
    start' <= length (pre ++ flat_map (doubled q) rest) /\
    sym_str lval' ++ skipn start' (pre ++ flat_map (doubled q) rest)
      = sym_str lval ++ skipn start pre ++ rest /\
    sym_id lval' = sym_id lval /\ sym_pos lval' = sym_pos lval.
Proof.
  revert pre lval start; induction rest as [|c rest IH];
    intros pre lval start Hle.
  - exists lval, start; cbn [flat_map length Nat.add app].
    rewrite !app_nil_r; repeat split; auto.
  - cbn [flat_map length Nat.add].
    assert (Hgen : forall (enc : list byte) (lval1 : sqlSymType)
                          (start1 : nat),
              doubled q c = enc ->
              start1 <= length (pre ++ enc) ->
              scanStringLoop ERROR (S (length rest + n))
                  (mkScanner
                     (pre ++ (enc ++ flat_map (doubled q) rest) ++ tail)
                     (length pre)) lval (int q) false start
                = scanStringLoop ERROR (length rest + n)
                    (mkScanner
                       ((pre ++ enc) ++ flat_map (doubled q) rest ++ tail)
                       (length (pre ++ enc))) lval1 (int q) false start1 ->
              sym_str lval1 ++ skipn start1 (pre ++ enc)
                = sym_str lval ++ skipn start pre ++ [c] ->
              sym_id lval1 = sym_id lval -> sym_pos lval1 = sym_pos lval ->
              exists lval' start',
                scanStringLoop ERROR (S (length rest + n))
                    (mkScanner
                       (pre ++ (doubled q c ++ flat_map (doubled q) rest)
                            ++ tail) (length pre)) lval (int q) false start
                  = scanStringLoop ERROR n
                      (mkScanner
                         (pre ++ (doubled q c ++ flat_map (doubled q) rest)
                              ++ tail)
                         (length (pre ++ doubled q c
                                      ++ flat_map (doubled q) rest)))
                      lval' (int q) false start' /\
                start' <= length (pre ++ doubled q c
                                      ++ flat_map (doubled q) rest) /\
                sym_str lval' ++ skipn start'
                    (pre ++ doubled q c ++ flat_map (doubled q) rest)
                  = sym_str lval ++ skipn start pre ++ c :: rest /\
                sym_id lval' = sym_id lval /\ sym_pos lval' = sym_pos lval).
    { intros enc lval1 start1 Henc Hle1 Hstep Hstr1 Hid1 Hpos1.
      rewrite Henc, Hstep.
      destruct (IH (pre ++ enc) lval1 start1 Hle1)
        as (lval' & start' & Heq & Hs & Hstr & Hid & Hpos).
      assert (HT : pre ++ (enc ++ flat_map (doubled q) rest) ++ tail
                   = (pre ++ enc) ++ flat_map (doubled q) rest ++ tail)
        by (rewrite <- ?app_assoc; reflexivity).
      assert (HP : pre ++ enc ++ flat_map (doubled q) rest
                   = (pre ++ enc) ++ flat_map (doubled q) rest)
        by (rewrite <- ?app_assoc; reflexivity).
      rewrite HT, HP.
      exists lval', start'; split; [exact Heq|].
      split; [exact Hs|]; split; [|split; congruence].
      rewrite Hstr, app_assoc, Hstr1, <- ?app_assoc; reflexivity. }
    destruct (Byte.eqb c q) eqn:E.
    + pose proof (Byte.byte_dec_bl _ _ E) as Hcq; subst c.
      apply (Hgen [q; q] (add_str lval (skipn start pre)) (S (length pre))).
      { unfold doubled; rewrite E; reflexivity. }
      { rewrite length_app; simpl; lia. }
      { assert (HT : pre ++ ([q; q] ++ flat_map (doubled q) rest) ++ tail
                     = pre ++ q :: q :: (flat_map (doubled q) rest ++ tail))
          by reflexivity.
        rewrite HT, scanString_doubled by exact Hle.
        rewrite <- HT.
        replace (S (S (length pre))) with (length (pre ++ [q; q]))
          by (rewrite length_app; simpl; lia).
        rewrite <- ?app_assoc; reflexivity. }
      { cbn [add_str sym_str].
        replace (skipn (S (length pre)) (pre ++ [q; q])) with [q].
        - rewrite <- ?app_assoc; reflexivity.
        - replace (S (length pre)) with (length (pre ++ [q]))
            by (rewrite length_app; simpl; lia).
          replace (pre ++ [q; q]) with ((pre ++ [q]) ++ [q])
            by (rewrite <- app_assoc; reflexivity).
          rewrite skipn_app_le by lia.
          rewrite skipn_all; reflexivity. }
      { reflexivity. }
      { reflexivity. }
    + apply (Hgen [c] lval start).
      { unfold doubled; rewrite E; reflexivity. }
      { rewrite length_app; simpl; lia. }
      { assert (HT : pre ++ ([c] ++ flat_map (doubled q) rest) ++ tail
                     = pre ++ c :: (flat_map (doubled q) rest ++ tail))
          by reflexivity.
        rewrite HT, scanString_plain_byte
          by (first [rewrite int_eqb; exact E | right; reflexivity]).
        rewrite <- HT.
        replace (S (length pre)) with (length (pre ++ [c]))
          by (rewrite length_app; simpl; lia).
        rewrite <- ?app_assoc; reflexivity. }
      { rewrite skipn_app_le by exact Hle.
        rewrite <- ?app_assoc; reflexivity. }
      { reflexivity. }
      { reflexivity. }
Qed.

(** With escapes, the scanner passes over the escaped form of a string
    without NUL: one turn of the loop for each byte of the string. *)
Lemma scan_escaped_prefix (rest pre tail : list byte)
    (lval : sqlSymType) (start n : nat) :
  ~ In x00 rest -> start <= length pre ->
  exists lval' start',
    scanStringLoop ERROR (length rest + n)
        (mkScanner (pre ++ flat_map escapeByte rest ++ tail) (length pre))
        lval 39%Z true start
      = scanStringLoop ERROR n
          (mkScanner (pre ++ flat_map escapeByte rest ++ tail)
                     (length (pre ++ flat_map escapeByte rest)))
          lval' 39%Z true start' /\
    start' <= length (pre ++ flat_map escapeByte rest) /\
    sym_str lval' ++ skipn start' (pre ++ flat_map escapeByte rest)
      = sym_str lval ++ skipn start pre ++ rest /\
    sym_id lval' = sym_id lval /\ sym_pos lval' = sym_pos lval.
Proof.
  revert pre lval start; induction rest as [|ch rest IH];
    intros pre lval start Hnul Hle.
  - exists lval, start; cbn [flat_map length Nat.add app].
    rewrite !app_nil_r; repeat split; auto.
  - cbn [flat_map length Nat.add].
    assert (Hnul' : ~ In x00 rest) by (intros H; apply Hnul; right; exact H).
    assert (Hch : ch <> x00) by (intros ->; apply Hnul; left; reflexivity).
    assert (Hgen : forall (enc : list byte) (lval1 : sqlSymType)
                          (start1 : nat),
              escapeByte ch = enc ->
              start1 <= length (pre ++ enc) ->
              scanStringLoop ERROR (S (length rest + n))
                  (mkScanner (pre ++ (enc ++ flat_map escapeByte rest) ++ tail)
                             (length pre)) lval 39%Z true start
                = scanStringLoop ERROR (length rest + n)
                    (mkScanner
                       ((pre ++ enc) ++ flat_map escapeByte rest ++ tail)
                       (length (pre ++ enc))) lval1 39%Z true start1 ->
              sym_str lval1 ++ skipn start1 (pre ++ enc)
                = sym_str lval ++ skipn start pre ++ [ch] ->
              sym_id lval1 = sym_id lval -> sym_pos lval1 = sym_pos lval ->
              exists lval' start',
                scanStringLoop ERROR (S (length rest + n))
                    (mkScanner
                       (pre ++ (escapeByte ch ++ flat_map escapeByte rest)
                            ++ tail) (length pre)) lval 39%Z true start
                  = scanStringLoop ERROR n
                      (mkScanner
                         (pre ++ (escapeByte ch ++ flat_map escapeByte rest)
                              ++ tail)
                         (length (pre ++ escapeByte ch
                                      ++ flat_map escapeByte rest)))
                      lval' 39%Z true start' /\
                start' <= length (pre ++ escapeByte ch
                                      ++ flat_map escapeByte rest) /\
                sym_str lval' ++ skipn start'
                    (pre ++ escapeByte ch ++ flat_map escapeByte rest)
                  = sym_str lval ++ skipn start pre ++ ch :: rest /\
                sym_id lval' = sym_id lval /\ sym_pos lval' = sym_pos lval).
    { intros enc lval1 start1 Henc Hle1 Hstep Hstr1 Hid1 Hpos1.
      rewrite Henc, Hstep.
      destruct (IH (pre ++ enc) lval1 start1 Hnul' Hle1)
        as (lval' & start' & Heq & Hs & Hstr & Hid & Hpos).
      assert (HT : pre ++ (enc ++ flat_map escapeByte rest) ++ tail
                   = (pre ++ enc) ++ flat_map escapeByte rest ++ tail)
        by (rewrite <- ?app_assoc; reflexivity).
      assert (HP : pre ++ enc ++ flat_map escapeByte rest
                   = (pre ++ enc) ++ flat_map escapeByte rest)
        by (rewrite <- ?app_assoc; reflexivity).
      rewrite HT, HP.
      exists lval', start'; split; [exact Heq|].
      split; [exact Hs|]; split; [|split; congruence].
      rewrite Hstr, app_assoc, Hstr1, <- ?app_assoc; reflexivity. }
    destruct (isEscaped ch) eqn:Hesc.
    + destruct (escaped_kinds ch Hesc Hch)
        as [[Henc Hkind] | (c & Henc & Hkind & Hdec)].
      * apply (Hgen [x5c; ch] (add_str lval (skipn start pre))
                    (S (length pre)) Henc).
        { rewrite length_app; simpl; lia. }
        { assert (HT : pre ++ ([x5c; ch] ++ flat_map escapeByte rest) ++ tail
                       = pre ++ x5c :: ch
                             :: (flat_map escapeByte rest ++ tail))
            by reflexivity.
          rewrite HT, scanString_escape_keep by assumption.
          rewrite <- HT.
          replace (S (S (length pre))) with (length (pre ++ [x5c; ch]))
            by (rewrite length_app; simpl; lia).
          rewrite <- ?app_assoc; reflexivity. }
        { cbn [add_str sym_str].
          replace (skipn (S (length pre)) (pre ++ [x5c; ch])) with [ch].
          - rewrite <- ?app_assoc; reflexivity.
          - replace (S (length pre)) with (length (pre ++ [x5c]))
              by (rewrite length_app; simpl; lia).
            replace (pre ++ [x5c; ch]) with ((pre ++ [x5c]) ++ [ch])
              by (rewrite <- app_assoc; reflexivity).
            rewrite skipn_app_le by lia.
            rewrite skipn_all; reflexivity. }
        { reflexivity. }
        { reflexivity. }
      * apply (Hgen [x5c; c]
                 (add_str (add_str lval (skipn start pre))
                          [array_get decodeMap (Byte.to_nat c)])
                 (S (S (length pre))) Henc).
        { rewrite length_app; simpl; lia. }
        { assert (HT : pre ++ ([x5c; c] ++ flat_map escapeByte rest) ++ tail
                       = pre ++ x5c :: c
                             :: (flat_map escapeByte rest ++ tail))
            by reflexivity.
          rewrite HT, scanString_escape_decode by assumption.
          rewrite <- HT.
          replace (S (S (length pre))) with (length (pre ++ [x5c; c]))
            by (rewrite length_app; simpl; lia).
          rewrite <- ?app_assoc; reflexivity. }
        { cbn [add_str sym_str]; rewrite Hdec.
          replace (S (S (length pre))) with (length (pre ++ [x5c; c]))
            by (rewrite length_app; simpl; lia).
          rewrite skipn_all, app_nil_r, <- ?app_assoc; reflexivity. }
        { reflexivity. }
        { reflexivity. }
    + destruct (unescaped_int ch Hesc) as [Hq Hb].
      apply (Hgen [ch] lval start (escapeByte_plain ch Hesc)).
      { rewrite length_app; simpl; lia. }
      { assert (HT : pre ++ ([ch] ++ flat_map escapeByte rest) ++ tail
                     = pre ++ ch :: (flat_map escapeByte rest ++ tail))
          by reflexivity.
        rewrite HT, scanString_plain_byte by (solve [exact Hq | left; exact Hb]).
        rewrite <- HT.
        replace (S (length pre)) with (length (pre ++ [ch]))
          by (rewrite length_app; simpl; lia).
        rewrite <- ?app_assoc; reflexivity. }
      { rewrite skipn_app_le by exact Hle.
        rewrite <- ?app_assoc; reflexivity. }
      { reflexivity. }
      { reflexivity. }
Qed.

End ScannerRoundTrip.

Lemma encodeSQLString_is_literal (buf in_ : list byte) :
  encodeSQLString buf in_ = buf ++ literal in_.
Proof.
  pose proof (encodeLoop_spec in_ [] buf 0 (Nat.le_refl 0)) as H.
  cbn [app length skipn Nat.eqb] in H.
  unfold encodeSQLString, literal; exact H.
Qed.

Lemma length_flat_map_escape (in_ : list byte) :
  length in_ <= length (flat_map escapeByte in_).
Proof.
  induction in_ as [|c in_ IH]; simpl; [lia|].
  rewrite length_app; unfold escapeByte at 1.
  destruct (escapeChar c); simpl; lia.
Qed.

Lemma length_flat_map_doubled (q : byte) (in_ : list byte) :
  length in_ <= length (flat_map (doubled q) in_).
Proof.
  induction in_ as [|c in_ IH]; simpl; [lia|].
  rewrite length_app; unfold doubled at 1.
  destruct (Byte.eqb c q); simpl; lia.
Qed.

Section ScannerTheorems.

Variable ERROR : Z.

(** From the opening quote to the closing quote at the end of the input. *)
Lemma scan_finish_escaped (in_ pre : list byte) (lval : sqlSymType) :
  ~ In x00 in_ ->
  let text := pre ++ flat_map escapeByte in_ ++ [x27] in
  scanStringLoop ERROR (S (length text)) (mkScanner text (length pre)) lval
                 39%Z true (length pre)
    = Some (true, mkScanner text (length text),
            mkSym (sym_id lval) (sym_pos lval) (sym_str lval ++ in_)).
Proof.
  intros Hnul text.
  pose proof (length_flat_map_escape in_) as Hlen.
  assert (Hfuel : S (length text)
                  = length in_ + S (length text - length in_)).
  { subst text; rewrite !length_app; simpl; lia. }
  rewrite Hfuel; subst text.
  destruct (scan_escaped_prefix ERROR in_ pre [x27] lval (length pre)
              (S (length (pre ++ flat_map escapeByte in_ ++ [x27])
                  - length in_)) Hnul (Nat.le_refl _))
    as (lval' & start' & Heq & Hs & Hstr & Hid & Hpos).
  rewrite Heq.
  replace (pre ++ flat_map escapeByte in_ ++ [x27])
    with ((pre ++ flat_map escapeByte in_) ++ [x27])
    by (rewrite <- app_assoc; reflexivity).
  change 39%Z with (int x27).
  rewrite scanString_close by exact Hs.
  unfold add_str; rewrite Hstr, Hid, Hpos, skipn_all; reflexivity.
Qed.

Lemma scan_finish_doubled (q : byte) (in_ pre : list byte)
    (lval : sqlSymType) :
  let text := pre ++ flat_map (doubled q) in_ ++ [q] in
  scanStringLoop ERROR (S (length text)) (mkScanner text (length pre)) lval
                 (int q) false (length pre)
    = Some (true, mkScanner text (length text),
            mkSym (sym_id lval) (sym_pos lval) (sym_str lval ++ in_)).
Proof.
  intros text.
  pose proof (length_flat_map_doubled q in_) as Hlen.
  assert (Hfuel : S (length text)
                  = length in_ + S (length text - length in_)).
  { subst text; rewrite !length_app; simpl; lia. }
  rewrite Hfuel; subst text.
  destruct (scan_doubled_prefix ERROR q in_ pre [q] lval (length pre)
              (S (length (pre ++ flat_map (doubled q) in_ ++ [q])
                  - length in_)) (Nat.le_refl _))
    as (lval' & start' & Heq & Hs & Hstr & Hid & Hpos).
  rewrite Heq.
  replace (pre ++ flat_map (doubled q) in_ ++ [q])
    with ((pre ++ flat_map (doubled q) in_) ++ [q])
    by (rewrite <- app_assoc; reflexivity).
  rewrite scanString_close by exact Hs.
  unfold add_str; rewrite Hstr, Hid, Hpos, skipn_all; reflexivity.
Qed.

(** At the end of the input the string is unterminated. *)
Lemma scanString_eof (n : nat) (l : list byte) (q : byte)
    (lval : sqlSymType) (ae : bool) (start : nat) :
  scanStringLoop ERROR (S n) (mkScanner l (length l)) lval (int q) ae start
    = Some (false, mkScanner l (length l),
            mkSym ERROR (sym_pos lval) errUnterminated).
Proof.
  cbn [scanStringLoop]; unfold next; rewrite peek_end, Z.eqb_refl.
  cbn [negb].
  replace (eof =? int q)%Z with false
    by (symmetry; rewrite Z.eqb_sym; apply int_not_eof).
  reflexivity.
Qed.

(** X12. The scanner reads back what [encodeSQLString] writes: for a
    string without a NUL byte, [scanString] started behind the opening
    quote of the literal, with escapes allowed exactly when the literal
    has the e prefix, succeeds at the end of the literal with the string as
    the value of the token. *)
Theorem scanString_encodeSQLString :
  forall (in_ : list byte) (lval : sqlSymType),
    ~ In x00 in_ ->
    let text := encodeSQLString [] in_ in
    let escapes := existsb isEscaped in_ in
    let opening := if escapes then 2 else 1 in
    scanString ERROR (mkScanner text opening) lval 39%Z escapes
      = Some (true, mkScanner text (length text),
              mkSym (sym_id lval) (sym_pos lval) in_).
Proof.
  intros in_ lval Hnul text escapes opening.
  subst text opening escapes.
  rewrite encodeSQLString_is_literal; cbn [app]; unfold literal.
  unfold scanString, scan_fuel; cbn [sc_in sc_pos].
  destruct (existsb isEscaped in_) eqn:E.
  - exact (scan_finish_escaped in_ [char_e; char_quote]
             (mkSym (sym_id lval) (sym_pos lval) []) Hnul).
  - rewrite (flat_map_unescaped in_ E).
    pose proof (scan_finish_doubled x27 in_ [char_quote]
                  (mkSym (sym_id lval) (sym_pos lval) [])) as H.
    rewrite (unescaped_doubled in_ E) in H.
    exact H.
Qed.


(** X13. A NUL byte does not come back: [encodeSQLString] writes it as
    backslash-zero, and [scanString] refuses that escape, so that scanning
    the literal of any string that holds a NUL byte fails with the error
    for unsupported escapes. *)
Theorem scanString_refuses_NUL :
  forall (in_ : list byte) (lval : sqlSymType),
    In x00 in_ ->
    existsb isEscaped in_ = true /\
    exists s',
      scanString ERROR (mkScanner (encodeSQLString [] in_) 2) lval 39%Z true
        = Some (false, s', mkSym ERROR (sym_pos lval) errUnsupportedEscape).
Proof.
  intros in_ lval Hin.
  assert (Hesc : existsb isEscaped in_ = true).
  { apply existsb_exists; exists x00; split; [exact Hin | reflexivity]. }
  split; [exact Hesc|].
  destruct (in_split_first x00 in_ Hin) as (a & b & -> & Hna).
  rewrite encodeSQLString_is_literal; cbn [app]; unfold literal.
  rewrite Hesc, flat_map_app; cbn [flat_map].
  change (escapeByte x00) with [x5c; x30].
  unfold scanString, scan_fuel; cbn [sc_in sc_pos].
  set (tail := x5c :: x30 :: (flat_map escapeByte b ++ [char_quote])).
  assert (HT : [char_e; char_quote]
                 ++ (flat_map escapeByte a ++ [x5c; x30] ++ flat_map escapeByte b)
                 ++ [char_quote]
               = [char_e; char_quote] ++ flat_map escapeByte a ++ tail).
  { subst tail; rewrite <- !app_assoc; reflexivity. }
  rewrite HT.
  pose proof (length_flat_map_escape a) as Hlen.
  set (text := [char_e; char_quote] ++ flat_map escapeByte a ++ tail) in *.
  assert (Hfuel : S (length text) = length a + S (length text - length a)).
  { subst text; rewrite !length_app; simpl; lia. }
  rewrite Hfuel; subst text.
  destruct (scan_escaped_prefix ERROR a [char_e; char_quote] tail
              (mkSym (sym_id lval) (sym_pos lval) []) 2
              (S (length ([char_e; char_quote] ++ flat_map escapeByte a ++ tail)
                  - length a)) Hna (Nat.le_refl _))
    as (lval' & start' & Heq & Hs & Hstr & Hid & Hpos).
  change (length [char_e; char_quote]) with 2 in Heq.
  rewrite Heq; subst tail.
  replace ([char_e; char_quote] ++ flat_map escapeByte a
             ++ x5c :: x30 :: (flat_map escapeByte b ++ [char_quote]))
    with (([char_e; char_quote] ++ flat_map escapeByte a)
            ++ x5c :: x30 :: (flat_map escapeByte b ++ [char_quote]))
    by (rewrite <- app_assoc; reflexivity).
  rewrite scanString_escape_nul, Hpos.
  eexists; reflexivity.
Qed.


(** The scanner passes over the bytes that continue an identifier. *)
Lemma scanIdentLoop_all (rest pre : list byte) (n : nat) :
  forallb (fun b => isIdentMiddle (int b)) rest = true ->
  scanIdentLoop (length rest + S n) (mkScanner (pre ++ rest) (length pre))
    = Some (mkScanner (pre ++ rest) (length (pre ++ rest))).
Proof.
  revert pre; induction rest as [|c rest IH]; intros pre H.
  - cbn [length Nat.add scanIdentLoop]; rewrite app_nil_r, peek_end.
    reflexivity.
  - cbn [forallb] in H; apply andb_prop in H as [Hc Hrest].
    cbn [length Nat.add scanIdentLoop]; rewrite peek_at, Hc.
    unfold advance; cbn [sc_in sc_pos].
    replace (pre ++ c :: rest) with ((pre ++ [c]) ++ rest)
      by (rewrite <- app_assoc; reflexivity).
    replace (S (length pre)) with (length (pre ++ [c]))
      by (rewrite length_app; simpl; lia).
    exact (IH (pre ++ [c]) Hrest).
Qed.

(** X14. The scanner reads back what [encIdent] writes, provided no
    keyword holds a double quote. A string of identifier form that is not a
    keyword is written as it is, and [scanIdent], called behind its first
    byte, reads all of it as an identifier token; any other string is
    written between double quotes, and [scanString], called behind the
    opening quote without escapes, succeeds at the end of the text with
    the string as the value of the token. *)
Theorem scan_encIdent :
  forall (keywordId : list byte -> option Z) (IDENT : Z)
         (s : list byte) (lval : sqlSymType),
    (keywordId s <> None -> ~ In char_dquote s) ->
    let text := encIdent keywordId s in
    match keywordId s with
    | None =>
        if isIdent s then
          text = s /\
          scanIdent keywordId IDENT (mkScanner text 1) lval
            = Some (mkScanner text (length text),
                    mkSym IDENT (sym_pos lval) s)
        else
          scanString ERROR (mkScanner text 1) lval 34%Z false
            = Some (true, mkScanner text (length text),
                    mkSym (sym_id lval) (sym_pos lval) s)
    | Some _ =>
        scanString ERROR (mkScanner text 1) lval 34%Z false
          = Some (true, mkScanner text (length text),
                  mkSym (sym_id lval) (sym_pos lval) s)
    end.
Proof.
  intros keywordId IDENT s lval Hkw text; subst text.
  unfold encIdent; rewrite encodeSQLIdent_quoted; cbn [app].
  destruct (keywordId s) as [k|] eqn:Ek.
  - assert (Hno : ~ In char_dquote s) by (apply Hkw; discriminate).
    pose proof (scan_finish_doubled char_dquote s [char_dquote]
                  (mkSym (sym_id lval) (sym_pos lval) [])) as H.
    rewrite (no_quote_doubled char_dquote s Hno) in H.
    exact H.
  - destruct (isIdent s) eqn:Ei.
    + split; [reflexivity|].
      destruct s as [|c rest]; [discriminate Ei|].
      cbn [isIdent] in Ei; apply andb_prop in Ei as [_ Hrest].
      unfold scanIdent, scan_fuel; cbn [sc_in sc_pos].
      pose proof (scanIdentLoop_all rest [c] 1 Hrest) as H.
      cbn [app length] in H.
      assert (Hf : S (length (c :: rest)) = length rest + 2)
        by (simpl; lia).
      rewrite Hf, H; cbn [sc_in sc_pos].
      replace (slice (c :: rest) (1 - 1) (S (length rest))) with (c :: rest).
      * rewrite Ek; reflexivity.
      * unfold slice; cbn [Nat.sub skipn].
        change (S (length rest)) with (length (c :: rest)).
        rewrite firstn_all; reflexivity.
    + exact (scan_finish_doubled char_dquote s [char_dquote]
               (mkSym (sym_id lval) (sym_pos lval) [])).
Qed.


(** X15. Without a closing quote the string is unterminated: when no byte
    from the position of the scanner to the end of the input is the quote,
    [scanString] without escapes fails with the error for an unterminated
    string, at the end of the input. *)
Theorem scanString_unterminated :
  forall (q : byte) (rest pre : list byte) (lval : sqlSymType),
    ~ In q rest ->
    scanString ERROR (mkScanner (pre ++ rest) (length pre)) lval (int q) false
      = Some (false, mkScanner (pre ++ rest) (length (pre ++ rest)),
              mkSym ERROR (sym_pos lval) errUnterminated).
Proof.
  intros q rest pre lval Hno.
  unfold scanString, scan_fuel; cbn [sc_in sc_pos].
  pose proof (scan_doubled_prefix ERROR q rest pre []
                (mkSym (sym_id lval) (sym_pos lval) []) (length pre)
                (S (length (pre ++ rest) - length rest)) (Nat.le_refl _))
    as (lval' & start' & Heq & Hs & Hstr & Hid & Hpos).
  rewrite (no_quote_doubled q rest Hno), app_nil_r in Heq.
  replace (S (length (pre ++ rest)))
    with (length rest + S (length (pre ++ rest) - length rest))
    by (rewrite length_app; lia).
  rewrite Heq, scanString_eof, Hpos; reflexivity.
Qed.


End ScannerTheorems.

(** A token number for the witnesses below. *)
Definition tokERROR : Z := 57346%Z.

Lemma scanString_encodeSQLString_witness :
  scanString tokERROR (mkScanner (encodeSQLString [] [x61; x0a; x27; x62]) 2)
             (mkSym 0 0 []) 39%Z true
    = Some (true, mkScanner (encodeSQLString [] [x61; x0a; x27; x62]) 9,
            mkSym 0 0 [x61; x0a; x27; x62]).
Proof.
  refine (scanString_encodeSQLString tokERROR [x61; x0a; x27; x62] (mkSym 0 0 []) _).
  simpl; intros H; repeat (destruct H as [H|H]; [discriminate H|]); exact H.
Defined.

Lemma scanString_refuses_NUL_witness :
  exists s',
    scanString tokERROR (mkScanner (encodeSQLString [] [x61; x00]) 2)
               (mkSym 0 0 []) 39%Z true
      = Some (false, s', mkSym tokERROR 0 errUnsupportedEscape).
Proof.
  exact (proj2 (scanString_refuses_NUL tokERROR [x61; x00] (mkSym 0 0 [])
                  (or_intror (or_introl eq_refl)))).
Defined.

Lemma scan_encIdent_witness :
  scanString tokERROR (mkScanner (encIdent (fun _ => None) [x61; x22; x62]) 1)
             (mkSym 0 0 []) 34%Z false
    = Some (true,
            mkScanner (encIdent (fun _ => None) [x61; x22; x62])
                      (length (encIdent (fun _ => None) [x61; x22; x62])),
            mkSym 0 0 [x61; x22; x62]).
Proof.
  refine (scan_encIdent tokERROR (fun _ => None) 0%Z [x61; x22; x62] (mkSym 0 0 []) _).
  intros H; exfalso; apply H; reflexivity.
Defined.

Lemma scanString_unterminated_witness :
  scanString tokERROR (mkScanner [x27; x61; x62] 1) (mkSym 0 0 []) 39%Z false
    = Some (false, mkScanner [x27; x61; x62] 3,
            mkSym tokERROR 0 errUnterminated).
Proof.
  refine (scanString_unterminated tokERROR x27 [x61; x62] [x27] (mkSym 0 0 []) _).
  simpl; intros H; repeat (destruct H as [H|H]; [discriminate H|]); exact H.
Defined.

(** *** Blanks and comments *)

(** The bytes [skipWhitespace] passes over. *)
Definition isBlank (b : byte) : bool :=
  (int b =? 10)%Z || (int b =? 32)%Z || (int b =? 9)%Z || (int b =? 13)%Z
  || (int b =? 12)%Z.

Definition isNewline (b : byte) : bool := (int b =? 10)%Z.

Lemma snoc_position (pre : list byte) (x : byte) :
  S (length pre) = length (pre ++ [x]).
Proof. rewrite length_app; cbn [length]; lia. Qed.

Lemma snoc_text (pre tail : list byte) (x : byte) :
  pre ++ x :: tail = (pre ++ [x]) ++ tail.
Proof. rewrite <- app_assoc; reflexivity. Qed.

Lemma peek_after (pre tail : list byte) :
  peek (mkScanner (pre ++ tail) (length pre))
    = match tail with [] => eof | y :: _ => int y end.
Proof.
  destruct tail as [|y tail].
  - rewrite app_nil_r; apply peek_end.
  - apply peek_at.
Qed.

Lemma not_byte (x y : byte) : x <> y -> (int x =? int y)%Z = false.
Proof.
  intros H; rewrite int_eqb.
  destruct (Byte.eqb x y) eqn:E; [|reflexivity].
  apply Byte.byte_dec_bl in E; contradiction.
Qed.

Section ScannerComments.

Variable ERROR : Z.

Lemma skipWhitespaceLoop_blanks (ws : list byte) :
  forall (pre rest : list byte) (lval : sqlSymType) (newline : bool)
         (fuel : nat),
    forallb isBlank ws = true ->
    match rest with [] => True | c :: _ => isBlank c = false end ->
    length ws < fuel ->
    skipWhitespaceLoop ERROR fuel
        (mkScanner (pre ++ ws ++ rest) (length pre)) lval false newline
      = Some (newline || existsb isNewline ws, true,
              mkScanner (pre ++ ws ++ rest) (length (pre ++ ws)), lval).
Proof.
  induction ws as [|w ws IH]; intros pre rest lval newline fuel Hws Hrest Hf;
    (destruct fuel as [|fuel]; [cbn [length] in Hf; lia|]);
    cbn [skipWhitespaceLoop].
  - cbn [app existsb]; rewrite orb_false_r, app_nil_r, peek_after.
    destruct rest as [|c rest].
    + reflexivity.
    + unfold isBlank in Hrest.
      destruct (int c =? 10)%Z; [discriminate Hrest|].
      cbn [orb] in Hrest; rewrite Hrest; reflexivity.
  - cbn [forallb] in Hws; apply andb_prop in Hws as [Hw Hws].
    cbn [length] in Hf.
    cbn [app]; rewrite peek_at.
    unfold advance; cbn [sc_in sc_pos].
    rewrite (snoc_position pre w), (snoc_text pre _ w).
    cbn [existsb]; unfold isNewline at 1; unfold isBlank in Hw.
    destruct (int w =? 10)%Z.
    + rewrite (IH (pre ++ [w]) rest lval true fuel Hws Hrest ltac:(lia)).
      rewrite <- !app_assoc; cbn [orb app]; rewrite orb_true_r; reflexivity.
    + cbn [orb] in Hw; rewrite Hw.
      rewrite (IH (pre ++ [w]) rest lval newline fuel Hws Hrest ltac:(lia)).
      rewrite <- !app_assoc; reflexivity.
Qed.

(** X26. Without comments [skipWhitespace] passes over the blanks at the
    position of the scanner and nothing else: it stops at the first byte
    that is no newline, space, tab, carriage return or form feed, or at the
    end of the input, reports a newline exactly when one was among the
    blanks, succeeds and leaves the token value alone. *)
Theorem skipWhitespace_blanks :
  forall (pre ws rest : list byte) (lval : sqlSymType),
    forallb isBlank ws = true ->
    match rest with [] => True | c :: _ => isBlank c = false end ->
    skipWhitespace ERROR (mkScanner (pre ++ ws ++ rest) (length pre)) lval false
      = Some (existsb isNewline ws, true,
              mkScanner (pre ++ ws ++ rest) (length (pre ++ ws)), lval).
Proof.
  intros pre ws rest lval Hws Hrest; unfold skipWhitespace.
  rewrite (skipWhitespaceLoop_blanks ws pre rest lval false _ Hws Hrest).
  - reflexivity.
  - unfold scan_fuel; cbn [sc_in]; rewrite !length_app; lia.
Qed.

Lemma lineComment_body (body : list byte) :
  forall (pre tail : list byte) (fuel : nat),
    ~ In x0a body ->
    length body < fuel ->
    lineComment fuel (mkScanner (pre ++ body ++ tail) (length pre))
      = Some (mkScanner (pre ++ body ++ tail)
                (length (pre ++ body)
                 + match tail with
                   | [] => 0
                   | c :: _ => if isNewline c then 1
                               else length tail
                   end))
    \/ (exists c rest, tail = c :: rest /\ isNewline c = false).
Proof.
  induction body as [|b body IH]; intros pre tail fuel Hnl Hf;
    (destruct fuel as [|fuel]; [cbn [length] in Hf; lia|]).
  - destruct tail as [|c rest].
    + left; cbn [lineComment app]; unfold next.
      rewrite !app_nil_r, peek_end; cbn.
      rewrite Nat.add_0_r; reflexivity.
    + destruct (isNewline c) eqn:E; [|right; eauto].
      left; cbn [lineComment app]; rewrite next_at.
      unfold isNewline in E; rewrite E, orb_true_r, app_nil_r.
      f_equal; f_equal; lia.
  - assert (Hb : b <> x0a) by (intros ->; apply Hnl; left; reflexivity).
    assert (Hnl' : ~ In x0a body) by (intros H; apply Hnl; right; exact H).
    cbn [length] in Hf.
    destruct (IH (pre ++ [b]) tail fuel Hnl' ltac:(lia)) as [H|H];
      [left | right; exact H].
    cbn [lineComment app]; rewrite next_at, int_not_eof.
    change 10%Z with (int x0a); rewrite (not_byte b x0a Hb); cbn [orb].
    rewrite (snoc_position pre b), (snoc_text pre _ b), H, <- !app_assoc;
      reflexivity.
Qed.

(** X27. A line comment runs to the end of the line: on two dashes
    followed by bytes that are no newline, [scanComment] reports a comment
    and stops behind the newline that follows them, or at the end of the
    input when none follows; the token value is left alone. *)
Theorem scanComment_line :
  forall (pre body tail : list byte) (lval : sqlSymType),
    ~ In x0a body ->
    (tail = [] \/ exists rest, tail = x0a :: rest) ->
    let text := pre ++ [x2d; x2d] ++ body ++ tail in
    scanComment ERROR (mkScanner text (length pre)) lval
      = Some (true, true,
              mkScanner text
                (length (pre ++ [x2d; x2d] ++ body)
                 + match tail with [] => 0 | _ :: _ => 1 end),
              lval).
Proof.
  intros pre body tail lval Hnl Htail text; subst text.
  unfold scanComment; cbn [app].
  rewrite peek_at; change (int x2d) with 45%Z; cbn [Z.eqb Pos.eqb].
  unfold advance; cbn [sc_in sc_pos].
  rewrite (snoc_position pre x2d), (snoc_text pre _ x2d), peek_at.
  change (int x2d) with 45%Z; cbn [Z.eqb Pos.eqb negb].
  assert (Hf : length (x2d :: body)
               < scan_fuel (mkScanner ((pre ++ [x2d]) ++ x2d :: body ++ tail)
                              (length pre))).
  { unfold scan_fuel; cbn [sc_in]; rewrite !length_app; cbn [length];
      rewrite length_app; lia. }
  assert (Hnl' : ~ In x0a (x2d :: body)).
  { intros [H|H]; [discriminate H | exact (Hnl H)]. }
  destruct (lineComment_body (x2d :: body) (pre ++ [x2d]) tail _ Hnl' Hf)
    as [H | (c & rest & -> & Hc)].
  - cbn [app] in H; rewrite H.
    rewrite <- !app_assoc; cbn [app].
    destruct Htail as [-> | (rest & ->)]; reflexivity.
  - destruct Htail as [H | (rest' & H)]; [discriminate H|].
    injection H as -> _; discriminate Hc.
Qed.

Lemma blockComment_no_star (rest : list byte) :
  forall (pre : list byte) (fuel : nat) (depth : Z),
    ~ In x2a rest ->
    length rest < fuel ->
    blockComment fuel (mkScanner (pre ++ rest) (length pre)) depth
      = Some (false, mkScanner (pre ++ rest) (length (pre ++ rest))).
Proof.
  induction rest as [|x rest IH]; intros pre fuel depth Hstar Hf;
    (destruct fuel as [|fuel]; [cbn [length] in Hf; lia|]);
    cbn [blockComment].
  - unfold next; rewrite app_nil_r, peek_end; reflexivity.
  - assert (Hx : x <> x2a) by (intros ->; apply Hstar; left; reflexivity).
    assert (Hstar' : ~ In x2a rest)
      by (intros H; apply Hstar; right; exact H).
    cbn [length] in Hf.
    rewrite next_at.
    change 42%Z with (int x2a); rewrite (not_byte x x2a Hx).
    rewrite (snoc_position pre x), (snoc_text pre _ x), peek_after,
      int_not_eof.
    assert (Hp : (match rest with [] => eof | y :: _ => int y end
                  =? int x2a)%Z = false).
    { destruct rest as [|y rest]; [reflexivity|].
      apply not_byte; intros ->; apply Hstar'; left; reflexivity. }
    rewrite Hp.
    rewrite (IH (pre ++ [x]) fuel depth Hstar' ltac:(lia)), <- app_assoc.
    destruct (int x =? 47)%Z; reflexivity.
Qed.

(** X28. A block comment that is never closed is an error: when no star
    follows the opening, [scanComment] reads to the end of the input and
    fails, with the error token for an unterminated comment at the position
    where the comment began. *)
Theorem scanComment_unterminated :
  forall (pre rest : list byte) (lval : sqlSymType),
    ~ In x2a rest ->
    let text := pre ++ [x2f; x2a] ++ rest in
    scanComment ERROR (mkScanner text (length pre)) lval
      = Some (false, false, mkScanner text (length text),
              mkSym ERROR (length pre) errUnterminatedComment).
Proof.
  intros pre rest lval Hstar text; subst text.
  unfold scanComment; cbn [app].
  rewrite peek_at; change (int x2f) with 47%Z; cbn [Z.eqb Pos.eqb].
  unfold advance; cbn [sc_in sc_pos].
  rewrite (snoc_position pre x2f), (snoc_text pre _ x2f), peek_at.
  change (int x2a) with 42%Z; cbn [Z.eqb Pos.eqb negb].
  rewrite (snoc_position (pre ++ [x2f]) x2a),
    (snoc_text (pre ++ [x2f]) _ x2a).
  rewrite blockComment_no_star.
  - rewrite <- !app_assoc; reflexivity.
  - exact Hstar.
  - unfold scan_fuel; cbn [sc_in]; rewrite !length_app; cbn [length]; lia.
Qed.

Lemma blockComment_plain (a : list byte) :
  forall (pre tail : list byte) (fuel : nat) (depth : Z),
    ~ In x2a a -> ~ In x2f a ->
    blockComment (length a + fuel)
        (mkScanner (pre ++ a ++ tail) (length pre)) depth
      = blockComment fuel
          (mkScanner (pre ++ a ++ tail) (length (pre ++ a))) depth.
Proof.
  induction a as [|x a IH]; intros pre tail fuel depth Hstar Hslash.
  - cbn [app length Nat.add]; rewrite app_nil_r; reflexivity.
  - assert (Hx : x <> x2a) by (intros ->; apply Hstar; left; reflexivity).
    assert (Hy : x <> x2f) by (intros ->; apply Hslash; left; reflexivity).
    cbn [length Nat.add blockComment app]; rewrite next_at.
    change 42%Z with (int x2a); rewrite (not_byte x x2a Hx).
    change 47%Z with (int x2f); rewrite (not_byte x x2f Hy).
    rewrite int_not_eof, (snoc_position pre x), (snoc_text pre _ x).
    rewrite (IH (pre ++ [x]) tail fuel depth), <- !app_assoc;
      [reflexivity | |]; intros H; [apply Hstar | apply Hslash];
      right; exact H.
Qed.

(** X29. A block comment ends at the first star-slash: when neither a star
    nor a slash stands between the opening and a star-slash,
    [scanComment] reports a comment and stops behind the star-slash,
    whatever follows; the token value is left alone. *)
Theorem scanComment_block :
  forall (pre a rest : list byte) (lval : sqlSymType),
    ~ In x2a a -> ~ In x2f a ->
    let text := pre ++ [x2f; x2a] ++ a ++ [x2a; x2f] ++ rest in
    scanComment ERROR (mkScanner text (length pre)) lval
      = Some (true, true,
              mkScanner text (length (pre ++ [x2f; x2a] ++ a ++ [x2a; x2f])),
              lval).
Proof.
  intros pre a rest lval Hstar Hslash text; subst text.
  unfold scanComment; cbn [app].
  rewrite peek_at; change (int x2f) with 47%Z; cbn [Z.eqb Pos.eqb].
  unfold advance; cbn [sc_in sc_pos].
  rewrite (snoc_position pre x2f), (snoc_text pre _ x2f), peek_at.
  change (int x2a) with 42%Z; cbn [Z.eqb Pos.eqb negb].
  rewrite (snoc_position (pre ++ [x2f]) x2a),
    (snoc_text (pre ++ [x2f]) _ x2a).
  assert (Hfuel : exists k,
             scan_fuel (mkScanner
                          (((pre ++ [x2f]) ++ [x2a]) ++ a ++ x2a :: x2f :: rest)
                          (length pre)) = length a + S k).
  { unfold scan_fuel; cbn [sc_in].
    exists (length pre + 4 + length rest).
    rewrite !length_app; cbn [length]; lia. }
  destruct Hfuel as [k ->].
  rewrite (blockComment_plain a _ (x2a :: x2f :: rest) (S k) 1 Hstar Hslash).
  cbn [blockComment].
  rewrite app_assoc, next_at.
  change (int x2a) with 42%Z; cbn [Z.eqb Pos.eqb].
  set (P := ((pre ++ [x2f]) ++ [x2a]) ++ a).
  rewrite (snoc_position P x2a), (snoc_text P _ x2a), peek_at.
  change (int x2f) with 47%Z; cbn [Z.eqb Pos.eqb].
  change (1 - 1 =? 0)%Z with true; cbn iota.
  unfold advance; cbn [sc_in sc_pos].
  replace (S (length (P ++ [x2a])))
    with (length (pre ++ x2f :: x2a :: a ++ [x2a; x2f])).
  - reflexivity.
  - subst P; rewrite !length_app; cbn [length]; rewrite !length_app;
      cbn [length]; lia.
Qed.

End ScannerComments.

Lemma skipWhitespace_blanks_witness :
  skipWhitespace tokERROR
      (mkScanner ([x61] ++ [x20; x0a; x09] ++ [x62]) (length [x61]))
      (mkSym 0 0 []) false
    = Some (existsb isNewline [x20; x0a; x09], true,
            mkScanner ([x61] ++ [x20; x0a; x09] ++ [x62])
                      (length ([x61] ++ [x20; x0a; x09])),
            mkSym 0 0 []).
Proof.
  apply (skipWhitespace_blanks tokERROR [x61] [x20; x0a; x09] [x62]
           (mkSym 0 0 [])); reflexivity.
Defined.

Lemma scanComment_line_witness :
  scanComment tokERROR
      (mkScanner ([x61] ++ [x2d; x2d] ++ [x62; x63] ++ [x0a; x64])
                 (length [x61]))
      (mkSym 0 0 [])
    = Some (true, true,
            mkScanner ([x61] ++ [x2d; x2d] ++ [x62; x63] ++ [x0a; x64])
                      (length ([x61] ++ [x2d; x2d] ++ [x62; x63]) + 1),
            mkSym 0 0 []).
Proof.
  apply (scanComment_line tokERROR [x61] [x62; x63] [x0a; x64]
           (mkSym 0 0 [])).
  - simpl; intros H; repeat (destruct H as [H|H]; [discriminate H|]);
      exact H.
  - right; exists [x64]; reflexivity.
Defined.

Lemma scanComment_unterminated_witness :
  scanComment tokERROR
      (mkScanner ([x61] ++ [x2f; x2a] ++ [x62; x2f]) (length [x61]))
      (mkSym 0 0 [])
    = Some (false, false,
            mkScanner ([x61] ++ [x2f; x2a] ++ [x62; x2f])
                      (length ([x61] ++ [x2f; x2a] ++ [x62; x2f])),
            mkSym tokERROR (length [x61]) errUnterminatedComment).
Proof.
  apply (scanComment_unterminated tokERROR [x61] [x62; x2f] (mkSym 0 0 [])).
  simpl; intros H; repeat (destruct H as [H|H]; [discriminate H|]); exact H.
Defined.

Lemma scanComment_block_witness :
  scanComment tokERROR
      (mkScanner ([x61] ++ [x2f; x2a] ++ [x62] ++ [x2a; x2f] ++ [x63])
                 (length [x61]))
      (mkSym 0 0 [])
    = Some (true, true,
            mkScanner ([x61] ++ [x2f; x2a] ++ [x62] ++ [x2a; x2f] ++ [x63])
                      (length ([x61] ++ [x2f; x2a] ++ [x62] ++ [x2a; x2f])),
            mkSym 0 0 []).
Proof.
  apply (scanComment_block tokERROR [x61] [x62] [x63] (mkSym 0 0 []));
    simpl; intros H; repeat (destruct H as [H|H]; [discriminate H|]);
    exact H.
Defined.

End parser.

(** ** Package [multiraft]: the in-memory storage *)

Module multiraft.

Local Open Scope nat_scope.

(** The address of a [raft.MemoryStorage] object: group storages are
    handed out by reference, and two results are the same object when they
    are the same address. *)
Definition ref := nat.

Record Entry := mkEntry { Index : Z; Term : Z; Data : list byte }.

(** The content of a [raft.MemoryStorage]. *)
Record GroupStore := mkGroupStore {
  hardState : Z * Z * Z;
  snapshot : list byte;
  ents : list Entry
}.

(** [raft.NewMemoryStorage]: an empty storage whose log holds the dummy
    entry at index zero. *)
Definition raft_NewMemoryStorage : GroupStore :=
  {| hardState := (0, 0, 0)%Z; snapshot := []; ents := [mkEntry 0 0 []] |}.

(** A [MemoryStorage] and the objects it refers to: the map [groups] from
    group ID to the address of the group's storage, and the store of the
    objects allocated so far, an address being a position in it. *)
Record MemoryStorage := mkMemoryStorage {
  groups : gmap Z ref;
  objects : list GroupStore
}.

Definition NewMemoryStorage : MemoryStorage :=
  {| groups := ∅; objects := [] |}.

(** [MemoryStorage.GroupStorage], under the mutex of the storage: the
    result and the storage after the call. *)
Definition GroupStorage (m : MemoryStorage) (groupID : RangeID)
    : ref * MemoryStorage :=
  match groups m !! groupID with
  | Some g => (g, m)
  | None =>
      let g := length (objects m) in
      (g, {| groups := <[groupID := g]> (groups m);
             objects := objects m ++ [raft_NewMemoryStorage] |})
  end.

(** A run of calls, one per group ID of the list. *)
Definition GroupStorage_all (m : MemoryStorage) (ids : list RangeID)
    : MemoryStorage :=
  fold_left (fun m id => snd (GroupStorage m id)) ids m.

(** *** Properties *)

Lemma GroupStorage_keeps (m : MemoryStorage) (id id' : RangeID) (g : ref) :
  groups m !! id = Some g ->
  groups (snd (GroupStorage m id')) !! id = Some g.
Proof.
  intros H; unfold GroupStorage.
  destruct (groups m !! id') as [g'|] eqn:E; simpl; [exact H|].
  rewrite lookup_insert_ne; [exact H | congruence].
Qed.

Lemma GroupStorage_all_keeps (ids : list RangeID) (m : MemoryStorage)
    (id : RangeID) (g : ref) :
  groups m !! id = Some g ->
  groups (GroupStorage_all m ids) !! id = Some g.
Proof.
  revert m; induction ids as [|id' ids IH]; intros m H; simpl; [exact H|].
  apply IH, GroupStorage_keeps, H.
Qed.

Lemma GroupStorage_objects (m : MemoryStorage) (id : RangeID) (a : ref) :
  a < length (objects m) ->
  objects (snd (GroupStorage m id)) !! a = objects m !! a.
Proof.
  intros H; unfold GroupStorage.
  destruct (groups m !! id); simpl; [reflexivity|].
  apply lookup_app_l; exact H.
Qed.

(** C10. The first call for a group allocates a new storage object, one
    that did not exist before, and records it; every later call for the same
    group, whatever calls for any groups come in between, returns that same
    object and changes nothing; no call changes the object recorded for
    another group, nor any object that already exists. *)
Theorem GroupStorage_idempotent :
  forall (m : MemoryStorage) (groupID : RangeID),
    let g := fst (GroupStorage m groupID) in
    let m1 := snd (GroupStorage m groupID) in
    (groups m !! groupID = None ->
       g = length (objects m) /\
       objects m !! g = None /\
       objects m1 !! g = Some raft_NewMemoryStorage) /\
    groups m1 !! groupID = Some g /\
    GroupStorage m1 groupID = (g, m1) /\
    (forall ids : list RangeID,
        let m2 := GroupStorage_all m1 ids in
        GroupStorage m2 groupID = (g, m2)) /\
    (forall other : RangeID,
        other <> groupID -> groups m1 !! other = groups m !! other) /\
    (forall a : ref,
        a < length (objects m) -> objects m1 !! a = objects m !! a).
Proof.
  intros m groupID g m1.
  assert (Hg : groups m1 !! groupID = Some g).
  { subst g m1; unfold GroupStorage.
    destruct (groups m !! groupID) as [g0|] eqn:E; simpl; [exact E|].
    apply lookup_insert_eq. }
  assert (Hagain : forall m', groups m' !! groupID = Some g ->
                              GroupStorage m' groupID = (g, m')).
  { intros m' H; unfold GroupStorage; rewrite H; reflexivity. }
  split; [|split; [exact Hg|split; [exact (Hagain m1 Hg)|split; [|split]]]].
  - intros Hnone; subst g m1; unfold GroupStorage; rewrite Hnone; simpl.
    split; [reflexivity|]; split.
    + apply lookup_ge_None; lia.
    + rewrite lookup_app_r by lia.
      rewrite Nat.sub_diag; reflexivity.
  - intros ids m2; apply Hagain.
    subst m2; apply GroupStorage_all_keeps; exact Hg.
  - intros other Hne; subst m1; unfold GroupStorage.
    destruct (groups m !! groupID); simpl; [reflexivity|].
    apply lookup_insert_ne; congruence.
  - intros a Ha; subst m1; apply GroupStorage_objects; exact Ha.
Qed.

Lemma GroupStorage_idempotent_witness :
  fst (GroupStorage NewMemoryStorage 7%Z) = 0 /\
  objects NewMemoryStorage !! 0 = None /\
  objects (snd (GroupStorage NewMemoryStorage 7%Z)) !! 0
    = Some raft_NewMemoryStorage.
Proof.
  exact (proj1 (GroupStorage_idempotent NewMemoryStorage 7%Z) eq_refl).
Defined.

(** Two groups get two objects, and asking again gives the first one. *)
Example GroupStorage_two_groups :
  let m1 := snd (GroupStorage NewMemoryStorage 1%Z) in
  let m2 := snd (GroupStorage m1 2%Z) in
  fst (GroupStorage NewMemoryStorage 1%Z) = 0 /\
  fst (GroupStorage m1 2%Z) = 1 /\
  fst (GroupStorage m2 1%Z) = 0.
Proof. repeat split; reflexivity. Qed.

End multiraft.

(** ** Package [cli] and [main]: the command line utility *)

Module cli.

(** What a command writes: the usage text, a line of the error log, or a
    line of standard output. *)
Inductive Output :=
| Usage
| LogError (err : string)
| Printf (text : string)
| Stderr (text : string).

Section Commands.

(** The admin client of the zone endpoint and the file system, which live
    outside the source tree; an error is known by its text. *)
Variable GetYAML : string -> string + string.
Variable List_ : unit -> list string + string.
Variable Delete_ : string -> option string.
Variable SetYAML : string -> string -> option string.
Variable ReadFile : string -> string + string.

(** Formatting by [fmt.Printf] and [log.Errorf], kept abstract. *)
Variable format : string -> list string -> string.

(** [runGetZone]. A handler has the type of the field [Run] of a
    [cobra.Command]: it returns nothing, so what it does is what it
    writes. *)
Definition runGetZone (args : list string) : list Output :=
  match args with
  | [prefix] =>
      match GetYAML prefix with
      | inr err => [LogError err]
      | inl body => [Printf (format "Zone config for prefix %q:\n%s\n"
                                    [prefix; body])]
      end
  | _ => [Usage]
  end.

(** [runLsZones]. *)
Definition runLsZones (args : list string) : list Output :=
  match args with
  | [] =>
      match List_ tt with
      | inr err => [LogError err]
      | inl list => [Printf (format "Zone keys:\n%s\n" list)]
      end
  | _ => [Usage]
  end.

(** [runRmZone]. *)
Definition runRmZone (args : list string) : list Output :=
  match args with
  | [prefix] =>
      match Delete_ prefix with
      | Some err => [LogError err]
      | None => [Printf (format "Deleted zone key %q\n" [prefix])]
      end
  | _ => [Usage]
  end.

(** [runSetZone]. *)
Definition runSetZone (args : list string) : list Output :=
  match args with
  | [prefix; file] =>
      match ReadFile file with
      | inr err =>
          [LogError (format "unable to read zone config file %q: %s"
                            [file; err])]
      | inl body =>
          match SetYAML prefix body with
          | Some err => [LogError err]
          | None => [Printf (format "Wrote zone config to %q\n" [prefix])]
          end
      end
  | _ => [Usage]
  end.



(** The commands other than [zone] are not in the source tree: what they
    write and the error they return are taken as they come. *)
Variable other_commands : list string -> list Output * option string.





End Commands.

(** *** Properties *)

(** A server that cannot be reached: every call of the admin client fails. *)
Definition unreachable : string := "connection refused".





(** *** Further properties of the zone commands *)

(** X7. A zone command that is given the wrong number of arguments prints
    its usage and nothing else, whatever the server or the file system
    would answer: [get] and [rm] take one argument, [ls] none, [set] two. *)
Theorem zone_usage :
  forall (GetYAML : string -> string + string)
         (List_ : unit -> list string + string)
         (Delete_ : string -> option string)
         (SetYAML : string -> string -> option string)
         (ReadFile : string -> string + string)
         (format : string -> list string -> string)
         (args : list string),
    (length args <> 1%nat -> runGetZone GetYAML format args = [Usage]) /\
    (length args <> 0%nat -> runLsZones List_ format args = [Usage]) /\
    (length args <> 1%nat -> runRmZone Delete_ format args = [Usage]) /\
    (length args <> 2%nat ->
     runSetZone SetYAML ReadFile format args = [Usage]).
Proof.
  intros GetYAML List_ Delete_ SetYAML ReadFile format args.
  repeat split; intros H.
  - destruct args as [|a [|b rest]]; simpl in *; try reflexivity.
    exfalso; apply H; reflexivity.
  - destruct args as [|a rest]; simpl in *; try reflexivity.
    exfalso; apply H; reflexivity.
  - destruct args as [|a [|b rest]]; simpl in *; try reflexivity.
    exfalso; apply H; reflexivity.
  - destruct args as [|a [|b [|c rest]]]; simpl in *; try reflexivity.
    exfalso; apply H; reflexivity.
Qed.

Lemma zone_usage_witness :
  runSetZone (fun _ _ => None) (fun _ => inl "replicas: []"%string)
             (fun f _ => f) ["db"%string] = [Usage].
Proof.
  refine (proj2 (proj2 (proj2 (zone_usage
            (fun _ => inr unreachable) (fun _ => inr unreachable)
            (fun _ => Some unreachable) (fun _ _ => None)
            (fun _ => inl "replicas: []"%string) (fun f _ => f)
            ["db"%string]))) _).
  simpl; lia.
Defined.

(** X8. With the right arguments a zone command writes exactly one line:
    the error log when the server (or, for [set], the file system) fails,
    standard output otherwise. [set] reads the file first: when the file
    cannot be read the server is not asked, the line is the same whatever
    the server would answer. *)
Theorem zone_one_line :
  forall (GetYAML : string -> string + string)
         (Delete_ : string -> option string)
         (SetYAML SetYAML' : string -> string -> option string)
         (ReadFile : string -> string + string)
         (format : string -> list string -> string)
         (prefix file : string),
    (exists line, runGetZone GetYAML format [prefix] = [line] /\
       match GetYAML prefix with
       | inr err => line = LogError err
       | inl _ => exists text, line = Printf text
       end) /\
    (exists line, runRmZone Delete_ format [prefix] = [line] /\
       match Delete_ prefix with
       | Some err => line = LogError err
       | None => exists text, line = Printf text
       end) /\
    (exists line, runSetZone SetYAML ReadFile format [prefix; file] = [line] /\
       match ReadFile file with
       | inr _ =>
           (exists text, line = LogError text) /\
           runSetZone SetYAML' ReadFile format [prefix; file] = [line]
       | inl body =>
           match SetYAML prefix body with
           | Some err => line = LogError err
           | None => exists text, line = Printf text
           end
       end).
Proof.
  intros GetYAML Delete_ SetYAML SetYAML' ReadFile format prefix file.
  split; [|split]; simpl.
  - destruct (GetYAML prefix); eexists; split; eauto.
  - destruct (Delete_ prefix); eexists; split; eauto.
  - destruct (ReadFile file) as [body|err].
    + destruct (SetYAML prefix body); eexists; split; eauto.
    + eexists; split; [reflexivity|]; split; eauto.
Qed.

End cli.

(** ** Package [storage]: the command queue *)

Module storage.

Local Open Scope Z_scope.

(** The order of keys: byte strings compared lexicographically. *)
Fixpoint Key_Less (a b : Key) : bool :=
  match a, b with
  | [], [] => false
  | [], _ :: _ => true
  | _ :: _, [] => false
  | x :: a', y :: b' =>
      if (Byte.to_N x <? Byte.to_N y)%N then true
      else if Byte.eqb x y then Key_Less a' b' else false
  end.

(** [Key.Next]: the first key after [k]. *)
Definition Key_Next (k : Key) : Key := k ++ [x00].

(** The identity of a [sync.WaitGroup]: the barrier handed to [GetWait]. *)
Definition WaitGroup := nat.

(** Modelled from the spec: the command queue ([storage/command_queue.go])
    is not part of the source tree, only its tests are. Section 4.2: [Add]
    registers a pending command and returns a handle; [GetWait] registers a
    barrier that completes once all conflicting previously registered
    commands have been removed; two commands conflict iff their key ranges
    overlap and at least one is not read-only; [Remove] finalizes the
    command and releases the barriers waiting on it; [Clear] releases all
    barriers. From the tests: the barrier is a wait group, which is complete
    when its counter is zero, and a nil end key makes the range the single
    key [start]. *)
Record cmd := mkCmd {
  ID : Z;
  cmd_start : Key;
  cmd_end : Key;
  readOnly : bool;
  pending : list WaitGroup
}.

Record State := mkState {
  cache : list cmd;
  idAlloc : Z;
  counter : WaitGroup -> Z
}.

Definition NewCommandQueue : State :=
  {| cache := []; idAlloc := 0; counter := fun _ => 0 |}.

Definition span_end (start : Key) (end_ : option Key) : Key :=
  match end_ with
  | None => Key_Next start
  | Some e => e
  end.

(** The ranges [s1, e1) and [s2, e2) overlap. *)
Definition overlaps (s1 e1 s2 e2 : Key) : bool :=
  Key_Less s1 e2 && Key_Less s2 e1.

(** A command on [start, e) conflicts with the registered command [c]. *)
Definition conflicts (start e : Key) (ro : bool) (c : cmd) : bool :=
  overlaps start e (cmd_start c) (cmd_end c) && (negb ro || negb (readOnly c)).

(** [wg.Add(delta)]; [wg.Done()] is [wg.Add(-1)]. *)
Definition wg_Add (ctr : WaitGroup -> Z) (w : WaitGroup) (delta : Z)
    : WaitGroup -> Z :=
  fun x => if Nat.eqb x w then ctr x + delta else ctr x.

Definition add_pending (c : cmd) (w : WaitGroup) : cmd :=
  {| ID := ID c; cmd_start := cmd_start c; cmd_end := cmd_end c;
     readOnly := readOnly c; pending := pending c ++ [w] |}.

(** Modelled from the spec: [Add] registers a pending command and returns
    its handle; the result is the handle and the state after. *)
Definition Add (st : State) (start : Key) (end_ : option Key) (ro : bool)
    : Z * State :=
  (idAlloc st,
   {| cache := cache st ++ [mkCmd (idAlloc st) start (span_end start end_)
                                  ro []];
      idAlloc := idAlloc st + 1;
      counter := counter st |}).

(** Modelled from the spec: [GetWait] registers the barrier on every
    registered command that conflicts, adding one to its counter for each;
    this is the loop over the registered commands. *)
Fixpoint GetWait_cmds (cmds : list cmd) (start e : Key) (ro : bool)
    (w : WaitGroup) (ctr : WaitGroup -> Z) : list cmd * (WaitGroup -> Z) :=
  match cmds with
  | [] => ([], ctr)
  | c :: rest =>
      if conflicts start e ro c then
        let (rest', ctr') := GetWait_cmds rest start e ro w (wg_Add ctr w 1) in
        (add_pending c w :: rest', ctr')
      else
        let (rest', ctr') := GetWait_cmds rest start e ro w ctr in
        (c :: rest', ctr')
  end.

Definition GetWait (st : State) (start : Key) (end_ : option Key) (ro : bool)
    (w : WaitGroup) : State :=
  let (cmds, ctr) :=
    GetWait_cmds (cache st) start (span_end start end_) ro w (counter st) in
  {| cache := cmds; idAlloc := idAlloc st; counter := ctr |}.

(** Modelled from the spec: [Remove] finalizes the command of a handle and
    releases the barriers waiting on it, taking one from the counter of each;
    a handle that is not registered changes nothing. [Clear] does so for
    every command and empties the queue. *)
Fixpoint release (ws : list WaitGroup) (ctr : WaitGroup -> Z)
    : WaitGroup -> Z :=
  match ws with
  | [] => ctr
  | w :: rest => release rest (wg_Add ctr w (-1))
  end.

Fixpoint Remove_cmds (cmds : list cmd) (key : Z) (ctr : WaitGroup -> Z)
    : list cmd * (WaitGroup -> Z) :=
  match cmds with
  | [] => ([], ctr)
  | c :: rest =>
      if ID c =? key then (rest, release (pending c) ctr)
      else
        let (rest', ctr') := Remove_cmds rest key ctr in
        (c :: rest', ctr')
  end.

Definition Remove (st : State) (key : Z) : State :=
  let (cmds, ctr) := Remove_cmds (cache st) key (counter st) in
  {| cache := cmds; idAlloc := idAlloc st; counter := ctr |}.

Definition Clear (st : State) : State :=
  {| cache := [];
     idAlloc := idAlloc st;
     counter := fold_left (fun ctr c => release (pending c) ctr)
                          (cache st) (counter st) |}.







(** The number of registrations of [w] on the commands of a queue. *)
Fixpoint waiting (cmds : list cmd) (w : WaitGroup) : Z :=
  match cmds with
  | [] => 0
  | c :: rest => Z.of_nat (count_occ Nat.eq_dec (pending c) w) + waiting rest w
  end.

(** The invariant of a queue: every counter is the number of registrations
    of its wait group, and handles are distinct and below [idAlloc]. *)
Record inv (st : State) : Prop := mkInv {
  inv_counter : forall w, counter st w = waiting (cache st) w;
  inv_ids : Forall (fun c => ID c < idAlloc st) (cache st);
  inv_nodup : List.NoDup (map ID (cache st))
}.

(** *** The tests of the queue, replayed *)

Definition key_a : Key := [x61].
Definition key_b : Key := [x62].
Definition key_c : Key := [x63].
Definition key_d : Key := [x64].
Definition key_0 : Key := [x30].
Definition key_cc : Key := [x63; x63].

(** TestCommandQueueNoWaitOnReadOnly. *)
Example TestCommandQueueNoWaitOnReadOnly :
  let (wk, st1) := Add NewCommandQueue key_a None true in
  let st2 := GetWait st1 key_a None true 0%nat in
  let st3 := GetWait st2 key_a None false 0%nat in
  let st4 := Remove st3 wk in
  counter st2 0%nat = 0 /\ counter st3 0%nat = 1 /\ counter st4 0%nat = 0.
Proof. repeat split; reflexivity. Qed.

(** TestCommandQueueMultipleExecutingCommands. *)
Example TestCommandQueueMultipleExecutingCommands :
  let (wk1, st1) := Add NewCommandQueue key_a None false in
  let (wk2, st2) := Add st1 key_b (Some key_c) false in
  let (wk3, st3) := Add st2 key_0 (Some key_d) false in
  let st4 := GetWait st3 key_a (Some key_cc) false 0%nat in
  let st5 := Remove st4 wk1 in
  let st6 := Remove st5 wk2 in
  let st7 := Remove st6 wk3 in
  counter st4 0%nat = 3 /\ counter st5 0%nat = 2 /\
  counter st6 0%nat = 1 /\ counter st7 0%nat = 0.
Proof. repeat split; reflexivity. Qed.

(** TestCommandQueueClear. *)
Example TestCommandQueueClear :
  let st1 := snd (Add NewCommandQueue key_a None false) in
  let st2 := snd (Add st1 key_b None false) in
  let st3 := GetWait st2 key_a None false 1%nat in
  let st4 := GetWait st3 key_b None false 2%nat in
  let st5 := Clear st4 in
  counter st4 1%nat = 1 /\ counter st4 2%nat = 1 /\
  counter st5 1%nat = 0 /\ counter st5 2%nat = 0.
Proof. repeat split; reflexivity. Qed.

(** *** Properties *)

Lemma wg_Add_same (ctr : WaitGroup -> Z) (w : WaitGroup) (d : Z) :
  wg_Add ctr w d w = ctr w + d.
Proof. unfold wg_Add; rewrite Nat.eqb_refl; reflexivity. Qed.

Lemma wg_Add_other (ctr : WaitGroup -> Z) (w x : WaitGroup) (d : Z) :
  x <> w -> wg_Add ctr w d x = ctr x.
Proof.
  intros H; unfold wg_Add.
  destruct (Nat.eqb_spec x w); [contradiction | reflexivity].
Qed.

Lemma release_counter (ws : list WaitGroup) (ctr : WaitGroup -> Z)
    (x : WaitGroup) :
  release ws ctr x = ctr x - Z.of_nat (count_occ Nat.eq_dec ws x).
Proof.
  revert ctr; induction ws as [|w ws IH]; intros ctr; simpl; [lia|].
  rewrite IH; destruct (Nat.eq_dec w x) as [->|Hne].
  - rewrite wg_Add_same; lia.
  - rewrite wg_Add_other by congruence; lia.
Qed.


















Lemma Clear_counter (cmds : list cmd) (ctr : WaitGroup -> Z) (x : WaitGroup) :
  fold_left (fun ctr c => release (pending c) ctr) cmds ctr x
    = ctr x - waiting cmds x.
Proof.
  revert ctr; induction cmds as [|c cmds IH]; intros ctr; simpl; [lia|].
  rewrite IH, release_counter; lia.
Qed.



(** [Clear] releases every barrier. *)
Lemma Clear_releases_all (st : State) (w : WaitGroup) :
  inv st -> counter (Clear st) w = 0 /\ cache (Clear st) = [].
Proof.
  intros Hinv; split; [|reflexivity].
  simpl; rewrite Clear_counter, (inv_counter st Hinv); lia.
Qed.

















End storage.

(** ** Package [storage/engine]: multi-version values *)

Module engine.

Local Open Scope Z_scope.

#[global] Instance byte_eq_decision : EqDecision byte := Byte.byte_eq_dec.

Lemma byte_of_to_N (b : byte) :
  default x00 (Byte.of_N (Byte.to_N b)) = b.
Proof. rewrite Byte.of_to_N; reflexivity. Qed.

#[global] Instance byte_countable : Countable byte :=
  inj_countable' Byte.to_N (fun n => default x00 (Byte.of_N n)) byte_of_to_N.

(** The order of timestamps: wall time first, then the logical counter. *)
Definition Timestamp_Less (a b : Timestamp) : bool :=
  (WallTime a <? WallTime b)
  || ((WallTime a =? WallTime b) && (Logical a <? Logical b)).

Definition Timestamp_LessEq (a b : Timestamp) : bool :=
  negb (Timestamp_Less b a).

Definition Timestamp_Add (a : Timestamp) (nanos : Z) : Timestamp :=
  {| WallTime := WallTime a + nanos; Logical := Logical a |}.

(** [MVCCValue]: a versioned value or a deletion tombstone. *)
Record MVCCValue := mkMVCCValue {
  mv_Deleted : bool;
  mv_Value : option Value
}.

(** [MVCCMetadata]: the metadata of a key. *)
Record MVCCMetadata := mkMVCCMetadata {
  meta_Txn : option Transaction;
  meta_Timestamp : Timestamp;
  meta_Deleted : bool;
  meta_KeyBytes : Z;
  meta_ValBytes : Z;
  meta_Value : option Value
}.

(** What the engine holds under a key: the metadata record and the
    versioned records, newest first. *)
Record KeyRecord := mkKeyRecord {
  meta : MVCCMetadata;
  versions : list (Timestamp * MVCCValue)
}.

Definition sameTxn (a b : Transaction) : bool :=
  if decide (txn_ID a = txn_ID b) then true else false.

Section MVCC.

(** The maximum clock offset, in nanoseconds, and what a transaction has
    observed of a key before. *)
Variable maxOffset : Z.
Variable observed : Transaction -> Key -> bool.

(** The sizes of an encoded key and value, which the metadata records. *)
Variable keySize : Key -> Z.
Variable valSize : Value -> Z.

(** Modelled from the spec: the MVCC operations ([storage/engine/mvcc.go])
    are not part of the source tree. Section 4.1: [Put] creates a version at
    the write timestamp; if there is an existing version at a timestamp not
    below it the write fails with WriteTooOld reporting that timestamp; if
    an intent by another transaction exists it fails with WriteIntent; a
    transactional put writes the intent, a non-transactional put writes the
    version directly. An intent of the writing transaction itself is
    replaced by the new one, a key having at most one intent (section 3).
    The result is the engine after the call and Go's error. *)
Definition MVCCPut (eng : gmap Key KeyRecord) (key : Key)
    (timestamp : Timestamp) (value : Value) (txn : option Transaction)
    : gmap Key KeyRecord * option proto.GoError :=
  let existing :=
    match eng !! key with
    | Some rec => versions rec
    | None => []
    end in
  let intent :=
    match eng !! key with
    | Some rec => meta_Txn (meta rec)
    | None => None
    end in
  match List.find (fun v => Timestamp_LessEq timestamp (fst v)) existing with
  | Some (ts', _) => (eng, Some (proto.WriteTooOldError timestamp ts'))
  | None =>
      let newMeta :=
        {| meta_Txn := txn; meta_Timestamp := timestamp;
           meta_Deleted := false; meta_KeyBytes := keySize key;
           meta_ValBytes := valSize value; meta_Value := None |} in
      let version := (timestamp, mkMVCCValue false (Some value)) in
      match intent, txn with
      | Some owner, None =>
          (eng, Some (proto.WriteIntentError [mkIntent key owner] false))
      | Some owner, Some t =>
          if sameTxn owner t
          then (<[key := mkKeyRecord newMeta (version :: tl existing)]> eng,
                None)
          else (eng,
                Some (proto.WriteIntentError [mkIntent key owner] false))
      | None, _ =>
          (<[key := mkKeyRecord newMeta (version :: existing)]> eng, None)
      end
  end.

(** Modelled from the spec: [Get] returns the newest version with a
    timestamp not above the read timestamp, excluding tombstones; it fails
    with ReadWithinUncertaintyInterval when the newest version lies within
    the uncertainty interval of the transaction and the transaction has
    observed no version of the key before; when an intent is present it
    returns the value of the intent if the intent is of the reading
    transaction at an epoch not below its own, and fails with WriteIntent
    otherwise. By scenario 1 of section 8 a deleted key is absent: a
    tombstone hides the versions below it. *)
Definition MVCCGet (eng : gmap Key KeyRecord) (key : Key)
    (timestamp : Timestamp) (txn : option Transaction)
    : option Value * option proto.GoError :=
  match eng !! key with
  | None => (None, None)
  | Some rec =>
      let uncertain :=
        match txn, versions rec with
        | Some t, (vts, _) :: _ =>
            if Timestamp_Less timestamp vts
               && Timestamp_LessEq vts (Timestamp_Add timestamp maxOffset)
               && negb (observed t key)
            then Some vts else None
        | _, _ => None
        end in
      match uncertain with
      | Some vts =>
          (None, Some (proto.ReadWithinUncertaintyIntervalError timestamp vts))
      | None =>
          match meta_Txn (meta rec) with
          | Some owner =>
              let own :=
                match txn with
                | Some t => sameTxn owner t && (txn_Epoch t <=? txn_Epoch owner)
                | None => false
                end in
              if own then
                match versions rec with
                | (_, v) :: _ =>
                    (if mv_Deleted v then None else mv_Value v, None)
                | [] => (None, None)
                end
              else
                (None, Some (proto.WriteIntentError [mkIntent key owner] false))
          | None =>
              match List.find (fun v => Timestamp_LessEq (fst v) timestamp)
                              (versions rec) with
              | Some (_, v) => (if mv_Deleted v then None else mv_Value v, None)
              | None => (None, None)
              end
          end
      end
  end.

End MVCC.

(** The versions of a key are newest first: timestamps strictly decrease. *)
Definition newest_first (vs : list (Timestamp * MVCCValue)) : Prop :=
  StronglySorted (fun a b => Timestamp_Less (fst b) (fst a) = true) vs.

(** *** Properties *)

Lemma Timestamp_Less_irrefl (a : Timestamp) : Timestamp_Less a a = false.
Proof.
  unfold Timestamp_Less.
  rewrite !Z.ltb_irrefl, Z.eqb_refl; reflexivity.
Qed.

Lemma Timestamp_LessEq_refl (a : Timestamp) : Timestamp_LessEq a a = true.
Proof. unfold Timestamp_LessEq; rewrite Timestamp_Less_irrefl; reflexivity. Qed.

Lemma Timestamp_Less_LessEq (a b : Timestamp) :
  Timestamp_Less a b = true -> Timestamp_LessEq a b = true.
Proof.
  unfold Timestamp_LessEq, Timestamp_Less; intros H.
  apply negb_true_iff.
  destruct (Z.ltb_spec (WallTime a) (WallTime b)),
           (Z.ltb_spec (WallTime b) (WallTime a)),
           (Z.eqb_spec (WallTime a) (WallTime b)),
           (Z.eqb_spec (WallTime b) (WallTime a)),
           (Z.ltb_spec (Logical a) (Logical b)),
           (Z.ltb_spec (Logical b) (Logical a));
    simpl in *; try reflexivity; try discriminate; lia.
Qed.

Lemma Timestamp_not_LessEq (a b : Timestamp) :
  Timestamp_LessEq a b = false -> Timestamp_Less b a = true.
Proof. unfold Timestamp_LessEq; intros H; apply negb_false_iff; exact H. Qed.

(** In a list that is newest first, the first version that passes a test
    is the newest of those that pass it. *)
Lemma find_newest (f : Timestamp * MVCCValue -> bool)
    (vs : list (Timestamp * MVCCValue)) (x : Timestamp * MVCCValue) :
  newest_first vs -> List.find f vs = Some x ->
  In x vs /\ f x = true /\
  forall y, In y vs -> f y = true -> Timestamp_LessEq (fst y) (fst x) = true.
Proof.
  intros Hs Hf; split; [|split];
    [exact (proj1 (find_some _ _ Hf)) | exact (proj2 (find_some _ _ Hf)) |].
  induction Hs as [|a vs Hs IH Hall]; [discriminate|].
  simpl in Hf; intros y Hy Hfy.
  destruct (f a) eqn:Efa.
  - inversion Hf; subst x.
    destruct Hy as [->|Hy]; [apply Timestamp_LessEq_refl|].
    rewrite List.Forall_forall in Hall.
    apply Timestamp_Less_LessEq, Hall, Hy.
  - destruct Hy as [->|Hy]; [congruence|].
    exact (IH Hf y Hy Hfy).
Qed.

(** [Put] keeps the versions of every key newest first. *)
Lemma MVCCPut_newest_first (keySize : Key -> Z) (valSize : Value -> Z)
    (eng : gmap Key KeyRecord) (key : Key) (timestamp : Timestamp)
    (value : Value) (txn : option Transaction) :
  (forall k rec, eng !! k = Some rec -> newest_first (versions rec)) ->
  forall k rec,
    fst (MVCCPut keySize valSize eng key timestamp value txn) !! k = Some rec ->
    newest_first (versions rec).
Proof.
  intros Hwf k rec; unfold MVCCPut.
  set (existing := match eng !! key with Some r => versions r | None => [] end).
  assert (Hex : newest_first existing).
  { subst existing; destruct (eng !! key) as [r|] eqn:E;
      [exact (Hwf key r E) | constructor]. }
  destruct (List.find _ existing) as [[ts' v']|] eqn:Ef; [apply Hwf|].
  assert (Hbelow : Forall
            (fun b => Timestamp_Less (fst b) timestamp = true) existing).
  { rewrite List.Forall_forall; intros b Hb.
    apply Timestamp_not_LessEq.
    exact (find_none _ _ Ef b Hb). }
  assert (Hnew : forall vs, newest_first vs ->
            Forall (fun b => Timestamp_Less (fst b) timestamp = true) vs ->
            forall r, <[key := r]> eng !! k = Some rec ->
                      versions r = (timestamp, mkMVCCValue false (Some value))
                                     :: vs ->
                      newest_first (versions rec)).
  { intros vs Hvs Hb r Hl Hr.
    destruct (decide (key = k)) as [->|Hne].
    - rewrite lookup_insert_eq in Hl; inversion Hl; subst rec.
      rewrite Hr; constructor; [exact Hvs | exact Hb].
    - rewrite lookup_insert_ne in Hl by exact Hne; exact (Hwf k rec Hl). }
  assert (Htl : newest_first (tl existing) /\
                Forall (fun b => Timestamp_Less (fst b) timestamp = true)
                       (tl existing)).
  { destruct existing as [|a rest]; [split; constructor|].
    inversion Hex; inversion Hbelow; subst; split; assumption. }
  destruct (match eng !! key with Some r => meta_Txn (meta r) | None => None end)
    as [owner|]; [destruct txn as [t|]|]; simpl.
  - destruct (sameTxn owner t); simpl; [|apply Hwf].
    intros Hl; eapply (Hnew _ (proj1 Htl) (proj2 Htl)); [exact Hl|reflexivity].
  - apply Hwf.
  - intros Hl; eapply (Hnew _ Hex Hbelow); [exact Hl|reflexivity].
Qed.

(** C3. When some version of the key has a timestamp not below the write
    timestamp, [Put] fails with a WriteTooOld error; the timestamp that the
    error reports is that of an existing version of the key and is not
    below the write timestamp, and with the versions newest first it is not
    below the timestamp of the version at hand either; the engine, and so
    the versions of the key, are those before the call. *)
Theorem MVCCPut_WriteTooOld :
  forall (keySize : Key -> Z) (valSize : Value -> Z)
         (eng : gmap Key KeyRecord) (key : Key) (timestamp : Timestamp)
         (value : Value) (txn : option Transaction)
         (rec : KeyRecord) (ts' : Timestamp) (v' : MVCCValue),
    eng !! key = Some rec ->
    In (ts', v') (versions rec) ->
    Timestamp_LessEq timestamp ts' = true ->
    exists existing : Timestamp,
      MVCCPut keySize valSize eng key timestamp value txn
        = (eng, Some (proto.WriteTooOldError timestamp existing)) /\
      (exists v, In (existing, v) (versions rec)) /\
      Timestamp_LessEq timestamp existing = true /\
      (newest_first (versions rec) ->
       Timestamp_LessEq ts' existing = true) /\
      fst (MVCCPut keySize valSize eng key timestamp value txn) !! key
        = Some rec.
Proof.
  intros keySize valSize eng key timestamp value txn rec ts' v' Hl Hin Hle.
  unfold MVCCPut; rewrite Hl.
  destruct (List.find (fun v => Timestamp_LessEq timestamp (fst v))
                      (versions rec)) as [[existing v]|] eqn:Ef.
  - exists existing.
    pose proof (find_some _ _ Ef) as [Hin' Hle'].
    split; [reflexivity|].
    split; [exists v; exact Hin'|].
    split; [exact Hle'|].
    split; [|exact Hl].
    intros Hs.
    exact (proj2 (proj2 (find_newest _ _ _ Hs Ef)) (ts', v') Hin Hle).
  - pose proof (find_none _ _ Ef (ts', v') Hin) as Habs.
    simpl in Habs; congruence.
Qed.

Definition ts (wall : Z) : Timestamp := mkTimestamp wall 0.
Definition val (b : byte) : Value := mkValue [b] None.

(** An engine with the key [a] written at time 5. *)
Definition sample_engine : gmap Key KeyRecord :=
  fst (MVCCPut (fun k => Z.of_nat (length k))
               (fun v => Z.of_nat (length (Bytes v)))
               ∅ [x61] (ts 5) (val x31) None).

Definition sample_record : KeyRecord :=
  mkKeyRecord (mkMVCCMetadata None (ts 5) false 1 1 None)
              [(ts 5, mkMVCCValue false (Some (val x31)))].

Lemma sample_engine_lookup : sample_engine !! [x61] = Some sample_record.
Proof. unfold sample_engine, MVCCPut; simpl; apply lookup_insert_eq. Qed.

Lemma MVCCPut_WriteTooOld_witness :
  exists existing : Timestamp,
    MVCCPut (fun k => Z.of_nat (length k))
            (fun v => Z.of_nat (length (Bytes v)))
            sample_engine [x61] (ts 3) (val x32) None
      = (sample_engine, Some (proto.WriteTooOldError (ts 3) existing)) /\
    (exists v, In (existing, v) (versions sample_record)) /\
    Timestamp_LessEq (ts 3) existing = true /\
    (newest_first (versions sample_record) ->
     Timestamp_LessEq (ts 5) existing = true) /\
    fst (MVCCPut (fun k => Z.of_nat (length k))
                 (fun v => Z.of_nat (length (Bytes v)))
                 sample_engine [x61] (ts 3) (val x32) None) !! [x61]
      = Some sample_record.
Proof.
  exact (MVCCPut_WriteTooOld _ _ sample_engine [x61] (ts 3) (val x32) None
           sample_record (ts 5) (mkMVCCValue false (Some (val x31)))
           sample_engine_lookup (or_introl eq_refl) eq_refl).
Defined.

(** C4. After a non-transactional [Put] of a value at a timestamp has
    succeeded, [Get] of the key at that timestamp returns the value,
    whoever reads. In general, on a key without intent whose versions are
    newest first, a value that [Get] returns is the value of a version that
    is not a tombstone, whose timestamp is not above the read timestamp and
    not below that of any other such version; and when [Get] returns
    nothing, either no version is that old or the newest such version is a
    tombstone. *)
Theorem MVCCPut_then_Get :
  forall (maxOffset : Z) (observed : Transaction -> Key -> bool)
         (keySize : Key -> Z) (valSize : Value -> Z)
         (eng eng' : gmap Key KeyRecord) (key : Key) (value : Value)
         (timestamp : Timestamp) (reader : option Transaction),
    MVCCPut keySize valSize eng key timestamp value None = (eng', None) ->
    MVCCGet maxOffset observed eng' key timestamp reader = (Some value, None) /\
    (forall (e : gmap Key KeyRecord) (k : Key) (rec : KeyRecord)
            (readTs : Timestamp),
        e !! k = Some rec ->
        meta_Txn (meta rec) = None ->
        newest_first (versions rec) ->
        match fst (MVCCGet maxOffset observed e k readTs None) with
        | Some v =>
            exists t mv,
              In (t, mv) (versions rec) /\
              mv_Deleted mv = false /\ mv_Value mv = Some v /\
              Timestamp_LessEq t readTs = true /\
              forall t' mv', In (t', mv') (versions rec) ->
                             Timestamp_LessEq t' readTs = true ->
                             Timestamp_LessEq t' t = true
        | None =>
            (forall t' mv', In (t', mv') (versions rec) ->
                            Timestamp_LessEq t' readTs = false) \/
            exists t mv,
              In (t, mv) (versions rec) /\
              (mv_Deleted mv = true \/ mv_Value mv = None) /\
              Timestamp_LessEq t readTs = true /\
              forall t' mv', In (t', mv') (versions rec) ->
                             Timestamp_LessEq t' readTs = true ->
                             Timestamp_LessEq t' t = true
        end).
Proof.
  intros maxOffset observed keySize valSize eng eng' key value timestamp reader
         Hput.
  split.
  - unfold MVCCPut in Hput.
    set (existing := match eng !! key with Some r => versions r | None => [] end)
      in Hput.
    destruct (List.find _ existing) as [[ts' v']|]; [inversion Hput|].
    destruct (match eng !! key with
              | Some r => meta_Txn (meta r) | None => None end)
      as [owner|]; [inversion Hput|].
    inversion Hput as [Heng]; clear Hput.
    unfold MVCCGet; rewrite lookup_insert_eq; cbn [versions meta meta_Txn].
    rewrite Timestamp_Less_irrefl; cbn [andb].
    replace (match reader with Some _ => None | None => None end)
      with (@None Timestamp) by (destruct reader; reflexivity).
    cbn [List.find fst]; rewrite Timestamp_LessEq_refl; reflexivity.
  - intros e k rec readTs Hl Hmeta Hs.
    unfold MVCCGet; rewrite Hl, Hmeta.
    destruct (List.find (fun v => Timestamp_LessEq (fst v) readTs)
                        (versions rec)) as [[t mv]|] eqn:Ef.
    + pose proof (find_newest _ _ _ Hs Ef) as (Hin & Hle & Hmax).
      simpl in Hle.
      assert (Hmax' : forall t' mv', In (t', mv') (versions rec) ->
                        Timestamp_LessEq t' readTs = true ->
                        Timestamp_LessEq t' t = true)
        by (intros t' mv' Hin' Hle'; exact (Hmax (t', mv') Hin' Hle')).
      destruct (mv_Deleted mv) eqn:Ed; cbn [fst].
      * right; exists t, mv; auto.
      * destruct (mv_Value mv) as [v|] eqn:Ev.
        { exists t, mv; auto. }
        right; exists t, mv; auto.
    + cbn [fst]; left; intros t' mv' Hin'.
      exact (find_none _ _ Ef (t', mv') Hin').
Qed.

Lemma MVCCPut_then_Get_witness :
  MVCCGet 250 (fun _ _ => false) sample_engine [x61] (ts 5) None
    = (Some (val x31), None).
Proof.
  exact (proj1 (MVCCPut_then_Get 250 (fun _ _ => false)
                  (fun k => Z.of_nat (length k))
                  (fun v => Z.of_nat (length (Bytes v)))
                  ∅ sample_engine [x61] (val x31) (ts 5) None eq_refl)).
Defined.

End engine.

(** ** Package [storage/engine]: the wire format of the MVCC messages *)

Module mvccpb.

Local Open Scope Z_scope.

(** The integer types of Go, as integers with their wrap-around; [int] is
    64 bits wide. A byte slice is a list of integers below 256. *)
Definition uint64 (z : Z) : Z := z mod 2 ^ 64.
Definition int64 (z : Z) : Z := (z + 2 ^ 63) mod 2 ^ 64 - 2 ^ 63.
Definition int32 (z : Z) : Z := (z + 2 ^ 31) mod 2 ^ 32 - 2 ^ 31.
Definition uint8 (z : Z) : Z := z mod 256.

Definition len (data : list Z) : Z := Z.of_nat (length data).

Inductive error :=
| ErrUnexpectedEOF
| ErrInvalidLengthMvcc
| ErrWrongWireType (wireType : Z) (field : string)
| ErrIllegalWireType (wireType : Z).

(** The result of a call: a value, a panic of the run time (an index or a
    slice out of range, or the panic of [skipMvcc]), or fuel run out in a
    loop. *)
Inductive outcome (A : Type) : Type :=
| Ret (a : A)
| Panic
| OutOfFuel.

Arguments Ret {A} a.
Arguments Panic {A}.
Arguments OutOfFuel {A}.

Definition bind {A B : Type} (x : outcome A) (f : A -> outcome B)
    : outcome B :=
  match x with
  | Ret a => f a
  | Panic => Panic
  | OutOfFuel => OutOfFuel
  end.

Notation "'let!' x ':=' e 'in' k" := (bind e (fun x => k))
  (at level 10, x name, e at level 200, k at level 200, only parsing).
Notation "'let!' ' p ':=' e 'in' k" :=
  (bind e (fun x => match x with p => k end))
  (at level 10, p pattern, e at level 200, k at level 200, only parsing).

(** [data[i]], [data[i] = x], [data[i:]] and [data[i:j]]. *)
Definition load (data : list Z) (i : Z) : outcome Z :=
  if (0 <=? i) && (i <? len data)
  then match nth_error data (Z.to_nat i) with
       | Some b => Ret b
       | None => Panic
       end
  else Panic.

Fixpoint set_nth (data : list Z) (i : nat) (x : Z) : list Z :=
  match data, i with
  | [], _ => []
  | _ :: t, O => x :: t
  | h :: t, S j => h :: set_nth t j x
  end.

Definition store (data : list Z) (i : Z) (x : Z) : outcome (list Z) :=
  if (0 <=? i) && (i <? len data)
  then Ret (set_nth data (Z.to_nat i) x)
  else Panic.

Definition slice_from (data : list Z) (i : Z) : outcome (list Z) :=
  if (0 <=? i) && (i <=? len data)
  then Ret (skipn (Z.to_nat i) data)
  else Panic.

Definition slice_range (data : list Z) (i j : Z) : outcome (list Z) :=
  if (0 <=? i) && (i <=? j) && (j <=? len data)
  then Ret (firstn (Z.to_nat (j - i)) (skipn (Z.to_nat i) data))
  else Panic.

(** The loop of [sovMvcc]: the number of seven-bit groups of [x]. *)
Fixpoint sovLoop (fuel : nat) (x n : Z) : outcome Z :=
  match fuel with
  | O => OutOfFuel
  | S fuel =>
      let n := n + 1 in
      let x := Z.shiftr x 7 in
      if x =? 0 then Ret n else sovLoop fuel x n
  end.

(** [sovMvcc], on a 64-bit value: ten turns are enough. *)
Definition sovMvcc (x : Z) : outcome Z := sovLoop 10 x 0.

(** [sozMvcc]. *)
Definition sozMvcc (x : Z) : outcome Z :=
  sovMvcc (uint64 (Z.lxor (uint64 (Z.shiftl x 1))
                          (uint64 (Z.shiftr (int64 x) 63)))).

(** The loop of [encodeVarintMvcc]. *)
Fixpoint encodeVarintLoop (fuel : nat) (data : list Z) (offset v : Z)
    : outcome (list Z * Z) :=
  match fuel with
  | O => OutOfFuel
  | S fuel =>
      if 128 <=? v then
        let! data := store data offset (uint8 (Z.lor (Z.land v 127) 128)) in
        encodeVarintLoop fuel data (offset + 1) (Z.shiftr v 7)
      else
        let! data := store data offset (uint8 v) in
        Ret (data, offset + 1)
  end.

(** [encodeVarintMvcc]: the slice after the writes, and the offset behind
    them. *)
Definition encodeVarintMvcc (data : list Z) (offset v : Z)
    : outcome (list Z * Z) :=
  encodeVarintLoop 10 data offset v.

(** [encodeFixed64Mvcc] and [encodeFixed32Mvcc]. *)
Definition encodeFixed64Mvcc (data : list Z) (offset v : Z)
    : outcome (list Z * Z) :=
  let! data := store data offset (uint8 v) in
  let! data := store data (offset + 1) (uint8 (Z.shiftr v 8)) in
  let! data := store data (offset + 2) (uint8 (Z.shiftr v 16)) in
  let! data := store data (offset + 3) (uint8 (Z.shiftr v 24)) in
  let! data := store data (offset + 4) (uint8 (Z.shiftr v 32)) in
  let! data := store data (offset + 5) (uint8 (Z.shiftr v 40)) in
  let! data := store data (offset + 6) (uint8 (Z.shiftr v 48)) in
  let! data := store data (offset + 7) (uint8 (Z.shiftr v 56)) in
  Ret (data, offset + 8).

Definition encodeFixed32Mvcc (data : list Z) (offset v : Z)
    : outcome (list Z * Z) :=
  let! data := store data offset (uint8 v) in
  let! data := store data (offset + 1) (uint8 (Z.shiftr v 8)) in
  let! data := store data (offset + 2) (uint8 (Z.shiftr v 16)) in
  let! data := store data (offset + 3) (uint8 (Z.shiftr v 24)) in
  Ret (data, offset + 4).

(** The loop that reads a varint, which the generated code repeats in
    place for every field: [wrap] is the type of the accumulator, [uint64]
    for a tag and [int64] for a field or a length. The result is the
    accumulator, the index and Go's error; at the end of the input the
    accumulator holds what was read so far. *)
Fixpoint decodeVarint (fuel : nat) (wrap : Z -> Z) (data : list Z)
    (l iNdEx shift acc : Z) : outcome (Z * Z * option error) :=
  match fuel with
  | O => OutOfFuel
  | S fuel =>
      if l <=? iNdEx then Ret (acc, iNdEx, Some ErrUnexpectedEOF)
      else
        let! b := load data iNdEx in
        let iNdEx := iNdEx + 1 in
        let acc := Z.lor acc (wrap (Z.shiftl (Z.land b 127) shift)) in
        if b <? 128 then Ret (acc, iNdEx, None)
        else decodeVarint fuel wrap data l iNdEx (uint64 (shift + 7)) acc
  end.

(** Every turn of a loop over a slice reads a byte of it or leaves the
    loop: one more than its length is enough fuel. *)
Definition fuel_of (data : list Z) : nat := S (length data).

(** The loop of [skipMvcc] over a varint. *)
Fixpoint skipVarintLoop (fuel : nat) (data : list Z) (l iNdEx : Z)
    : outcome (Z * option error) :=
  match fuel with
  | O => OutOfFuel
  | S fuel =>
      if l <=? iNdEx then Ret (0, Some ErrUnexpectedEOF)
      else
        let iNdEx := iNdEx + 1 in
        let! b := load data (iNdEx - 1) in
        if b <? 128 then Ret (iNdEx, None)
        else skipVarintLoop fuel data l iNdEx
  end.

(** [skipMvcc]: the length of the field at the head of the slice. *)
Fixpoint skipMvcc (fuel : nat) (data : list Z) : outcome (Z * option error) :=
  match fuel with
  | O => OutOfFuel
  | S fuel =>
      let l := len data in
      if negb (0 <? l) then Panic
      else
        let! '(wire, iNdEx, err) :=
          decodeVarint (fuel_of data) uint64 data l 0 0 0 in
        match err with
        | Some e => Ret (0, Some e)
        | None =>
            let wireType := int64 (Z.land wire 7) in
            if wireType =? 0 then skipVarintLoop (fuel_of data) data l iNdEx
            else if wireType =? 1 then Ret (int64 (iNdEx + 8), None)
            else if wireType =? 2 then
              let! '(length, iNdEx, err) :=
                decodeVarint (fuel_of data) int64 data l iNdEx 0 0 in
              match err with
              | Some e => Ret (0, Some e)
              | None =>
                  let iNdEx := int64 (iNdEx + length) in
                  if length <? 0 then Ret (0, Some ErrInvalidLengthMvcc)
                  else Ret (iNdEx, None)
              end
            else if wireType =? 3 then
              (fix groupLoop (g : nat) (iNdEx : Z)
                   : outcome (Z * option error) :=
                 match g with
                 | O => OutOfFuel
                 | S g =>
                     let start := iNdEx in
                     let! '(innerWire, iNdEx, err) :=
                       decodeVarint (fuel_of data) uint64 data l iNdEx 0 0 in
                     match err with
                     | Some e => Ret (0, Some e)
                     | None =>
                         let innerWireType := int64 (Z.land innerWire 7) in
                         if innerWireType =? 4 then Ret (iNdEx, None)
                         else
                           let! sub := slice_from data start in
                           let! '(next, err) := skipMvcc fuel sub in
                           match err with
                           | Some e => Ret (0, Some e)
                           | None => groupLoop g (int64 (start + next))
                           end
                     end
                 end) fuel iNdEx
            else if wireType =? 4 then Ret (iNdEx, None)
            else if wireType =? 5 then Ret (int64 (iNdEx + 4), None)
            else Ret (0, Some (ErrIllegalWireType wireType))
        end
  end.

(** [MVCCStats]. *)
Record MVCCStats := mkMVCCStats {
  LiveBytes : Z;
  KeyBytes : Z;
  ValBytes : Z;
  IntentBytes : Z;
  LiveCount : Z;
  KeyCount : Z;
  ValCount : Z;
  IntentCount : Z;
  IntentAge : Z;
  GCBytesAge : Z;
  SysBytes : Z;
  SysCount : Z;
  LastUpdateNanos : Z;
  XXX_unrecognized : list Z
}.

(** [MVCCStats.Reset]: the zero value. *)
Definition Reset : MVCCStats := mkMVCCStats 0 0 0 0 0 0 0 0 0 0 0 0 0 [].

(** [MVCCStats.Size]. *)
Definition Size (m : MVCCStats) : outcome Z :=
  let add (k : Z) (v : Z) (n : Z) : outcome Z :=
    let! s := sovMvcc (uint64 v) in Ret (n + k + s) in
  let! n := add 1 (LiveBytes m) 0 in
  let! n := add 1 (KeyBytes m) n in
  let! n := add 1 (ValBytes m) n in
  let! n := add 1 (IntentBytes m) n in
  let! n := add 1 (LiveCount m) n in
  let! n := add 1 (KeyCount m) n in
  let! n := add 1 (ValCount m) n in
  let! n := add 1 (IntentCount m) n in
  let! n := add 1 (IntentAge m) n in
  let! n := add 1 (GCBytesAge m) n in
  let! n := add 1 (SysBytes m) n in
  let! n := add 1 (SysCount m) n in
  let! n := add 2 (LastUpdateNanos m) n in
  Ret (n + len (XXX_unrecognized m)).

(** [copy(data[i:], src)]: the slice after, and the number of bytes
    copied. *)
Fixpoint copy_into (dst src : list Z) : list Z * Z :=
  match dst, src with
  | _ :: dst', x :: src' =>
      let (r, n) := copy_into dst' src' in (x :: r, n + 1)
  | _, _ => (dst, 0)
  end.

Definition copy_at (data : list Z) (i : Z) (src : list Z)
    : outcome (list Z * Z) :=
  let! dst := slice_from data i in
  let (r, n) := copy_into dst src in
  Ret (firstn (Z.to_nat i) data ++ r, n).

(** One field of [MarshalTo]: the byte of the tag, then the value. *)
Definition putField (tag v : Z) (st : list Z * Z) : outcome (list Z * Z) :=
  let (data, i) := st in
  let! data := store data i tag in
  encodeVarintMvcc data (i + 1) (uint64 v).

(** [MVCCStats.MarshalTo]: the slice after the writes and the number of
    bytes written; the error is always nil. *)
Definition MarshalTo (m : MVCCStats) (data : list Z) : outcome (list Z * Z) :=
  let! st := putField 0x8 (LiveBytes m) (data, 0) in
  let! st := putField 0x10 (KeyBytes m) st in
  let! st := putField 0x18 (ValBytes m) st in
  let! st := putField 0x20 (IntentBytes m) st in
  let! st := putField 0x28 (LiveCount m) st in
  let! st := putField 0x30 (KeyCount m) st in
  let! st := putField 0x38 (ValCount m) st in
  let! st := putField 0x40 (IntentCount m) st in
  let! st := putField 0x48 (IntentAge m) st in
  let! st := putField 0x50 (GCBytesAge m) st in
  let! st := putField 0x60 (SysBytes m) st in
  let! st := putField 0x68 (SysCount m) st in
  let! '(data, i) := Ret st in
  let! data := store data i 0xf0 in
  let! '(data, i) := putField 0x1 (LastUpdateNanos m) (data, i + 1) in
  match XXX_unrecognized m with
  | [] => Ret (data, i)
  | src => let! '(data, n) := copy_at data i src in Ret (data, i + n)
  end.

(** [MVCCStats.Marshal]. *)
Definition Marshal (m : MVCCStats) : outcome (list Z) :=
  let! size := Size m in
  let data := repeat 0 (Z.to_nat size) in
  let! '(data, n) := MarshalTo m data in
  slice_range data 0 n.

(** The fields of [MVCCStats] by number: the name in the error for a wrong
    wire type, and the assignment. *)
Definition fieldName (fieldNum : Z) : option string :=
  match fieldNum with
  | 1 => Some "LiveBytes"%string | 2 => Some "KeyBytes"%string
  | 3 => Some "ValBytes"%string | 4 => Some "IntentBytes"%string
  | 5 => Some "LiveCount"%string | 6 => Some "KeyCount"%string
  | 7 => Some "ValCount"%string | 8 => Some "IntentCount"%string
  | 9 => Some "IntentAge"%string | 10 => Some "GCBytesAge"%string
  | 12 => Some "SysBytes"%string | 13 => Some "SysCount"%string
  | 30 => Some "LastUpdateNanos"%string
  | _ => None
  end.

Definition setField (fieldNum v : Z) (m : MVCCStats) : MVCCStats :=
  match m with
  | mkMVCCStats a b c d e f g h i j k l n x =>
      match fieldNum with
      | 1 => mkMVCCStats v b c d e f g h i j k l n x
      | 2 => mkMVCCStats a v c d e f g h i j k l n x
      | 3 => mkMVCCStats a b v d e f g h i j k l n x
      | 4 => mkMVCCStats a b c v e f g h i j k l n x
      | 5 => mkMVCCStats a b c d v f g h i j k l n x
      | 6 => mkMVCCStats a b c d e v g h i j k l n x
      | 7 => mkMVCCStats a b c d e f v h i j k l n x
      | 8 => mkMVCCStats a b c d e f g v i j k l n x
      | 9 => mkMVCCStats a b c d e f g h v j k l n x
      | 10 => mkMVCCStats a b c d e f g h i v k l n x
      | 12 => mkMVCCStats a b c d e f g h i j v l n x
      | 13 => mkMVCCStats a b c d e f g h i j k v n x
      | 30 => mkMVCCStats a b c d e f g h i j k l v x
      | _ => m
      end
  end.

Definition add_unrecognized (m : MVCCStats) (bs : list Z) : MVCCStats :=
  match m with
  | mkMVCCStats a b c d e f g h i j k l n x =>
      mkMVCCStats a b c d e f g h i j k l n (x ++ bs)
  end.

(** The loop of [MVCCStats.Unmarshal]. The thirteen cases of the switch
    differ by the field and its name only: a known field is set to zero and
    then read as a varint into the field itself, so that at the end of the
    input it holds what was read; any other field is skipped and kept. The
    result is the message after the call and Go's error. *)
Fixpoint unmarshalLoop (fuel : nat) (m : MVCCStats) (data : list Z)
    (l iNdEx : Z) : outcome (MVCCStats * option error) :=
  match fuel with
  | O => OutOfFuel
  | S fuel =>
      if negb (iNdEx <? l) then Ret (m, None)
      else
        let! '(wire, iNdEx, err) :=
          decodeVarint (fuel_of data) uint64 data l iNdEx 0 0 in
        match err with
        | Some e => Ret (m, Some e)
        | None =>
            let fieldNum := int32 (Z.shiftr wire 3) in
            let wireType := int64 (Z.land wire 7) in
            match fieldName fieldNum with
            | Some name =>
                if negb (wireType =? 0)
                then Ret (m, Some (ErrWrongWireType wireType name))
                else
                  let! '(v, iNdEx, err) :=
                    decodeVarint (fuel_of data) int64 data l iNdEx 0 0 in
                  let m := setField fieldNum v m in
                  match err with
                  | Some e => Ret (m, Some e)
                  | None => unmarshalLoop fuel m data l iNdEx
                  end
            | None =>
                let! sizeOfWire := sovLoop 10 wire 0 in
                let iNdEx := iNdEx - sizeOfWire in
                let! sub := slice_from data iNdEx in
                let! '(skippy, err) := skipMvcc (fuel_of sub) sub in
                match err with
                | Some e => Ret (m, Some e)
                | None =>
                    if skippy <? 0 then Ret (m, Some ErrInvalidLengthMvcc)
                    else if l <? int64 (iNdEx + skippy)
                    then Ret (m, Some ErrUnexpectedEOF)
                    else
                      let! bs := slice_range data iNdEx (int64 (iNdEx + skippy)) in
                      unmarshalLoop fuel (add_unrecognized m bs) data l
                                    (int64 (iNdEx + skippy))
                end
            end
        end
  end.

(** [MVCCStats.Unmarshal]. *)
Definition Unmarshal (m : MVCCStats) (data : list Z)
    : outcome (MVCCStats * option error) :=
  unmarshalLoop (fuel_of data) m data (len data) 0.

(** A message, its bytes, and the bytes read back. *)
Definition sample_stats : MVCCStats :=
  mkMVCCStats 300 (-1) 0 127 128 16384 1 2 3 4 5 6 1435000000000000000 [].

Example sample_stats_roundtrip :
  (let! bytes := Marshal sample_stats in Unmarshal Reset bytes)
    = Ret (sample_stats, None).
Proof. vm_compute. reflexivity. Qed.

Example sample_stats_size :
  (let! bytes := Marshal sample_stats in Ret (len bytes)) = Size sample_stats.
Proof. vm_compute. reflexivity. Qed.


(** *** Integer types *)

Lemma uint64_small (z : Z) : 0 <= z < 2 ^ 64 -> uint64 z = z.
Proof. intros H. unfold uint64. apply Z.mod_small. exact H. Qed.

Lemma uint64_range (z : Z) : 0 <= uint64 z < 2 ^ 64.
Proof. unfold uint64. apply Z.mod_pos_bound. lia. Qed.

Lemma int64_range (z : Z) : - 2 ^ 63 <= int64 z < 2 ^ 63.
Proof.
  unfold int64.
  pose proof (Z.mod_pos_bound (z + 2 ^ 63) (2 ^ 64) ltac:(lia)). lia.
Qed.

Lemma int64_small (z : Z) : - 2 ^ 63 <= z < 2 ^ 63 -> int64 z = z.
Proof. intros H. unfold int64. rewrite Z.mod_small by lia. lia. Qed.

Lemma int64_mod (z : Z) : int64 z mod 2 ^ 64 = z mod 2 ^ 64.
Proof.
  unfold int64.
  rewrite (Z.mod_eq (z + 2 ^ 63) (2 ^ 64)) by lia.
  replace (z + 2 ^ 63 - 2 ^ 64 * ((z + 2 ^ 63) / 2 ^ 64) - 2 ^ 63)
    with (z + (- ((z + 2 ^ 63) / 2 ^ 64)) * 2 ^ 64) by lia.
  apply Z.mod_add. lia.
Qed.

Lemma int64_uint64 (z : Z) : int64 (uint64 z) = int64 z.
Proof.
  unfold int64 at 1 2, uint64.
  rewrite Zplus_mod_idemp_l. reflexivity.
Qed.

Lemma int64_testbit (z i : Z) :
  0 <= i -> Z.testbit (int64 z) i = Z.testbit z (Z.min i 63).
Proof.
  intros Hi.
  assert (Hlow : forall j, j < 64 -> Z.testbit (int64 z) j = Z.testbit z j).
  { intros j Hj.
    rewrite <- (Z.mod_pow2_bits_low (int64 z) 64 j Hj), int64_mod.
    apply Z.mod_pow2_bits_low. exact Hj. }
  destruct (Z.lt_ge_cases i 63) as [Hlt | Hge].
  - rewrite Z.min_l by lia. apply Hlow. lia.
  - rewrite Z.min_r by lia.
    pose proof (proj1 (Z.bounded_iff_bits 63 (int64 z) ltac:(lia))
                  (int64_range z)) as Hb.
    rewrite (Hb i Hge), <- (Hb 63 ltac:(lia)). apply Hlow. lia.
Qed.

Lemma int64_lor (a b : Z) : int64 (Z.lor a b) = Z.lor (int64 a) (int64 b).
Proof.
  apply Z.bits_inj'. intros i Hi.
  rewrite Z.lor_spec, !int64_testbit by exact Hi.
  apply Z.lor_spec.
Qed.

Lemma uint64_lor (a b : Z) : uint64 (Z.lor a b) = Z.lor (uint64 a) (uint64 b).
Proof.
  unfold uint64. rewrite <- !Z.land_ones by lia. apply Z.land_lor_distr_l.
Qed.

(** Bits that do not meet add up. *)
Lemma lor_shiftl_add (low g s : Z) :
  0 <= s -> 0 <= low < 2 ^ s ->
  Z.lor low (Z.shiftl g s) = low + g * 2 ^ s.
Proof.
  intros Hs Hlow.
  rewrite Z.shiftl_mul_pow2 by exact Hs.
  symmetry. apply Z.add_nocarry_lor.
  apply Z.bits_inj'. intros i Hi.
  rewrite Z.land_spec, Z.bits_0.
  destruct (Z.lt_ge_cases i s) as [Hlt | Hge].
  - rewrite Z.mul_pow2_bits_low by exact Hlt. apply andb_false_r.
  - rewrite <- (Z.mod_small low (2 ^ s)) by exact Hlow.
    rewrite Z.mod_pow2_bits_high by lia. reflexivity.
Qed.

Lemma land_127 (v : Z) : Z.land v 127 = v mod 128.
Proof. change 127 with (Z.ones 7). rewrite Z.land_ones by lia. reflexivity. Qed.

Lemma shiftr_7 (v : Z) : Z.shiftr v 7 = v / 128.
Proof. rewrite Z.shiftr_div_pow2 by lia. reflexivity. Qed.

Lemma continuation_byte (v : Z) :
  uint8 (Z.lor (Z.land v 127) 128) = v mod 128 + 128.
Proof.
  rewrite land_127.
  pose proof (Z.mod_pos_bound v 128 ltac:(lia)) as Hb.
  change 128 with (Z.shiftl 1 7) at 2.
  rewrite lor_shiftl_add by (change (2 ^ 7) with 128; lia).
  change (1 * 2 ^ 7) with 128.
  unfold uint8. apply Z.mod_small. lia.
Qed.

(** *** Slices *)

Lemma len_app (a b : list Z) : len (a ++ b) = len a + len b.
Proof. unfold len. rewrite length_app. lia. Qed.

Lemma len_cons (x : Z) (a : list Z) : len (x :: a) = 1 + len a.
Proof. unfold len. cbn [length]. lia. Qed.

Lemma len_nonneg (a : list Z) : 0 <= len a.
Proof. unfold len. lia. Qed.

Lemma load_app (pre post : list Z) (x : Z) :
  load (pre ++ x :: post) (len pre) = Ret x.
Proof.
  unfold load. rewrite len_app, len_cons.
  pose proof (len_nonneg pre). pose proof (len_nonneg post).
  replace ((0 <=? len pre) && (len pre <? len pre + (1 + len post)))
    with true by (symmetry; apply andb_true_intro; split; lia).
  unfold len. rewrite Nat2Z.id, nth_error_app2 by lia.
  rewrite Nat.sub_diag. reflexivity.
Qed.

Lemma set_nth_app (pre post : list Z) (x y : Z) :
  set_nth (pre ++ x :: post) (length pre) y = pre ++ y :: post.
Proof.
  induction pre as [| h t IH]; cbn [set_nth app length].
  - reflexivity.
  - rewrite IH. reflexivity.
Qed.

Lemma store_app (pre post : list Z) (x y : Z) :
  store (pre ++ x :: post) (len pre) y = Ret (pre ++ y :: post).
Proof.
  unfold store. rewrite len_app, len_cons.
  pose proof (len_nonneg pre). pose proof (len_nonneg post).
  replace ((0 <=? len pre) && (len pre <? len pre + (1 + len post)))
    with true by (symmetry; apply andb_true_intro; split; lia).
  unfold len. rewrite Nat2Z.id, set_nth_app. reflexivity.
Qed.

Lemma store_out_of_range (data : list Z) (i x : Z) :
  len data <= i -> store data i x = Panic.
Proof.
  intros H. unfold store.
  replace (i <? len data) with false by lia.
  rewrite andb_false_r. reflexivity.
Qed.

(** *** Varints *)

(** The bytes of a varint: seven bits a byte from the low end, the high bit
    set on every byte but the last. *)
Fixpoint varintBytes (fuel : nat) (v : Z) : list Z :=
  match fuel with
  | O => []
  | S fuel =>
      if 128 <=? v then (v mod 128 + 128) :: varintBytes fuel (v / 128)
      else [v]
  end.

Definition varint (v : Z) : list Z := varintBytes 10 v.

Lemma pow2_7S (f : nat) : 2 ^ (7 * Z.of_nat (S f)) = 128 * 2 ^ (7 * Z.of_nat f).
Proof.
  rewrite Nat2Z.inj_succ.
  replace (7 * Z.succ (Z.of_nat f)) with (7 + 7 * Z.of_nat f) by lia.
  rewrite Z.pow_add_r by lia. reflexivity.
Qed.

Lemma div_128_bound (v : Z) (f : nat) :
  0 <= v < 2 ^ (7 * Z.of_nat (S f)) -> 0 <= v / 128 < 2 ^ (7 * Z.of_nat f).
Proof.
  rewrite pow2_7S. intros [H0 H1]. split.
  - apply Z.div_pos; lia.
  - apply Z.div_lt_upper_bound; lia.
Qed.

Lemma varintBytes_length (f : nat) (v : Z) :
  f <> O -> 0 <= v < 2 ^ (7 * Z.of_nat f) ->
  (1 <= length (varintBytes f v) <= f)%nat.
Proof.
  revert v. induction f as [| f IH]; intros v Hf0 Hv.
  - congruence.
  - cbn [varintBytes]. destruct (128 <=? v) eqn:E.
    + assert (Hf : f <> O).
      { intros ->. change (2 ^ (7 * Z.of_nat 1)) with 128 in Hv. lia. }
      specialize (IH (v / 128) Hf (div_128_bound v f Hv)).
      cbn [length]. lia.
    + cbn [length]. lia.
Qed.

Lemma varintBytes_bytes (f : nat) (v : Z) :
  0 <= v -> Forall (fun b => 0 <= b < 256) (varintBytes f v).
Proof.
  revert v. induction f as [| f IH]; intros v Hv; cbn [varintBytes].
  - constructor.
  - destruct (128 <=? v) eqn:E.
    + constructor.
      * pose proof (Z.mod_pos_bound v 128 ltac:(lia)). lia.
      * apply IH. apply Z.div_pos; lia.
    + constructor; [lia | constructor].
Qed.

(** [sovMvcc] counts the bytes of the varint. *)
Lemma sovLoop_varintBytes (f : nat) (v n : Z) :
  f <> O -> 0 <= v < 2 ^ (7 * Z.of_nat f) ->
  sovLoop f v n = Ret (n + len (varintBytes f v)).
Proof.
  revert v n. induction f as [| f IH]; intros v n Hf0 Hv.
  - congruence.
  - cbn [sovLoop varintBytes]. rewrite shiftr_7.
    destruct (128 <=? v) eqn:E.
    + assert (Hq : 1 <= v / 128).
      { apply Z.div_le_lower_bound; lia. }
      replace (v / 128 =? 0) with false by lia.
      assert (Hf : f <> O).
      { intros ->. change (2 ^ (7 * Z.of_nat 1)) with 128 in Hv. lia. }
      rewrite IH by (try exact Hf; apply div_128_bound; exact Hv).
      rewrite len_cons. f_equal. lia.
    + rewrite Z.div_small by lia. cbn [Z.eqb].
      rewrite len_cons. reflexivity.
Qed.

Lemma uint64_lt_70 (v : Z) :
  0 <= v < 2 ^ 64 -> 0 <= v < 2 ^ (7 * Z.of_nat 10).
Proof. change (2 ^ (7 * Z.of_nat 10)) with (2 ^ 70). lia. Qed.

Lemma sovMvcc_varint (v : Z) :
  0 <= v < 2 ^ 64 -> sovMvcc v = Ret (len (varint v)).
Proof.
  intros Hv. unfold sovMvcc, varint.
  rewrite sovLoop_varintBytes by (try lia; apply uint64_lt_70; exact Hv).
  reflexivity.
Qed.

(** [encodeVarintMvcc] writes them over the bytes at the offset. *)
Lemma encodeVarintLoop_varintBytes (f : nat) (v : Z) (pre buf post : list Z) :
  f <> O -> 0 <= v < 2 ^ (7 * Z.of_nat f) ->
  length buf = length (varintBytes f v) ->
  encodeVarintLoop f (pre ++ buf ++ post) (len pre) v
    = Ret (pre ++ varintBytes f v ++ post,
           len pre + len (varintBytes f v)).
Proof.
  revert v pre buf. induction f as [| f IH]; intros v pre buf Hf0 Hv Hlen.
  - congruence.
  - cbn [encodeVarintLoop varintBytes] in *.
    destruct (128 <=? v) eqn:E.
    + destruct buf as [| b0 buf]; [discriminate Hlen |].
      cbn [length] in Hlen. injection Hlen as Hlen.
      cbn [app]. rewrite store_app. cbn [bind].
      rewrite continuation_byte, shiftr_7.
      replace (len pre + 1) with (len (pre ++ [v mod 128 + 128]))
        by (rewrite len_app, len_cons; reflexivity).
      replace (pre ++ (v mod 128 + 128) :: buf ++ post)
        with ((pre ++ [v mod 128 + 128]) ++ buf ++ post)
        by (rewrite <- app_assoc; reflexivity).
      assert (Hf : f <> O).
      { intros ->. change (2 ^ (7 * Z.of_nat 1)) with 128 in Hv. lia. }
      rewrite (IH (v / 128) _ buf Hf (div_128_bound v f Hv) Hlen).
      rewrite <- app_assoc, len_app, !len_cons. cbn [app].
      f_equal. f_equal. unfold len. cbn [length]. lia.
    + destruct buf as [| b0 [| b1 buf]]; try discriminate Hlen.
      cbn [app]. rewrite store_app. cbn [bind].
      unfold uint8. rewrite Z.mod_small by lia.
      rewrite len_cons. reflexivity.
Qed.

(** They read back as the value, in either accumulator. *)
Section Decode.

Variable wrap : Z -> Z.
Hypothesis wrap_lor : forall a b, wrap (Z.lor a b) = Z.lor (wrap a) (wrap b).

Lemma decodeVarint_varintBytes (f : nat) :
  forall (v : Z) (pre post : list Z) (fuel : nat) (s low : Z),
  f <> O -> 0 <= v < 2 ^ (7 * Z.of_nat f) ->
  (length (varintBytes f v) <= fuel)%nat ->
  0 <= s -> s + 7 * Z.of_nat f < 2 ^ 64 ->
  0 <= low < 2 ^ s ->
  let data := pre ++ varintBytes f v ++ post in
  decodeVarint fuel wrap data (len data) (len pre) s (wrap low)
    = Ret (wrap (low + v * 2 ^ s),
           len (pre ++ varintBytes f v), None).
Proof.
  induction f as [| f IH];
    intros v pre post fuel s low Hf0 Hv Hfuel Hs Hs64 Hlow.
  - congruence.
  - destruct fuel as [| fuel].
    { pose proof (varintBytes_length (S f) v Hf0 Hv). lia. }
    cbn zeta. cbn [decodeVarint varintBytes]. cbn [varintBytes] in Hfuel.
    assert (Hin : forall x rest,
               (len (pre ++ (x :: rest) ++ post) <=? len pre) = false).
    { intros x rest. rewrite len_app, len_app, len_cons.
      pose proof (len_nonneg rest). pose proof (len_nonneg post). lia. }
    destruct (128 <=? v) eqn:E.
    + rewrite Hin. cbn [app]. rewrite load_app. cbn [bind].
      pose proof (Z.mod_pos_bound v 128 ltac:(lia)) as Hm.
      replace (v mod 128 + 128 <? 128) with false by lia.
      rewrite land_127.
      replace ((v mod 128 + 128) mod 128) with (v mod 128)
        by (rewrite <- Zplus_mod_idemp_r; change (128 mod 128) with 0;
            rewrite Z.add_0_r, Z.mod_mod by lia; reflexivity).
      rewrite <- wrap_lor, lor_shiftl_add by assumption.
      assert (Hf : f <> O).
      { intros ->. change (2 ^ (7 * Z.of_nat 1)) with 128 in Hv. lia. }
      rewrite uint64_small by (rewrite Nat2Z.inj_succ in Hs64; lia).
      replace (len pre + 1) with (len (pre ++ [v mod 128 + 128]))
        by (rewrite len_app, len_cons; reflexivity).
      replace (pre ++ (v mod 128 + 128) :: varintBytes f (v / 128) ++ post)
        with ((pre ++ [v mod 128 + 128]) ++ varintBytes f (v / 128) ++ post)
        by (rewrite <- app_assoc; reflexivity).
      assert (Hpow : 2 ^ (s + 7) = 128 * 2 ^ s).
      { rewrite Z.pow_add_r by lia. change (2 ^ 7) with 128. lia. }
      rewrite (IH (v / 128) (pre ++ [v mod 128 + 128]) post fuel (s + 7)
                 (low + v mod 128 * 2 ^ s)).
      * rewrite <- app_assoc. cbn [app]. f_equal. f_equal. f_equal. f_equal.
        rewrite Hpow. pose proof (Z.div_mod v 128 ltac:(lia)). nia.
      * exact Hf.
      * apply div_128_bound. exact Hv.
      * cbn [length] in Hfuel. lia.
      * lia.
      * rewrite Nat2Z.inj_succ in Hs64. lia.
      * rewrite Hpow. nia.
    + rewrite Hin. cbn [app]. rewrite load_app. cbn [bind].
      replace (v <? 128) with true by lia.
      rewrite land_127, Z.mod_small by lia.
      rewrite <- wrap_lor, lor_shiftl_add by assumption.
      rewrite len_app, len_cons. reflexivity.
Qed.

End Decode.

Lemma varint_length (v : Z) :
  0 <= v < 2 ^ 64 -> (1 <= length (varint v) <= 10)%nat.
Proof.
  intros Hv. apply varintBytes_length; [lia | apply uint64_lt_70; exact Hv].
Qed.

Lemma varint_nonempty (v : Z) : (1 <= length (varint v))%nat.
Proof.
  unfold varint. cbn [varintBytes].
  destruct (128 <=? v); cbn [length]; lia.
Qed.

Lemma decode_uint64 (v : Z) (data pre post : list Z) :
  0 <= v < 2 ^ 64 ->
  data = pre ++ varint v ++ post ->
  decodeVarint (fuel_of data) uint64 data (len data) (len pre) 0 0
    = Ret (v, len (pre ++ varint v), None).
Proof.
  intros Hv ->.
  pose proof (decodeVarint_varintBytes uint64 uint64_lor 10 v pre post
                (fuel_of (pre ++ varint v ++ post)) 0 0) as H.
  cbn zeta in H. change (uint64 0) with 0 in H.
  unfold varint in *. rewrite H.
  - rewrite Z.add_0_l, Z.mul_1_r, uint64_small by exact Hv. reflexivity.
  - lia.
  - apply uint64_lt_70. exact Hv.
  - unfold fuel_of. rewrite !length_app. lia.
  - lia.
  - change (0 + 7 * Z.of_nat 10) with 70. lia.
  - change (2 ^ 0) with 1. lia.
Qed.

Lemma decode_int64 (v : Z) (data pre post : list Z) :
  0 <= v < 2 ^ 64 ->
  data = pre ++ varint v ++ post ->
  decodeVarint (fuel_of data) int64 data (len data) (len pre) 0 0
    = Ret (int64 v, len (pre ++ varint v), None).
Proof.
  intros Hv ->.
  pose proof (decodeVarint_varintBytes int64 int64_lor 10 v pre post
                (fuel_of (pre ++ varint v ++ post)) 0 0) as H.
  cbn zeta in H. change (int64 0) with 0 in H.
  unfold varint in *. rewrite H.
  - rewrite Z.add_0_l, Z.mul_1_r. reflexivity.
  - lia.
  - apply uint64_lt_70. exact Hv.
  - unfold fuel_of. rewrite !length_app. lia.
  - lia.
  - change (0 + 7 * Z.of_nat 10) with 70. lia.
  - change (2 ^ 0) with 1. lia.
Qed.

Lemma encodeVarintMvcc_varint (v : Z) (pre buf post : list Z) :
  0 <= v < 2 ^ 64 ->
  length buf = length (varint v) ->
  encodeVarintMvcc (pre ++ buf ++ post) (len pre) v
    = Ret (pre ++ varint v ++ post, len pre + len (varint v)).
Proof.
  intros Hv Hlen. unfold encodeVarintMvcc, varint.
  apply encodeVarintLoop_varintBytes;
    [lia | apply uint64_lt_70; exact Hv | exact Hlen].
Qed.

(** *** The bytes of a message *)

(** The bytes of [MVCCStats]: every field with its tag, in the order of
    the field numbers, then the bytes nobody recognized. *)
Definition wire (m : MVCCStats) : list Z :=
  0x8 :: varint (uint64 (LiveBytes m)) ++
  0x10 :: varint (uint64 (KeyBytes m)) ++
  0x18 :: varint (uint64 (ValBytes m)) ++
  0x20 :: varint (uint64 (IntentBytes m)) ++
  0x28 :: varint (uint64 (LiveCount m)) ++
  0x30 :: varint (uint64 (KeyCount m)) ++
  0x38 :: varint (uint64 (ValCount m)) ++
  0x40 :: varint (uint64 (IntentCount m)) ++
  0x48 :: varint (uint64 (IntentAge m)) ++
  0x50 :: varint (uint64 (GCBytesAge m)) ++
  0x60 :: varint (uint64 (SysBytes m)) ++
  0x68 :: varint (uint64 (SysCount m)) ++
  0xf0 :: 0x1 :: varint (uint64 (LastUpdateNanos m)) ++
  XXX_unrecognized m.

Lemma Size_wire (m : MVCCStats) : Size m = Ret (len (wire m)).
Proof.
  unfold Size, wire.
  rewrite !sovMvcc_varint by apply uint64_range.
  cbn [bind]. f_equal.
  repeat (rewrite ?len_cons, ?len_app). lia.
Qed.

Lemma putField_spec (tag v : Z) (pre rest : list Z) :
  putField tag v
    (pre ++ repeat 0 (length (tag :: varint (uint64 v) ++ rest)), len pre)
  = Ret ((pre ++ tag :: varint (uint64 v)) ++ repeat 0 (length rest),
         len (pre ++ tag :: varint (uint64 v))).
Proof.
  unfold putField. cbn [length repeat].
  rewrite store_app. cbn [bind].
  rewrite length_app, repeat_app.
  replace (len pre + 1) with (len (pre ++ [tag]))
    by (rewrite len_app, len_cons; reflexivity).
  replace (pre ++ tag :: repeat 0 (length (varint (uint64 v)))
               ++ repeat 0 (length rest))
    with ((pre ++ [tag]) ++ repeat 0 (length (varint (uint64 v)))
               ++ repeat 0 (length rest))
    by (rewrite <- app_assoc; reflexivity).
  rewrite encodeVarintMvcc_varint
    by (try apply uint64_range; apply repeat_length).
  rewrite <- !app_assoc. cbn [app].
  f_equal. f_equal.
  rewrite !len_app, !len_cons. unfold len. cbn [length]. lia.
Qed.

Lemma store_spec (x : Z) (pre rest : list Z) :
  store (pre ++ repeat 0 (length (x :: rest))) (len pre) x
  = Ret ((pre ++ [x]) ++ repeat 0 (length rest)).
Proof.
  cbn [length repeat]. rewrite store_app, <- app_assoc. reflexivity.
Qed.

Lemma copy_into_repeat (src : list Z) :
  copy_into (repeat 0 (length src)) src = (src, len src).
Proof.
  induction src as [| x src IH]; cbn [length repeat copy_into].
  - reflexivity.
  - rewrite IH, len_cons. f_equal. lia.
Qed.

Lemma slice_from_app (pre post : list Z) :
  slice_from (pre ++ post) (len pre) = Ret post.
Proof.
  unfold slice_from. rewrite len_app.
  pose proof (len_nonneg pre). pose proof (len_nonneg post).
  replace ((0 <=? len pre) && (len pre <=? len pre + len post))
    with true by (symmetry; apply andb_true_intro; split; lia).
  unfold len. rewrite Nat2Z.id, skipn_app, skipn_all, Nat.sub_diag.
  reflexivity.
Qed.

Lemma slice_range_app (pre mid post : list Z) :
  slice_range (pre ++ mid ++ post) (len pre) (len (pre ++ mid)) = Ret mid.
Proof.
  unfold slice_range. rewrite !len_app.
  pose proof (len_nonneg pre). pose proof (len_nonneg mid).
  pose proof (len_nonneg post).
  replace ((0 <=? len pre) && (len pre <=? len pre + len mid)
           && (len pre + len mid <=? len pre + (len mid + len post)))
    with true
    by (symmetry; apply andb_true_intro; split;
        [apply andb_true_intro; split |]; lia).
  replace (len pre + len mid - len pre) with (len mid) by lia.
  unfold len. rewrite !Nat2Z.id, skipn_app, skipn_all, Nat.sub_diag.
  rewrite skipn_O. cbn [app]. rewrite take_app_length. reflexivity.
Qed.

Lemma copy_unrecognized (pre xxx : list Z) :
  match xxx with
  | [] => Ret (pre ++ repeat 0 (length xxx), len pre)
  | x :: l =>
      let! '(data, n) :=
        copy_at (pre ++ repeat 0 (length xxx)) (len pre) (x :: l) in
      Ret (data, len pre + n)
  end = Ret (pre ++ xxx, len (pre ++ xxx)).
Proof.
  destruct xxx as [| x xxx].
  - cbn [length repeat]. rewrite app_nil_r. reflexivity.
  - unfold copy_at. rewrite slice_from_app. cbn [bind].
    rewrite copy_into_repeat. cbn [bind].
    unfold len at 1. rewrite Nat2Z.id, take_app_length, len_app.
    reflexivity.
Qed.

Lemma MarshalTo_wire (m : MVCCStats) :
  MarshalTo m (repeat 0 (length (wire m))) = Ret (wire m, len (wire m)).
Proof.
  unfold MarshalTo, wire.
  change 0 with (len []) at 2.
  match goal with
  | |- context [putField 8 ?v (?d, len [])] =>
      change d with ([] ++ d)
  end.
  rewrite putField_spec. cbn [bind].
  do 11 (rewrite putField_spec; cbn [bind]).
  rewrite store_spec. cbn [bind].
  match goal with
  | |- context [putField 1 ?v (?p ++ ?d, ?i)] =>
      replace i with (len p)
        by (rewrite (len_app _ [240]); reflexivity)
  end.
  rewrite putField_spec. cbn [bind].
  etransitivity; [apply copy_unrecognized |].
  rewrite <- !app_assoc. cbn [app]. reflexivity.
Qed.

Lemma Marshal_wire (m : MVCCStats) : Marshal m = Ret (wire m).
Proof.
  unfold Marshal. rewrite Size_wire. cbn [bind].
  unfold len at 1. rewrite Nat2Z.id, MarshalTo_wire. cbn [bind].
  unfold slice_range.
  pose proof (len_nonneg (wire m)).
  replace ((0 <=? 0) && (0 <=? len (wire m)) && (len (wire m) <=? len (wire m)))
    with true
    by (symmetry; apply andb_true_intro; split;
        [apply andb_true_intro; split |]; lia).
  rewrite Z.sub_0_r. unfold len. rewrite Nat2Z.id.
  cbn [skipn Z.to_nat]. rewrite firstn_all. reflexivity.
Qed.

(** *** Reading a message *)

(** A field on the wire: its tag with wire type 0, then its value. *)
Definition fieldBytes (p : Z * Z) : list Z :=
  varint (8 * fst p) ++ varint (uint64 (snd p)).

Lemma fieldBytes_nonempty (p : Z * Z) : (1 <= length (fieldBytes p))%nat.
Proof.
  unfold fieldBytes. rewrite length_app.
  pose proof (varint_nonempty (8 * fst p)). lia.
Qed.

Lemma tag_fieldNum (fn wt : Z) :
  0 <= fn < 2 ^ 28 -> 0 <= wt < 8 -> int32 (Z.shiftr (8 * fn + wt) 3) = fn.
Proof.
  intros Hfn Hwt. rewrite Z.shiftr_div_pow2 by lia. change (2 ^ 3) with 8.
  replace ((8 * fn + wt) / 8) with fn by (Z.div_mod_to_equations; lia).
  unfold int32. rewrite Z.mod_small by lia. lia.
Qed.

Lemma tag_wireType (fn wt : Z) :
  0 <= wt < 8 -> int64 (Z.land (8 * fn + wt) 7) = wt.
Proof.
  intros Hwt. change 7 with (Z.ones 3). rewrite Z.land_ones by lia.
  change (2 ^ 3) with 8.
  replace ((8 * fn + wt) mod 8) with wt by (Z.div_mod_to_equations; lia).
  apply int64_small. lia.
Qed.

Lemma tag_fieldNum0 (fn : Z) :
  0 <= fn < 2 ^ 28 -> int32 (Z.shiftr (8 * fn) 3) = fn.
Proof.
  intros Hfn. rewrite <- (Z.add_0_r (8 * fn)). apply tag_fieldNum; lia.
Qed.

Lemma tag_wireType0 (fn : Z) : int64 (Z.land (8 * fn) 7) = 0.
Proof. rewrite <- (Z.add_0_r (8 * fn)). apply tag_wireType; lia. Qed.

Lemma fieldName_range (fn : Z) (name : string) :
  fieldName fn = Some name -> 1 <= fn <= 30.
Proof.
  destruct fn as [| p | p]; try discriminate.
  do 5 (destruct p as [p | p |]; try discriminate; try lia).
Qed.

Lemma unmarshalLoop_end (fuel : nat) (m : MVCCStats) (data : list Z) :
  unmarshalLoop (S fuel) m data (len data) (len data) = Ret (m, None).
Proof.
  cbn [unmarshalLoop]. rewrite Z.ltb_irrefl. reflexivity.
Qed.

Lemma inside (pre mid post : list Z) :
  (1 <= length mid)%nat ->
  (len pre <? len (pre ++ mid ++ post)) = true.
Proof.
  intros H. rewrite !len_app. pose proof (len_nonneg post).
  unfold len in *. lia.
Qed.

(** A field the message has: read into it. *)
Lemma unmarshalLoop_known (fuel : nat) (m : MVCCStats) (data pre post : list Z)
    (fn v : Z) (name : string) :
  fieldName fn = Some name ->
  data = pre ++ fieldBytes (fn, v) ++ post ->
  unmarshalLoop (S fuel) m data (len data) (len pre)
    = unmarshalLoop fuel (setField fn (int64 v) m) data (len data)
        (len (pre ++ fieldBytes (fn, v))).
Proof.
  intros Hname Hd.
  pose proof (fieldName_range fn name Hname) as Hfn.
  cbn [unmarshalLoop].
  replace (len pre <? len data) with true
    by (subst data; symmetry; apply inside, fieldBytes_nonempty).
  cbn [negb].
  unfold fieldBytes in *. cbn [fst snd] in *.
  rewrite (decode_uint64 (8 * fn) data pre (varint (uint64 v) ++ post))
    by (try lia; rewrite Hd, <- app_assoc; reflexivity).
  cbn [bind].
  rewrite tag_fieldNum0, tag_wireType0, Hname by lia.
  cbn [Z.eqb negb].
  rewrite (decode_int64 (uint64 v) data (pre ++ varint (8 * fn)) post)
    by (try apply uint64_range; rewrite Hd, <- !app_assoc; reflexivity).
  cbn [bind]. rewrite int64_uint64, <- app_assoc. reflexivity.
Qed.

Lemma skipVarintLoop_varintBytes (f : nat) :
  forall (v : Z) (pre post : list Z) (fuel : nat),
  f <> O -> 0 <= v < 2 ^ (7 * Z.of_nat f) ->
  (length (varintBytes f v) <= fuel)%nat ->
  let data := pre ++ varintBytes f v ++ post in
  skipVarintLoop fuel data (len data) (len pre)
    = Ret (len (pre ++ varintBytes f v), None).
Proof.
  induction f as [| f IH]; intros v pre post fuel Hf0 Hv Hfuel.
  - congruence.
  - destruct fuel as [| fuel].
    { pose proof (varintBytes_length (S f) v Hf0 Hv). lia. }
    cbn zeta. cbn [skipVarintLoop varintBytes]. cbn [varintBytes] in Hfuel.
    assert (Hin : forall x rest,
               (len (pre ++ (x :: rest) ++ post) <=? len pre) = false).
    { intros x rest. rewrite len_app, len_app, len_cons.
      pose proof (len_nonneg rest). pose proof (len_nonneg post). lia. }
    replace (len pre + 1 - 1) with (len pre) by lia.
    destruct (128 <=? v) eqn:E.
    + rewrite Hin. cbn [app]. rewrite load_app. cbn [bind].
      pose proof (Z.mod_pos_bound v 128 ltac:(lia)) as Hm.
      replace (v mod 128 + 128 <? 128) with false by lia.
      assert (Hf : f <> O).
      { intros ->. change (2 ^ (7 * Z.of_nat 1)) with 128 in Hv. lia. }
      replace (len pre + 1) with (len (pre ++ [v mod 128 + 128]))
        by (rewrite len_app, len_cons; reflexivity).
      replace (pre ++ (v mod 128 + 128) :: varintBytes f (v / 128) ++ post)
        with ((pre ++ [v mod 128 + 128]) ++ varintBytes f (v / 128) ++ post)
        by (rewrite <- app_assoc; reflexivity).
      rewrite (IH (v / 128) (pre ++ [v mod 128 + 128]) post fuel Hf).
      * rewrite <- app_assoc. reflexivity.
      * apply div_128_bound. exact Hv.
      * cbn [length] in Hfuel. lia.
    + rewrite Hin. cbn [app]. rewrite load_app. cbn [bind].
      replace (v <? 128) with true by lia.
      rewrite len_app, len_cons. reflexivity.
Qed.

(** [skipMvcc] on a varint field: its tag and its value. *)
Lemma skipMvcc_varint_field (fuel : nat) (fn v : Z) (post : list Z) :
  0 <= fn < 2 ^ 28 -> 0 <= v < 2 ^ 64 ->
  skipMvcc (S fuel) (varint (8 * fn) ++ varint v ++ post)
    = Ret (len (varint (8 * fn) ++ varint v), None).
Proof.
  intros Hfn Hv. cbn [skipMvcc].
  set (data := varint (8 * fn) ++ varint v ++ post).
  assert (Hpos : (0 <? len data) = true).
  { subst data. apply (inside [] (varint (8 * fn)) (varint v ++ post)).
    apply varint_nonempty. }
  rewrite Hpos. cbn [negb].
  pose proof (decode_uint64 (8 * fn) data [] (varint v ++ post)
                ltac:(lia) eq_refl) as Hd.
  change (len []) with 0 in Hd. rewrite Hd. cbn [bind app].
  rewrite tag_wireType0. cbn [Z.eqb].
  pose proof (skipVarintLoop_varintBytes 10 v (varint (8 * fn)) post
                (fuel_of data) ltac:(lia) (uint64_lt_70 v Hv)) as Hs.
  cbn zeta in Hs. apply Hs.
  subst data. unfold fuel_of. rewrite !length_app. unfold varint. lia.
Qed.

(** A varint field the message does not have: kept as it is. *)
Lemma unmarshalLoop_unknown (fuel : nat) (m : MVCCStats)
    (data pre post : list Z) (fn v : Z) :
  fieldName fn = None ->
  0 <= fn < 2 ^ 28 -> 0 <= v < 2 ^ 64 ->
  len data < 2 ^ 63 ->
  data = pre ++ fieldBytes (fn, v) ++ post ->
  unmarshalLoop (S fuel) m data (len data) (len pre)
    = unmarshalLoop fuel (add_unrecognized m (fieldBytes (fn, v))) data
        (len data) (len (pre ++ fieldBytes (fn, v))).
Proof.
  intros Hname Hfn Hv Hl Hd.
  cbn [unmarshalLoop].
  replace (len pre <? len data) with true
    by (subst data; symmetry; apply inside, fieldBytes_nonempty).
  cbn [negb].
  unfold fieldBytes in *. cbn [fst snd] in *.
  rewrite (uint64_small v Hv) in *.
  rewrite (decode_uint64 (8 * fn) data pre (varint v ++ post))
    by (try lia; rewrite Hd, <- app_assoc; reflexivity).
  cbn [bind].
  rewrite tag_fieldNum0, Hname by lia.
  unfold varint at 2. rewrite sovLoop_varintBytes
    by (try lia; apply uint64_lt_70; lia).
  fold (varint (8 * fn)). cbn [bind].
  replace (len (pre ++ varint (8 * fn)) - (0 + len (varint (8 * fn))))
    with (len pre) by (rewrite len_app; lia).
  rewrite Hd at 1. rewrite slice_from_app. cbn [bind].
  rewrite <- app_assoc.
  assert (Hfuel : exists k, fuel_of (varint (8 * fn) ++ varint v ++ post) = S k)
    by (eexists; reflexivity).
  destruct Hfuel as [k ->].
  rewrite skipMvcc_varint_field by assumption. cbn [bind].
  pose proof (len_nonneg (varint (8 * fn) ++ varint v)) as H0.
  pose proof (len_nonneg pre) as H1.
  assert (Hle : len pre + len (varint (8 * fn) ++ varint v) <= len data).
  { rewrite Hd, !len_app. pose proof (len_nonneg post).
    rewrite !len_app in *. lia. }
  replace (len (varint (8 * fn) ++ varint v) <? 0) with false by lia.
  rewrite int64_small by lia.
  replace (len data <? len pre + len (varint (8 * fn) ++ varint v))
    with false by lia.
  rewrite <- len_app.
  rewrite Hd at 1. rewrite slice_range_app. cbn [bind]. reflexivity.
Qed.

(** What reading one field does to the message. *)
Definition read_field (m : MVCCStats) (p : Z * Z) : MVCCStats :=
  match fieldName (fst p) with
  | Some _ => setField (fst p) (int64 (snd p)) m
  | None => add_unrecognized m (fieldBytes p)
  end.

Lemma unmarshalLoop_fields (fs : list (Z * Z)) :
  forall (m : MVCCStats) (data pre : list Z) (fuel : nat),
  List.Forall (fun p => fieldName (fst p) = None ->
                        0 <= fst p < 2 ^ 28 /\ 0 <= snd p < 2 ^ 64 /\
                        len data < 2 ^ 63) fs ->
  (length fs < fuel)%nat ->
  data = pre ++ flat_map fieldBytes fs ->
  unmarshalLoop fuel m data (len data) (len pre)
    = Ret (fold_left read_field fs m, None).
Proof.
  induction fs as [| [fn v] fs IH]; intros m data pre fuel Hfs Hfuel Hd.
  - destruct fuel as [| fuel]; [cbn [length] in Hfuel; lia |].
    cbn [flat_map] in Hd. rewrite app_nil_r in Hd. subst data.
    apply unmarshalLoop_end.
  - destruct fuel as [| fuel]; [cbn [length] in Hfuel; lia |].
    cbn [length] in Hfuel. cbn [flat_map] in Hd.
    inversion Hfs as [| p ps Hp Hps]; subst p ps.
    cbn [fold_left]. unfold read_field at 2. cbn [fst snd] in *.
    destruct (fieldName fn) as [name |] eqn:Hname.
    + rewrite (unmarshalLoop_known fuel m data pre (flat_map fieldBytes fs)
                 fn v name Hname Hd).
      apply IH; [exact Hps | lia |].
      rewrite Hd, <- app_assoc. reflexivity.
    + destruct (Hp eq_refl) as (Hfn & Hv & Hl).
      rewrite (unmarshalLoop_unknown fuel m data pre (flat_map fieldBytes fs)
                 fn v Hname Hfn Hv Hl Hd).
      apply IH; [exact Hps | lia |].
      rewrite Hd, <- app_assoc. reflexivity.
Qed.

Lemma flat_map_fieldBytes_length (fs : list (Z * Z)) :
  (length fs <= length (flat_map fieldBytes fs))%nat.
Proof.
  induction fs as [| p fs IH]; cbn [flat_map length].
  - lia.
  - rewrite length_app. pose proof (fieldBytes_nonempty p). lia.
Qed.

Lemma Unmarshal_fields (fs : list (Z * Z)) (m : MVCCStats) :
  List.Forall (fun p => fieldName (fst p) = None ->
                        0 <= fst p < 2 ^ 28 /\ 0 <= snd p < 2 ^ 64 /\
                        len (flat_map fieldBytes fs) < 2 ^ 63) fs ->
  Unmarshal m (flat_map fieldBytes fs) = Ret (fold_left read_field fs m, None).
Proof.
  intros Hfs. unfold Unmarshal.
  apply (unmarshalLoop_fields fs m (flat_map fieldBytes fs) []
           (fuel_of (flat_map fieldBytes fs)) Hfs).
  - unfold fuel_of. pose proof (flat_map_fieldBytes_length fs). lia.
  - reflexivity.
Qed.

Lemma fold_read_unknown (us : list (Z * Z)) :
  forall m : MVCCStats,
  List.Forall (fun p => fieldName (fst p) = None) us ->
  fold_left read_field us m = add_unrecognized m (flat_map fieldBytes us).
Proof.
  induction us as [| p us IH]; intros m Hus.
  - destruct m. cbn [fold_left flat_map add_unrecognized].
    rewrite app_nil_r. reflexivity.
  - inversion Hus as [| q qs Hp Hps]; subst q qs.
    cbn [fold_left flat_map]. rewrite (IH _ Hps).
    unfold read_field. rewrite Hp. destruct m.
    cbn [add_unrecognized]. rewrite app_assoc. reflexivity.
Qed.

Lemma varintBytes_bounds (f : nat) :
  forall v : Z,
  f <> O -> 0 <= v < 2 ^ (7 * Z.of_nat f) ->
  v < 2 ^ (7 * len (varintBytes f v)) /\
  (len (varintBytes f v) = 1 \/ 2 ^ (7 * (len (varintBytes f v) - 1)) <= v).
Proof.
  induction f as [| f IH]; intros v Hf0 Hv.
  - congruence.
  - cbn [varintBytes]. destruct (128 <=? v) eqn:E.
    + assert (Hf : f <> O).
      { intros ->. change (2 ^ (7 * Z.of_nat 1)) with 128 in Hv. lia. }
      destruct (IH (v / 128) Hf (div_128_bound v f Hv)) as [Hup Hlow].
      pose proof (varintBytes_length f (v / 128) Hf (div_128_bound v f Hv))
        as Hn.
      rewrite len_cons.
      set (n := len (varintBytes f (v / 128))) in *.
      assert (Hn1 : 1 <= n) by (subst n; unfold len; lia).
      replace (7 * (1 + n)) with (7 + 7 * n) by lia.
      replace (7 * (1 + n - 1)) with (7 + 7 * (n - 1)) by lia.
      rewrite !Z.pow_add_r by lia. change (2 ^ 7) with 128.
      pose proof (Z.div_mod v 128 ltac:(lia)) as Hdm.
      pose proof (Z.mod_pos_bound v 128 ltac:(lia)) as Hm.
      split; [lia |]. right.
      destruct Hlow as [H1 | Hlow].
      * rewrite H1. change (2 ^ (7 * (1 - 1))) with 1. lia.
      * lia.
    + rewrite len_cons. change (len []) with 0. change (2 ^ (7 * (1 + 0))) with 128.
      split; [lia | left; reflexivity].
Qed.

Lemma set_nth_length (data : list Z) (i : nat) (x : Z) :
  length (set_nth data i x) = length data.
Proof.
  revert i. induction data as [| h t IH]; intros [| i]; cbn [set_nth length];
    try reflexivity.
  rewrite IH. reflexivity.
Qed.

Lemma encodeVarintLoop_short (f : nat) :
  forall (v : Z) (data : list Z) (offset : Z),
  f <> O -> 0 <= v < 2 ^ (7 * Z.of_nat f) ->
  len data < offset + len (varintBytes f v) ->
  encodeVarintLoop f data offset v = Panic.
Proof.
  induction f as [| f IH]; intros v data offset Hf0 Hv Hshort.
  - congruence.
  - cbn [encodeVarintLoop varintBytes] in *.
    destruct (128 <=? v) eqn:E.
    + assert (Hf : f <> O).
      { intros ->. change (2 ^ (7 * Z.of_nat 1)) with 128 in Hv. lia. }
      rewrite len_cons in Hshort.
      unfold store.
      destruct ((0 <=? offset) && (offset <? len data)); [| reflexivity].
      cbn [bind]. rewrite shiftr_7.
      apply IH; [exact Hf | apply div_128_bound; exact Hv |].
      unfold len at 1. rewrite set_nth_length. fold (len data). lia.
    + rewrite len_cons in Hshort. change (len []) with 0 in Hshort.
      rewrite store_out_of_range by lia. reflexivity.
Qed.

(** *** Properties *)

(** X16. [sovMvcc] returns, for every 64-bit value, the least number of
    seven-bit groups that hold it: between one and ten, the value is below
    two to the power seven times that number, and, unless the number is
    one, not below two to the power seven times one less. *)
Theorem sovMvcc_groups (x : Z) :
  0 <= x < 2 ^ 64 ->
  exists n : Z,
    sovMvcc x = Ret n /\ 1 <= n <= 10 /\
    x < 2 ^ (7 * n) /\ (n = 1 \/ 2 ^ (7 * (n - 1)) <= x).
Proof.
  intros Hx. exists (len (varint x)).
  pose proof (varint_length x Hx) as Hn.
  split; [apply sovMvcc_varint; exact Hx |].
  split; [unfold len; lia |].
  apply varintBytes_bounds; [lia | apply uint64_lt_70; exact Hx].
Qed.

Lemma sovMvcc_groups_witness :
  exists n : Z,
    sovMvcc 300 = Ret n /\ 1 <= n <= 10 /\
    300 < 2 ^ (7 * n) /\ (n = 1 \/ 2 ^ (7 * (n - 1)) <= 300).
Proof. apply (sovMvcc_groups 300). lia. Defined.

(** X17. [encodeVarintMvcc] writes the varint of a 64-bit value over
    exactly [sovMvcc] bytes at the offset, leaves every other byte of the
    slice alone and returns the offset behind them; the loop of
    [Unmarshal] reads the value back from these bytes, whatever follows
    them. *)
Theorem encodeVarintMvcc_writes_varint (v : Z) (pre buf post : list Z) :
  0 <= v < 2 ^ 64 ->
  sovMvcc v = Ret (len buf) ->
  encodeVarintMvcc (pre ++ buf ++ post) (len pre) v
    = Ret (pre ++ varint v ++ post, len pre + len buf) /\
  len (varint v) = len buf /\
  decodeVarint (fuel_of (pre ++ varint v ++ post)) uint64
      (pre ++ varint v ++ post) (len (pre ++ varint v ++ post)) (len pre) 0 0
    = Ret (v, len pre + len buf, None).
Proof.
  intros Hv Hsov.
  rewrite sovMvcc_varint in Hsov by exact Hv.
  assert (Hlen : len (varint v) = len buf) by congruence.
  assert (Hlen' : length buf = length (varint v)) by (unfold len in Hlen; lia).
  split; [| split].
  - rewrite <- Hlen. apply encodeVarintMvcc_varint; assumption.
  - exact Hlen.
  - rewrite (decode_uint64 v _ pre post Hv eq_refl), len_app, Hlen.
    reflexivity.
Qed.

Lemma encodeVarintMvcc_writes_varint_witness :
  encodeVarintMvcc ([7] ++ [0; 0] ++ [9]) (len [7]) 300
    = Ret ([7] ++ varint 300 ++ [9], len [7] + len [0; 0]) /\
  len (varint 300) = len [0; 0] /\
  decodeVarint (fuel_of ([7] ++ varint 300 ++ [9])) uint64
      ([7] ++ varint 300 ++ [9]) (len ([7] ++ varint 300 ++ [9])) (len [7]) 0 0
    = Ret (300, len [7] + len [0; 0], None).
Proof.
  apply (encodeVarintMvcc_writes_varint 300 [7] [0; 0] [9]).
  - lia.
  - reflexivity.
Defined.

(** X18. [encodeVarintMvcc] checks no bound itself: on a slice that ends
    before the [sovMvcc] bytes of the value it panics. *)
Theorem encodeVarintMvcc_short_slice (v n offset : Z) (data : list Z) :
  0 <= v < 2 ^ 64 ->
  sovMvcc v = Ret n ->
  len data < offset + n ->
  encodeVarintMvcc data offset v = Panic.
Proof.
  intros Hv Hsov Hshort.
  rewrite sovMvcc_varint in Hsov by exact Hv.
  assert (Hn : n = len (varint v)) by congruence. subst n.
  apply encodeVarintLoop_short;
    [lia | apply uint64_lt_70; exact Hv | exact Hshort].
Qed.

Lemma encodeVarintMvcc_short_slice_witness :
  encodeVarintMvcc [0; 0; 0] 2 300 = Panic.
Proof.
  apply (encodeVarintMvcc_short_slice 300 2 2 [0; 0; 0]).
  - lia.
  - reflexivity.
  - vm_compute. reflexivity.
Defined.

(** X19. [Marshal] returns for every message, without a panic, and the
    slice it returns has the length [Size] gives. *)
Theorem Marshal_length_is_Size (m : MVCCStats) :
  exists bytes : list Z, Marshal m = Ret bytes /\ Size m = Ret (len bytes).
Proof.
  exists (wire m). split; [apply Marshal_wire | apply Size_wire].
Qed.

(** X20. [Marshal] puts the bytes of [XXX_unrecognized] behind the
    thirteen fields, as they are. *)
Theorem Marshal_appends_unrecognized (a b c d e f g h i j k l n : Z)
    (x : list Z) :
  exists bytes : list Z,
    Marshal (mkMVCCStats a b c d e f g h i j k l n []) = Ret bytes /\
    Marshal (mkMVCCStats a b c d e f g h i j k l n x) = Ret (bytes ++ x).
Proof.
  eexists. split; [apply Marshal_wire |].
  rewrite Marshal_wire. unfold wire.
  cbn [LiveBytes KeyBytes ValBytes IntentBytes LiveCount KeyCount ValCount
       IntentCount IntentAge GCBytesAge SysBytes SysCount LastUpdateNanos
       XXX_unrecognized].
  rewrite app_nil_r. cbn [app].
  repeat (rewrite <- ?app_assoc; cbn [app]).
  reflexivity.
Qed.

(** X21. [Unmarshal] reads back what [Marshal] wrote: for a message whose
    thirteen fields are 64-bit integers and which holds no unrecognized
    bytes, [Marshal] returns bytes that [Unmarshal] reads, into any
    message, without an error; all thirteen fields are those of the message
    written, and the unrecognized bytes of the target are left as they
    were. *)
Theorem Unmarshal_Marshal_roundtrip (a b c d e f g h i j k l n : Z)
    (m0 : MVCCStats) :
  List.Forall (fun v => - 2 ^ 63 <= v < 2 ^ 63)
    [a; b; c; d; e; f; g; h; i; j; k; l; n] ->
  exists bytes : list Z,
    Marshal (mkMVCCStats a b c d e f g h i j k l n []) = Ret bytes /\
    Unmarshal m0 bytes
      = Ret (mkMVCCStats a b c d e f g h i j k l n (XXX_unrecognized m0),
             None).
Proof.
  intros Hr.
  eexists. split; [apply Marshal_wire |].
  pose proof (Unmarshal_fields
                [(1, a); (2, b); (3, c); (4, d); (5, e); (6, f); (7, g);
                 (8, h); (9, i); (10, j); (12, k); (13, l); (30, n)] m0) as H.
  etransitivity; [apply H |].
  - repeat constructor; cbn [fst fieldName]; discriminate.
  - destruct m0.
    cbn [fold_left read_field fieldName fst snd setField XXX_unrecognized].
    repeat match goal with
           | Hf : List.Forall _ (_ :: _) |- _ =>
               let H1 := fresh in let H2 := fresh in
               inversion Hf as [| ? ? H1 H2]; subst; clear Hf;
               rewrite (int64_small _ H1)
           end.
    reflexivity.
Qed.

Lemma Unmarshal_Marshal_roundtrip_witness :
  exists bytes : list Z,
    Marshal (mkMVCCStats 300 (-1) 0 127 128 16384 1 2 3 4 5 6
               1435000000000000000 []) = Ret bytes /\
    Unmarshal Reset bytes
      = Ret (mkMVCCStats 300 (-1) 0 127 128 16384 1 2 3 4 5 6
               1435000000000000000 (XXX_unrecognized Reset), None).
Proof.
  apply (Unmarshal_Marshal_roundtrip 300 (-1) 0 127 128 16384 1 2 3 4 5 6
           1435000000000000000 Reset).
  repeat constructor; lia.
Defined.

(** X22. [Unmarshal] keeps what it does not know: on a sequence of varint
    fields whose numbers the message does not have, in a slice shorter than
    two to the power 63, it returns no error, leaves the thirteen fields
    as they were and appends all the bytes, in their order, to
    [XXX_unrecognized]. *)
Theorem Unmarshal_keeps_unknown_fields (m : MVCCStats) (us : list (Z * Z)) :
  List.Forall (fun p => fieldName (fst p) = None /\
                        0 <= fst p < 2 ^ 28 /\ 0 <= snd p < 2 ^ 64) us ->
  len (flat_map fieldBytes us) < 2 ^ 63 ->
  Unmarshal m (flat_map fieldBytes us)
    = Ret (add_unrecognized m (flat_map fieldBytes us), None).
Proof.
  intros Hus Hl.
  rewrite Unmarshal_fields.
  - rewrite fold_read_unknown; [reflexivity |].
    eapply List.Forall_impl; [| exact Hus]. intros p Hp. apply Hp.
  - eapply List.Forall_impl; [| exact Hus].
    intros p (_ & Hfn & Hv) _. auto.
Qed.

Lemma Unmarshal_keeps_unknown_fields_witness :
  Unmarshal sample_stats (flat_map fieldBytes [(11, 300); (14, 1)])
    = Ret (add_unrecognized sample_stats
             (flat_map fieldBytes [(11, 300); (14, 1)]), None).
Proof.
  apply (Unmarshal_keeps_unknown_fields sample_stats [(11, 300); (14, 1)]).
  - repeat constructor; cbn [fst snd]; lia.
  - vm_compute. reflexivity.
Defined.

(** X23. [Unmarshal] refuses a field of the message that comes with a wire
    type other than 0: the error names the wire type and the field, and
    the message is as it was. *)
Theorem Unmarshal_wrong_wireType (m : MVCCStats) (fn wt : Z) (name : string)
    (rest : list Z) :
  fieldName fn = Some name ->
  1 <= wt <= 7 ->
  Unmarshal m (varint (8 * fn + wt) ++ rest)
    = Ret (m, Some (ErrWrongWireType wt name)).
Proof.
  intros Hname Hwt.
  pose proof (fieldName_range fn name Hname) as Hfn.
  unfold Unmarshal.
  set (data := varint (8 * fn + wt) ++ rest).
  assert (Hpos : (len [] <? len data) = true).
  { subst data.
    rewrite <- (app_nil_l (varint (8 * fn + wt) ++ rest)).
    rewrite <- (app_nil_r rest), app_nil_l.
    apply (inside [] (varint (8 * fn + wt)) (rest ++ [])).
    apply varint_nonempty. }
  change (len []) with 0 in Hpos.
  unfold fuel_of. cbn [unmarshalLoop]. rewrite Hpos. cbn [negb].
  pose proof (decode_uint64 (8 * fn + wt) data [] rest ltac:(lia) eq_refl)
    as Hd.
  change (len []) with 0 in Hd. rewrite Hd.
  cbn [bind].
  rewrite tag_fieldNum, tag_wireType, Hname by lia.
  replace (wt =? 0) with false by lia. reflexivity.
Qed.

Lemma Unmarshal_wrong_wireType_witness :
  Unmarshal Reset (varint (8 * 30 + 2) ++ [1; 65])
    = Ret (Reset, Some (ErrWrongWireType 2 "LastUpdateNanos")).
Proof.
  apply (Unmarshal_wrong_wireType Reset 30 2 "LastUpdateNanos" [1; 65]).
  - reflexivity.
  - lia.
Defined.

(** X24. [Unmarshal] changes the message before it fails: when the slice
    ends behind the tag of a field of the message, the error is
    [io.ErrUnexpectedEOF] and the field is zero, whatever it was. *)
Theorem Unmarshal_truncated_field (m : MVCCStats) (fn : Z) (name : string) :
  fieldName fn = Some name ->
  Unmarshal m (varint (8 * fn))
    = Ret (setField fn 0 m, Some ErrUnexpectedEOF).
Proof.
  intros Hname.
  pose proof (fieldName_range fn name Hname) as Hfn.
  unfold Unmarshal.
  set (data := varint (8 * fn)).
  assert (Hd0 : data = [] ++ varint (8 * fn) ++ [])
    by (rewrite app_nil_r; reflexivity).
  assert (Hpos : (0 <? len data) = true).
  { rewrite Hd0. apply (inside [] (varint (8 * fn)) []), varint_nonempty. }
  pose proof (decode_uint64 (8 * fn) data [] [] ltac:(lia) Hd0) as Hd.
  change (len []) with 0 in Hd. cbn [app] in Hd.
  unfold fuel_of at 1. cbn [unmarshalLoop]. rewrite Hpos. cbn [negb].
  rewrite Hd. cbn [bind].
  rewrite tag_fieldNum0, tag_wireType0, Hname by lia.
  unfold fuel_of. cbn [Z.eqb negb decodeVarint].
  rewrite Z.leb_refl. cbn [bind]. reflexivity.
Qed.

Lemma Unmarshal_truncated_field_witness :
  Unmarshal sample_stats (varint (8 * 1))
    = Ret (setField 1 0 sample_stats, Some ErrUnexpectedEOF).
Proof.
  apply (Unmarshal_truncated_field sample_stats 1 "LiveBytes"). reflexivity.
Defined.

Lemma int64_high (z : Z) : 2 ^ 63 <= z < 2 ^ 64 -> int64 z = z - 2 ^ 64.
Proof.
  intros H. unfold int64.
  replace (z + 2 ^ 63) with (z - 2 ^ 63 + 1 * 2 ^ 64) by lia.
  rewrite Z.mod_add, Z.mod_small by lia. lia.
Qed.

Lemma unmarshalLoop_known_fields (fs : list (Z * Z)) :
  forall (m : MVCCStats) (data pre post : list Z) (fuel : nat),
  List.Forall (fun p => fieldName (fst p) <> None) fs ->
  data = pre ++ flat_map fieldBytes fs ++ post ->
  unmarshalLoop (length fs + fuel) m data (len data) (len pre)
    = unmarshalLoop fuel (fold_left read_field fs m) data (len data)
        (len (pre ++ flat_map fieldBytes fs)).
Proof.
  induction fs as [| [fn v] fs IH]; intros m data pre post fuel Hfs Hd.
  - cbn [length Nat.add flat_map fold_left]. rewrite app_nil_r. reflexivity.
  - inversion Hfs as [| p ps Hp Hps]; subst p ps.
    cbn [length Nat.add flat_map fold_left] in *.
    cbn [fst] in Hp.
    destruct (fieldName fn) as [name |] eqn:Hname; [| congruence].
    rewrite <- app_assoc in Hd.
    rewrite (unmarshalLoop_known (length fs + fuel) m data pre
               (flat_map fieldBytes fs ++ post) fn v name Hname Hd).
    rewrite (IH _ data (pre ++ fieldBytes (fn, v)) post fuel Hps)
      by (rewrite Hd, <- app_assoc; reflexivity).
    unfold read_field at 3. cbn [fst snd]. rewrite Hname, <- app_assoc.
    reflexivity.
Qed.

(** [skipMvcc] on a field of wire type 2: the tag, the length and as many
    bytes as the length says, whether the slice holds them or not. *)
Lemma skipMvcc_length_delimited (fuel : nat) (fn L : Z) (post : list Z) :
  0 <= fn < 2 ^ 28 -> 0 <= L ->
  len (varint (8 * fn + 2) ++ varint L) + L < 2 ^ 63 ->
  skipMvcc (S fuel) (varint (8 * fn + 2) ++ varint L ++ post)
    = Ret (len (varint (8 * fn + 2) ++ varint L) + L, None).
Proof.
  intros Hfn HL Hsum. cbn [skipMvcc].
  pose proof (len_nonneg (varint (8 * fn + 2) ++ varint L)) as Hn.
  set (data := varint (8 * fn + 2) ++ varint L ++ post).
  assert (Hpos : (0 <? len data) = true).
  { subst data. apply (inside [] (varint (8 * fn + 2)) (varint L ++ post)).
    apply varint_nonempty. }
  rewrite Hpos. cbn [negb].
  pose proof (decode_uint64 (8 * fn + 2) data [] (varint L ++ post)
                ltac:(lia) eq_refl) as Hd.
  change (len []) with 0 in Hd. rewrite Hd. cbn [bind app].
  rewrite tag_wireType by lia. cbn [Z.eqb Pos.eqb].
  rewrite (decode_int64 L data (varint (8 * fn + 2)) post)
    by (try lia; reflexivity).
  cbn [bind].
  rewrite (int64_small L) by lia.
  replace (L <? 0) with false by lia.
  rewrite int64_small by lia. reflexivity.
Qed.

(** X25. [Unmarshal] does not answer every slice with an error. Behind
    fields of the message, a field the message does not have, of wire
    type 2, whose length added to the index of the field goes beyond the
    largest [int]: the sum wraps around, the test against the length of
    the slice passes, and the slice expression panics. *)
Theorem Unmarshal_panics_on_overflow (m : MVCCStats) (fs : list (Z * Z))
    (fn L : Z) (rest : list Z) :
  List.Forall (fun p => fieldName (fst p) <> None) fs ->
  fieldName fn = None -> 0 <= fn < 2 ^ 28 ->
  0 <= L ->
  len (flat_map fieldBytes fs ++ varint (8 * fn + 2) ++ varint L ++ rest)
    < 2 ^ 63 ->
  len (varint (8 * fn + 2) ++ varint L) + L < 2 ^ 63 ->
  2 ^ 63 <= len (flat_map fieldBytes fs)
            + len (varint (8 * fn + 2) ++ varint L) + L ->
  Unmarshal m
    (flat_map fieldBytes fs ++ varint (8 * fn + 2) ++ varint L ++ rest)
    = Panic.
Proof.
  intros Hfs Hname Hfn HL Hlen Hsum Hover.
  unfold Unmarshal.
  set (pre := flat_map fieldBytes fs) in *.
  set (tag := varint (8 * fn + 2)) in *.
  set (data := pre ++ tag ++ varint L ++ rest) in *.
  assert (Hfuel : exists k, fuel_of data = (length fs + S k)%nat).
  { exists (length data - length fs)%nat. unfold fuel_of.
    pose proof (flat_map_fieldBytes_length fs) as H1.
    pose proof (varint_nonempty (8 * fn + 2)) as H2.
    subst data pre tag. rewrite !length_app. lia. }
  destruct Hfuel as [k Hk]. rewrite Hk.
  change 0 with (len []).
  rewrite (unmarshalLoop_known_fields fs m data [] (tag ++ varint L ++ rest)
             (S k) Hfs eq_refl).
  cbn [app]. fold pre.
  set (m' := fold_left read_field fs m).
  cbn [unmarshalLoop].
  pose proof (len_nonneg pre) as Hp0.
  pose proof (len_nonneg (tag ++ varint L)) as Ht0.
  replace (len pre <? len data) with true
    by (symmetry; apply inside; subst tag; apply varint_nonempty).
  cbn [negb].
  rewrite (decode_uint64 (8 * fn + 2) data pre (varint L ++ rest))
    by (try lia; reflexivity).
  cbn [bind]. fold tag.
  rewrite tag_fieldNum, Hname by lia.
  unfold sovLoop at 1. fold (sovLoop 10 (8 * fn + 2) 0).
  rewrite sovLoop_varintBytes by (try lia; apply uint64_lt_70; lia).
  fold (varint (8 * fn + 2)). fold tag. cbn [bind].
  replace (len (pre ++ tag) - (0 + len tag)) with (len pre)
    by (rewrite len_app; lia).
  unfold data at 1. rewrite slice_from_app. cbn [bind].
  assert (Hf : exists j, fuel_of (tag ++ varint L ++ rest) = S j)
    by (eexists; reflexivity).
  destruct Hf as [j ->].
  subst tag. rewrite skipMvcc_length_delimited by assumption.
  cbn [bind].
  assert (Hhi : 2 ^ 63
                <= len pre + (len (varint (8 * fn + 2) ++ varint L) + L)
                < 2 ^ 64).
  { pose proof (len_nonneg (varint (8 * fn + 2) ++ varint L ++ rest)).
    unfold data in Hlen. rewrite len_app in Hlen. lia. }
  set (skippy := len (varint (8 * fn + 2) ++ varint L) + L) in *.
  replace (skippy <? 0) with false by lia.
  rewrite int64_high by exact Hhi.
  pose proof (len_nonneg data) as Hd0.
  replace (len data <? len pre + skippy - 2 ^ 64) with false by lia.
  unfold slice_range.
  replace (len pre <=? len pre + skippy - 2 ^ 64) with false by lia.
  rewrite andb_false_r. reflexivity.
Qed.

Lemma Unmarshal_panics_on_overflow_witness :
  Unmarshal Reset
    (flat_map fieldBytes [(1, 0)] ++ varint (8 * 11 + 2)
       ++ varint (2 ^ 63 - 11) ++ [])
    = Panic.
Proof.
  apply (Unmarshal_panics_on_overflow Reset [(1, 0)] 11 (2 ^ 63 - 11) []).
  - repeat constructor. cbn [fst fieldName]. discriminate.
  - reflexivity.
  - lia.
  - lia.
  - vm_compute. reflexivity.
  - vm_compute. reflexivity.
  - vm_compute. intros H. discriminate H.
Defined.

Lemma store_at (pre mid post : list Z) (x y : Z) :
  store (pre ++ mid ++ x :: post) (len pre + len mid) y
    = Ret (pre ++ mid ++ y :: post).
Proof.
  rewrite <- len_app, !app_assoc. apply store_app.
Qed.

Lemma shiftr_byte (v k : Z) :
  0 <= k -> uint8 (Z.shiftr v k) = (v / 2 ^ k) mod 256.
Proof. intros Hk. unfold uint8. rewrite Z.shiftr_div_pow2 by exact Hk. reflexivity. Qed.

Lemma store_eight (pre post : list Z)
    (a0 a1 a2 a3 a4 a5 a6 a7 c0 c1 c2 c3 c4 c5 c6 c7 : Z) :
  (let! data :=
     store (pre ++ a0 :: a1 :: a2 :: a3 :: a4 :: a5 :: a6 :: a7 :: post)
           (len pre) c0 in
   let! data := store data (len pre + 1) c1 in
   let! data := store data (len pre + 2) c2 in
   let! data := store data (len pre + 3) c3 in
   let! data := store data (len pre + 4) c4 in
   let! data := store data (len pre + 5) c5 in
   let! data := store data (len pre + 6) c6 in
   let! data := store data (len pre + 7) c7 in
   Ret (data, len pre + 8))
  = Ret (pre ++ [c0; c1; c2; c3; c4; c5; c6; c7] ++ post, len pre + 8).
Proof.
  rewrite store_app. cbn [bind].
  rewrite (store_at pre [c0] _ a1 c1
           : store (pre ++ c0 :: a1 :: _) (len pre + 1) c1 = _).
  cbn [bind app].
  rewrite (store_at pre [c0; c1] _ a2 c2
           : store (pre ++ c0 :: c1 :: a2 :: _) (len pre + 2) c2 = _).
  cbn [bind app].
  rewrite (store_at pre [c0; c1; c2] _ a3 c3
           : store (pre ++ c0 :: c1 :: c2 :: a3 :: _) (len pre + 3) c3 = _).
  cbn [bind app].
  rewrite (store_at pre [c0; c1; c2; c3] _ a4 c4
           : store (pre ++ c0 :: c1 :: c2 :: c3 :: a4 :: _)
                   (len pre + 4) c4 = _).
  cbn [bind app].
  rewrite (store_at pre [c0; c1; c2; c3; c4] _ a5 c5
           : store (pre ++ c0 :: c1 :: c2 :: c3 :: c4 :: a5 :: _)
                   (len pre + 5) c5 = _).
  cbn [bind app].
  rewrite (store_at pre [c0; c1; c2; c3; c4; c5] _ a6 c6
           : store (pre ++ c0 :: c1 :: c2 :: c3 :: c4 :: c5 :: a6 :: _)
                   (len pre + 6) c6 = _).
  cbn [bind app].
  rewrite (store_at pre [c0; c1; c2; c3; c4; c5; c6] _ a7 c7
           : store (pre ++ c0 :: c1 :: c2 :: c3 :: c4 :: c5 :: c6 :: a7 :: _)
                   (len pre + 7) c7 = _).
  cbn [bind app]. reflexivity.
Qed.

(** X30. [encodeFixed64Mvcc] writes a 64-bit value as eight bytes, the low
    byte first, over the eight bytes at the offset, leaves every other byte
    of the slice alone and returns the offset behind them. *)
Theorem encodeFixed64Mvcc_little_endian (v : Z) (pre buf post : list Z) :
  0 <= v < 2 ^ 64 ->
  length buf = 8%nat ->
  exists b0 b1 b2 b3 b4 b5 b6 b7 : Z,
    encodeFixed64Mvcc (pre ++ buf ++ post) (len pre) v
      = Ret (pre ++ [b0; b1; b2; b3; b4; b5; b6; b7] ++ post, len pre + 8) /\
    List.Forall (fun b => 0 <= b < 256) [b0; b1; b2; b3; b4; b5; b6; b7] /\
    v = b0 + 2 ^ 8 * b1 + 2 ^ 16 * b2 + 2 ^ 24 * b3 + 2 ^ 32 * b4
        + 2 ^ 40 * b5 + 2 ^ 48 * b6 + 2 ^ 56 * b7.
Proof.
  intros Hv Hlen.
  destruct buf as [| a0 [| a1 [| a2 [| a3 [| a4 [| a5 [| a6 [| a7 [| ? ?]]]]]]]]];
    try discriminate Hlen.
  exists (v mod 256), ((v / 2 ^ 8) mod 256), ((v / 2 ^ 16) mod 256),
    ((v / 2 ^ 24) mod 256), ((v / 2 ^ 32) mod 256), ((v / 2 ^ 40) mod 256),
    ((v / 2 ^ 48) mod 256), ((v / 2 ^ 56) mod 256).
  split; [| split].
  - unfold encodeFixed64Mvcc. cbn [app].
    rewrite !shiftr_byte by lia. unfold uint8.
    apply store_eight.
  - repeat constructor; apply Z.mod_pos_bound; lia.
  - change (2 ^ 64) with 18446744073709551616 in Hv.
    change (2 ^ 8) with 256. change (2 ^ 16) with 65536.
    change (2 ^ 24) with 16777216. change (2 ^ 32) with 4294967296.
    change (2 ^ 40) with 1099511627776.
    change (2 ^ 48) with 281474976710656.
    change (2 ^ 56) with 72057594037927936.
    Z.div_mod_to_equations. lia.
Qed.

Lemma encodeFixed64Mvcc_little_endian_witness :
  exists b0 b1 b2 b3 b4 b5 b6 b7 : Z,
    encodeFixed64Mvcc ([7] ++ repeat 0 8 ++ [9]) (len [7]) 258
      = Ret ([7] ++ [b0; b1; b2; b3; b4; b5; b6; b7] ++ [9], len [7] + 8) /\
    List.Forall (fun b => 0 <= b < 256) [b0; b1; b2; b3; b4; b5; b6; b7] /\
    258 = b0 + 2 ^ 8 * b1 + 2 ^ 16 * b2 + 2 ^ 24 * b3 + 2 ^ 32 * b4
          + 2 ^ 40 * b5 + 2 ^ 48 * b6 + 2 ^ 56 * b7.
Proof.
  apply (encodeFixed64Mvcc_little_endian 258 [7] (repeat 0 8) [9]).
  - lia.
  - reflexivity.
Defined.

End mvccpb.
